(** * Playback queue and audio engine core of the asteroid player

    A shallow embedding of the player store (store/playerStore.ts), the
    audio engine (services/audioBase.ts), the load effect of
    components/AudioController.tsx, [getSongFile] of
    services/metadataService.ts and the session restore of the start-up effect,
    followed by the properties the specification states about them. *)

From Stdlib Require Import ZArith QArith Qround Lqa Lia String.
From stdpp Require Import base tactics option list strings gmap.

Local Open Scope Z_scope.
#[local] Set Warnings "-clear-no-such-hyp".

(** ** JavaScript values and array primitives *)

(** A JavaScript [number] used as a time in seconds.  The code only compares
    such numbers, tests them for zero and subtracts the constant 10, so the
    finite values are taken as rationals. *)
Inductive jsnum : Type :=
  | Num (q : Q)
  | NaN
  | PosInf
  | NegInf.

Definition Qltb (a b : Q) : bool := negb (Qle_bool b a).

(** [Number.isFinite(x)] *)
Definition isFinite (x : jsnum) : bool :=
  match x with Num _ => true | _ => false end.

(** Truthiness of a number: [0] and [NaN] are falsy. *)
Definition truthy (x : jsnum) : bool :=
  match x with
  | Num q => negb (Qeq_bool q 0)
  | NaN => false
  | PosInf | NegInf => true
  end.

(** [a || b] on numbers. *)
Definition js_or (a b : jsnum) : jsnum := if truthy a then a else b.

(** [a < b]; every comparison with [NaN] is false. *)
Definition js_lt (a b : jsnum) : bool :=
  match a, b with
  | NaN, _ | _, NaN => false
  | Num x, Num y => Qltb x y
  | NegInf, NegInf => false
  | NegInf, _ => true
  | _, NegInf => false
  | PosInf, _ => false
  | Num _, PosInf => true
  end.

(** [a > b] *)
Definition js_gt (a b : jsnum) : bool := js_lt b a.

(** [Math.min(a, b)] *)
Definition js_min (a b : jsnum) : jsnum :=
  match a, b with
  | NaN, _ | _, NaN => NaN
  | _, _ => if js_lt b a then b else a
  end.

(** [a - k] for a finite constant [k] *)
Definition js_sub (a : jsnum) (k : Q) : jsnum :=
  match a with
  | Num x => Num (x - k)
  | other => other
  end.

Section JsArray.
Context {A : Type}.

(** [arr[i]]: [None] stands for [undefined]. *)
Definition js_get (arr : list A) (i : Z) : option A :=
  if decide (0 <= i) then arr !! Z.to_nat i else None.

(** Start position of [Array.prototype.splice]: a negative start counts
    from the end, and the result is clamped to [0 .. length]. *)
Definition splice_start (start : Z) (arr : list A) : nat :=
  let len := Z.of_nat (length arr) in
  Z.to_nat (if decide (start < 0) then Z.max (len + start) 0
            else Z.min start len).

(** [arr.splice(start, 0, ...items)], the array after the call. *)
Definition splice_insert (start : Z) (items arr : list A) : list A :=
  let k := splice_start start arr in
  take k arr ++ items ++ drop k arr.

(** [arr.splice(start, 1)]: the removed elements (at most one) and the
    array after the call. *)
Definition splice_remove1 (start : Z) (arr : list A) : list A * list A :=
  let k := splice_start start arr in
  (take 1 (drop k arr), take k arr ++ drop (S k) arr).

(** [arr.findIndex(p)]: the first index whose element satisfies [p],
    or [-1]. *)
Fixpoint js_findIndex (p : A -> bool) (arr : list A) : Z :=
  match arr with
  | [] => -1
  | x :: rest =>
      if p x then 0
      else let r := js_findIndex p rest in
           if decide (r = -1) then -1 else r + 1
  end.

(** [[arr[i], arr[j]] = [arr[j], arr[i]]]: the right-hand side is read
    first, then slot [i] and slot [j] are written in this order. *)
Definition js_swap (i j : nat) (arr : list A) : list A :=
  match arr !! i, arr !! j with
  | Some a, Some b => <[j := a]> (<[i := b]> arr)
  | _, _ => arr
  end.
End JsArray.

(** ** Tracks (types.ts) *)

(** A [File] object: [fileRef] is the object's identity, the one [===]
    compares. *)
Record File : Type := mkFile {
  fileRef : nat;
  fileName : string;
  fileSize : N
}.

Inductive Perm : Type := granted | denied | prompt.

(** What an asynchronous platform call does: it resolves to a value or it
    rejects. *)
Inductive answer (T : Type) : Type :=
  | Resolves (v : T)
  | Rejects.
Arguments Resolves {T} v.
Arguments Rejects {T}.

(** A [FileSystemFileHandle], given by what the platform answers to each
    of its methods; [queryPermission] and [requestPermission] may be
    missing from the object. *)
Record FileHandle : Type := mkHandle {
  queryPermission : option (answer Perm);
  requestPermission : option (answer Perm);
  getFile : answer File
}.

(** [Song]: the fields the queue and the controller read.  [title] stands
    for all the display metadata. *)
Record Song : Type := mkSong {
  id : string;
  title : string;
  duration : jsnum;
  path : option string;
  file : option File;
  fileHandle : option FileHandle
}.

Inductive RepeatMode : Type := OFF | ALL | ONE.

(** ** The player store (store/playerStore.ts)

    The queue and playback part of [PlayerState]; theme, equalizer and
    overlay fields are not read by any modelled operation and are left
    out. *)
Record PlayerState : Type := mkPlayerState {
  queue : list Song;
  originalQueue : list Song;
  queueTitle : string;
  currentIndex : option Z;
  isPlaying : bool;
  currentTime : jsnum;
  storeDuration : jsnum;
  songProgress : gmap string jsnum;
  permissionErrorSong : option Song;
  isShuffled : bool;
  repeatMode : RepeatMode
}.

(** The store as [create] builds it, for an empty [song_progress] slot. *)
Definition initialState : PlayerState :=
  {| queue := []; originalQueue := []; queueTitle := "Queue";
     currentIndex := None; isPlaying := false;
     currentTime := Num 0; storeDuration := Num 0;
     songProgress := ∅; permissionErrorSong := None;
     isShuffled := false; repeatMode := OFF |}.

(** Partial updates, as [set({...})] merges them into the state. *)
Definition set_queues (q o : list Song) (st : PlayerState) : PlayerState :=
  {| queue := q; originalQueue := o; queueTitle := queueTitle st;
     currentIndex := currentIndex st; isPlaying := isPlaying st;
     currentTime := currentTime st; storeDuration := storeDuration st;
     songProgress := songProgress st;
     permissionErrorSong := permissionErrorSong st;
     isShuffled := isShuffled st; repeatMode := repeatMode st |}.

Definition set_index (i : option Z) (st : PlayerState) : PlayerState :=
  {| queue := queue st; originalQueue := originalQueue st;
     queueTitle := queueTitle st;
     currentIndex := i; isPlaying := isPlaying st;
     currentTime := currentTime st; storeDuration := storeDuration st;
     songProgress := songProgress st;
     permissionErrorSong := permissionErrorSong st;
     isShuffled := isShuffled st; repeatMode := repeatMode st |}.

Definition set_title (t : string) (st : PlayerState) : PlayerState :=
  {| queue := queue st; originalQueue := originalQueue st;
     queueTitle := t;
     currentIndex := currentIndex st; isPlaying := isPlaying st;
     currentTime := currentTime st; storeDuration := storeDuration st;
     songProgress := songProgress st;
     permissionErrorSong := permissionErrorSong st;
     isShuffled := isShuffled st; repeatMode := repeatMode st |}.

Definition set_shuffled (b : bool) (st : PlayerState) : PlayerState :=
  {| queue := queue st; originalQueue := originalQueue st;
     queueTitle := queueTitle st;
     currentIndex := currentIndex st; isPlaying := isPlaying st;
     currentTime := currentTime st; storeDuration := storeDuration st;
     songProgress := songProgress st;
     permissionErrorSong := permissionErrorSong st;
     isShuffled := b; repeatMode := repeatMode st |}.

Definition set_playing (b : bool) (st : PlayerState) : PlayerState :=
  {| queue := queue st; originalQueue := originalQueue st;
     queueTitle := queueTitle st;
     currentIndex := currentIndex st; isPlaying := b;
     currentTime := currentTime st; storeDuration := storeDuration st;
     songProgress := songProgress st;
     permissionErrorSong := permissionErrorSong st;
     isShuffled := isShuffled st; repeatMode := repeatMode st |}.

Definition set_progress (m : gmap string jsnum) (st : PlayerState)
  : PlayerState :=
  {| queue := queue st; originalQueue := originalQueue st;
     queueTitle := queueTitle st;
     currentIndex := currentIndex st; isPlaying := isPlaying st;
     currentTime := currentTime st; storeDuration := storeDuration st;
     songProgress := m;
     permissionErrorSong := permissionErrorSong st;
     isShuffled := isShuffled st; repeatMode := repeatMode st |}.

(** What an updater passed to [set] does.  [Threw]: it raises a
    [TypeError] (a property read on [undefined]) and the store keeps its
    state.  [Untyped]: it returns an array holding [undefined], which is
    no [Song[]] any more; the model stops there. *)
Inductive outcome : Type :=
  | Updated (st : PlayerState)
  | Threw
  | Untyped.

(** [state.currentIndex !== null ? state.queue[state.currentIndex] : ...]:
    the element the index addresses, [None] for [undefined]. *)
Definition songAt (st : PlayerState) (i : Z) : option Song :=
  js_get (queue st) i.

Definition same_id (a : string) (s : Song) : bool := bool_decide (id s = a).

(** [list.findIndex(s => s.id === currentSong.id)] where [currentSong] may
    be [undefined]: the callback raises at the first element it is
    called on, so the search only survives on an empty array. *)
Definition findIndex_of (cur : option Song) (l : list Song) : option Z :=
  match l, cur with
  | [], _ => Some (-1)
  | _ :: _, None => None
  | _ :: _, Some c => Some (js_findIndex (same_id (id c)) l)
  end.

(** [list.filter(s => s.id !== x)] *)
Definition without_id (x : string) (l : list Song) : list Song :=
  filter (fun s => id s ≠ x) l.

(** [setQueue(songs, title = "Queue")] *)
Definition setQueue (songs : list Song) (ttl : string) (st : PlayerState)
  : PlayerState :=
  set_shuffled false (set_title ttl (set_queues songs songs st)).

(** [setOriginalQueue(songs)] *)
Definition setOriginalQueue (songs : list Song) (st : PlayerState)
  : PlayerState :=
  set_queues (queue st) songs st.

(** [setCurrentIndex(index)] *)
Definition setCurrentIndex (index : option Z) (st : PlayerState)
  : PlayerState :=
  set_index index st.

(** [reorderQueue(startIndex, endIndex)] *)
Definition reorderQueue (startIndex endIndex : Z) (st : PlayerState)
  : outcome :=
  let '(removedL, result0) := splice_remove1 startIndex (queue st) in
  match removedL with
  | [] => Untyped
  | removed :: _ =>
      let result := splice_insert endIndex [removed] result0 in
      let newIndex :=
        match currentIndex st with
        | None => None
        | Some c =>
            if decide (c = startIndex) then Some endIndex
            else if decide (startIndex < c /\ endIndex >= c) then Some (c - 1)
            else if decide (startIndex > c /\ endIndex <= c) then Some (c + 1)
            else Some c
        end in
      let newOriginal :=
        if isShuffled st then originalQueue st else result in
      Updated (set_index newIndex (set_queues result newOriginal st))
  end.

(** [addToQueue(song)] *)
Definition addToQueue (song : Song) (st : PlayerState) : PlayerState :=
  set_queues (queue st ++ [song]) (originalQueue st ++ [song]) st.

Inductive AddMode : Type := NEXT | END.

(** The shared body of [playNext] and of the ['NEXT'] branch of
    [bulkAddToQueue] once [currentIndex] is known not to be [null]. *)
Definition insert_after_current (c : Z) (songs : list Song)
  (st : PlayerState) : outcome :=
  let newQueue := splice_insert (c + 1) songs (queue st) in
  match findIndex_of (songAt st c) (originalQueue st) with
  | None => Threw
  | Some originalIndex =>
      let newOriginal :=
        if decide (originalIndex <> -1)
        then splice_insert (originalIndex + 1) songs (originalQueue st)
        else originalQueue st ++ songs in
      Updated (set_queues newQueue newOriginal st)
  end.

(** [playNext(song)] *)
Definition playNext (song : Song) (st : PlayerState) : outcome :=
  match currentIndex st with
  | None => Updated (set_index (Some 0) (set_queues [song] [song] st))
  | Some c => insert_after_current c [song] st
  end.

(** [clearQueue()] *)
Definition clearQueue (st : PlayerState) : PlayerState :=
  match currentIndex st with
  | Some c =>
      match songAt st c with
      | Some current =>
          set_index (Some 0) (set_queues [current] [current] st)
      | None => st
      end
  | None => st
  end.

(** [bulkAddToQueue(songs, mode)] *)
Definition bulkAddToQueue (songs : list Song) (mode : AddMode)
  (st : PlayerState) : outcome :=
  match mode with
  | NEXT =>
      match currentIndex st with
      | None => Updated (set_index (Some 0) (set_queues songs songs st))
      | Some c => insert_after_current c songs st
      end
  | END =>
      Updated (set_queues (queue st ++ songs) (originalQueue st ++ songs) st)
  end.

(** [deleteSongFromQueue(songId)] *)
Definition deleteSongFromQueue (songId : string) (st : PlayerState)
  : outcome :=
  let newQueue := without_id songId (queue st) in
  let newOriginal := without_id songId (originalQueue st) in
  let finish (newIndex : option Z) :=
    Updated (set_playing
               (match newIndex with None => false | Some _ => isPlaying st end)
               (set_index newIndex (set_queues newQueue newOriginal st))) in
  match currentIndex st with
  | None => finish None
  | Some c =>
      match songAt st c with
      | Some cur =>
          if decide (id cur = songId) then finish None
          else finish (Some (js_findIndex (same_id (id cur)) newQueue))
      | None => Threw
      end
  end.

(** [updateSongInQueue(originalId, newSong)] *)
Definition updateList (originalId : string) (newSong : Song)
  (l : list Song) : list Song :=
  (fun s => if decide (id s = originalId) then newSong else s) <$> l.

Definition updateSongInQueue (originalId : string) (newSong : Song)
  (st : PlayerState) : PlayerState :=
  set_queues (updateList originalId newSong (queue st))
             (updateList originalId newSong (originalQueue st)) st.

(** [saveLastPosition(id, time)]: the map is replaced, one entry is kept. *)
Definition saveLastPosition (i : string) (time : jsnum) (st : PlayerState)
  : PlayerState :=
  set_progress {[ i := time ]} st.

(** [consumeSongProgress(id)] *)
Definition consumeSongProgress (i : string) (st : PlayerState)
  : PlayerState :=
  set_progress (delete i (songProgress st)) st.

(** A value returned by [Math.random()]: the rational
    [dnum / (dnum + dgap + 1)], which lies in [[0, 1)] by construction. *)
Record draw : Type := mkDraw { dnum : nat; dgap : nat }.

(** [Math.floor(r * (i + 1))] *)
Definition pick (r : draw) (i : nat) : nat :=
  (dnum r * (i + 1)) `div` (dnum r + dgap r + 1).

(** The loop [for (let i = remaining.length - 1; i > 0; i--)] of
    [toggleShuffle]; [rnd i] is the value [Math.random()] returns in the
    iteration whose counter is [i]. *)
Fixpoint shuffle_from (rnd : nat -> draw) (i : nat) (remaining : list Song)
  : list Song :=
  match i with
  | O => remaining
  | S i' => shuffle_from rnd i' (js_swap i (pick (rnd i) i) remaining)
  end.

Definition shuffle (rnd : nat -> draw) (remaining : list Song) : list Song :=
  shuffle_from rnd (length remaining - 1)%nat remaining.

(** [toggleShuffle()] *)
Definition toggleShuffle (rnd : nat -> draw) (st : PlayerState) : outcome :=
  match currentIndex st, queue st with
  | None, _ | _, [] => Updated st
  | Some c, _ :: _ =>
      if isShuffled st then
        match findIndex_of (songAt st c) (originalQueue st) with
        | None => Threw
        | Some originalIndex =>
            Updated
              (set_index
                 (Some (if decide (originalIndex <> -1)
                        then originalIndex else 0))
                 (set_queues (originalQueue st) (originalQueue st)
                    (set_shuffled false st)))
        end
      else
        match songAt st c with
        | None => Threw
        | Some currentSong =>
            let remaining := shuffle rnd (without_id (id currentSong) (queue st)) in
            Updated
              (set_index (Some 0)
                 (set_queues (currentSong :: remaining) (originalQueue st)
                    (set_shuffled true st)))
        end
  end.

(** The queue operations of the store, as data. *)
Inductive op : Type :=
  | OpSetQueue (songs : list Song) (ttl : string)
  | OpSetCurrentIndex (i : option Z)
  | OpReorder (startIndex endIndex : Z)
  | OpAddToQueue (song : Song)
  | OpPlayNext (song : Song)
  | OpClearQueue
  | OpBulkAdd (songs : list Song) (mode : AddMode)
  | OpDelete (songId : string)
  | OpUpdate (originalId : string) (newSong : Song)
  | OpToggleShuffle (rnd : nat -> draw).

Definition run_op (o : op) (st : PlayerState) : outcome :=
  match o with
  | OpSetQueue songs ttl => Updated (setQueue songs ttl st)
  | OpSetCurrentIndex i => Updated (setCurrentIndex i st)
  | OpReorder a b => reorderQueue a b st
  | OpAddToQueue s => Updated (addToQueue s st)
  | OpPlayNext s => playNext s st
  | OpClearQueue => Updated (clearQueue st)
  | OpBulkAdd songs mode => bulkAddToQueue songs mode st
  | OpDelete x => deleteSongFromQueue x st
  | OpUpdate x s => Updated (updateSongInQueue x s st)
  | OpToggleShuffle rnd => toggleShuffle rnd st
  end.

(** The store after a call: an updater that raises leaves it as it was. *)
Definition commit (st : PlayerState) (o : outcome) : option PlayerState :=
  match o with
  | Updated st' => Some st'
  | Threw => Some st
  | Untyped => None
  end.

Definition step (o : op) (st : PlayerState) : option PlayerState :=
  commit st (run_op o st).

Fixpoint run (ops : list op) (st : PlayerState) : option PlayerState :=
  match ops with
  | [] => Some st
  | o :: rest =>
      match step o st with
      | Some st' => run rest st'
      | None => None
      end
  end.

(** The identifiers an ordering holds, as a set. *)
Definition ids (l : list Song) : gset string := list_to_set (id <$> l).

(** [active] and [canonical] hold the same identifiers. *)
Definition same_ids (st : PlayerState) : Prop :=
  ids (queue st) = ids (originalQueue st).

(** [currentIndex] is [null] or addresses an element of [queue]. *)
Definition index_ok (st : PlayerState) : Prop :=
  match currentIndex st with
  | None => True
  | Some i => 0 <= i < Z.of_nat (length (queue st))
  end.

(** [start] makes [splice(start, 1)] take an element out of [l]. *)
Definition addresses {A} (start : Z) (l : list A) : Prop :=
  (splice_start start l < length l)%nat.

(** A call whose result is still a [Song[]]: a reorder has to take an
    element out. *)
Definition typed_op (o : op) (st : PlayerState) : Prop :=
  match o with
  | OpReorder startIndex _ => addresses startIndex (queue st)
  | _ => True
  end.

(** The calls the index bound is stated for: reorders between two
    positions of the queue, single and bulk insertions (a ['NEXT'] bulk
    insertion without a current index needs songs to insert), removals,
    shuffle toggles, and with them in-place updates and [clearQueue]. *)
Definition edit_ok (o : op) (st : PlayerState) : Prop :=
  match o with
  | OpSetQueue _ _ | OpSetCurrentIndex _ => False
  | OpReorder startIndex endIndex =>
      0 <= startIndex < Z.of_nat (length (queue st)) /\
      0 <= endIndex < Z.of_nat (length (queue st))
  | OpBulkAdd songs NEXT => currentIndex st = None -> songs <> []
  | _ => True
  end.

Fixpoint edits_ok (ops : list op) (st : PlayerState) : Prop :=
  match ops with
  | [] => True
  | o :: rest =>
      edit_ok o st /\
      forall st', step o st = Some st' -> edits_ok rest st'
  end.

(** Both queue invariants together. *)
Definition queue_inv (st : PlayerState) : Prop := same_ids st /\ index_ok st.

(** ** The audio engine (services/audioBase.ts) *)

(** The [HTMLAudioElement] the engine owns.  A value assigned to
    [currentTime] is recorded as assigned. *)
Record Player : Type := mkPlayer {
  src : string;
  pCurrentTime : jsnum;
  pDuration : jsnum;
  paused : bool
}.

Definition set_pCurrentTime (t : jsnum) (p : Player) : Player :=
  {| src := src p; pCurrentTime := t; pDuration := pDuration p;
     paused := paused p |}.

Definition set_src (s : string) (p : Player) : Player :=
  {| src := s; pCurrentTime := pCurrentTime p; pDuration := pDuration p;
     paused := paused p |}.

Definition set_paused (b : bool) (p : Player) : Player :=
  {| src := src p; pCurrentTime := pCurrentTime p; pDuration := pDuration p;
     paused := b |}.

(** [AudioEngine.seek(time)] *)
Definition seek (time : jsnum) (p : Player) : Player :=
  if isFinite time then
    let safeTime := js_min time (js_or (pDuration p) time) in
    set_pCurrentTime safeTime p
  else p.

(** [AudioEngine.pause()] *)
Definition pause (p : Player) : Player := set_paused true p.

(** ** Source resolution (services/metadataService.ts, AudioController.tsx) *)

(** [window.electronAPI]: whether the object exists, and whether its
    [isElectron] field is [true]. *)
Record Env : Type := mkEnv {
  hasElectronAPI : bool;
  electronFlag : bool
}.

Definition isElectron (env : Env) : bool :=
  hasElectronAPI env && electronFlag env.

(** A resolved source: a [File] object or a path string. *)
Inductive Raw : Type :=
  | RawFile (f : File)
  | RawPath (p : string).

(** A string is truthy when it is not empty. *)
Definition nonempty (s : string) : bool := negb (String.eqb s "").

Definition truthy_path (s : Song) : option string :=
  match path s with
  | Some p => if nonempty p then Some p else None
  | None => None
  end.

(** The body of the [try] block of [getSongFile]; [Rejects] is a raised
    error. *)
Definition fromHandle (h : FileHandle) : answer File :=
  match queryPermission h with
  | None => getFile h
  | Some Rejects => Rejects
  | Some (Resolves perm) =>
      match perm with
      | granted => getFile h
      | _ =>
          match requestPermission h with
          | None => getFile h
          | Some Rejects => Rejects
          | Some (Resolves granted) => getFile h
          | Some (Resolves _) => Rejects
          end
      end
  end.

(** [getSongFile(song)]: [Resolves None] is [null], [Rejects] the error the
    [catch] block rethrows. *)
Definition getSongFile (env : Env) (song : Song) : answer (option Raw) :=
  match truthy_path song, isElectron env with
  | Some p, true => Resolves (Some (RawPath p))
  | _, _ =>
      match file song with
      | Some f => Resolves (Some (RawFile f))
      | None =>
          match fileHandle song with
          | Some h =>
              match fromHandle h with
              | Resolves f => Resolves (Some (RawFile f))
              | Rejects => Rejects
              end
          | None => Resolves None
          end
      end
  end.

(** The object [getSourceUrl] resolves to. *)
Record SourceResult : Type := mkSource {
  rSrc : option string;
  rawSource : option Raw
}.

(** [getSourceUrl(song)]; [blobUrl] is what [URL.createObjectURL] returns
    for this call. *)
Definition getSourceUrl (env : Env) (blobUrl : string) (song : Song)
  : SourceResult :=
  match hasElectronAPI env, truthy_path song with
  | true, Some p => mkSource (Some ("file://" ++ p)%string) (Some (RawPath p))
  | _, _ =>
      match getSongFile env song with
      | Rejects => mkSource None None
      | Resolves None => mkSource None None
      | Resolves (Some (RawPath p)) =>
          if nonempty p then mkSource (Some p) (Some (RawPath p))
          else mkSource None None
      | Resolves (Some (RawFile f)) => mkSource (Some blobUrl) (Some (RawFile f))
      end
  end.

(** ** The controller (components/AudioController.tsx) *)

(** The controller's refs, the engine's player, the two stores' state the
    load effect writes, and two logs of calls made to the platform:
    [revoked] for [URL.revokeObjectURL] and [nowPlaying] for the track
    handed to [updateMetadata]. *)
Record Ctl : Type := mkCtl {
  player : Player;
  playRequestRef : Z;
  activeObjectUrlRef : option string;
  lastPlayedSourceRef : option Raw;
  store : PlayerState;
  recentlyPlayed : list Song;
  revoked : list string;
  nowPlaying : option Song
}.

(** What the closure of one run of the load effect holds while it awaits
    [getSourceUrl]: its token and the values captured at render time. *)
Record Request : Type := mkRequest {
  requestId : Z;
  reqSong : Song;
  reqIsPlaying : bool;
  reqProgress : gmap string jsnum
}.

Definition with_player (p : Player) (c : Ctl) : Ctl :=
  mkCtl p (playRequestRef c) (activeObjectUrlRef c) (lastPlayedSourceRef c)
        (store c) (recentlyPlayed c) (revoked c) (nowPlaying c).

Definition with_store (s : PlayerState) (c : Ctl) : Ctl :=
  mkCtl (player c) (playRequestRef c) (activeObjectUrlRef c)
        (lastPlayedSourceRef c) s (recentlyPlayed c) (revoked c)
        (nowPlaying c).

Definition with_token (t : Z) (c : Ctl) : Ctl :=
  mkCtl (player c) t (activeObjectUrlRef c) (lastPlayedSourceRef c)
        (store c) (recentlyPlayed c) (revoked c) (nowPlaying c).

Definition with_activeUrl (u : option string) (c : Ctl) : Ctl :=
  mkCtl (player c) (playRequestRef c) u (lastPlayedSourceRef c)
        (store c) (recentlyPlayed c) (revoked c) (nowPlaying c).

Definition with_lastPlayed (r : option Raw) (c : Ctl) : Ctl :=
  mkCtl (player c) (playRequestRef c) (activeObjectUrlRef c) r
        (store c) (recentlyPlayed c) (revoked c) (nowPlaying c).

Definition revoke (u : string) (c : Ctl) : Ctl :=
  mkCtl (player c) (playRequestRef c) (activeObjectUrlRef c)
        (lastPlayedSourceRef c) (store c) (recentlyPlayed c)
        (revoked c ++ [u]) (nowPlaying c).

(** The call [updateMetadata(song)], as far as it runs inside the load:
    it is logged with the track it was handed.  The function is [async]
    and is not awaited; each of its store writes follows one of its own
    [await]s, so none of them happens before [loadSong] returns.  They are
    [updateMetadata_settle] below. *)
Definition updateMetadata (song : Song) (c : Ctl) : Ctl :=
  mkCtl (player c) (playRequestRef c) (activeObjectUrlRef c)
        (lastPlayedSourceRef c) (store c) (recentlyPlayed c) (revoked c)
        (Some song).

(** [addRecentlyPlayed(song)] of the library store *)
Definition addRecentlyPlayed (song : Song) (c : Ctl) : Ctl :=
  mkCtl (player c) (playRequestRef c) (activeObjectUrlRef c)
        (lastPlayedSourceRef c) (store c)
        (take 10 (song :: without_id (id song) (recentlyPlayed c)))
        (revoked c) (nowPlaying c).

(** [cleanupUrl()] *)
Definition cleanupUrl (c : Ctl) : Ctl :=
  with_activeUrl None
    (match activeObjectUrlRef c with
     | Some u => if nonempty u then revoke u c else c
     | None => c
     end).

Definition isBlob (s : string) : bool := String.prefix "blob:" s.

(** [currentSong]: [currentIndex !== null ? queue[currentIndex] : null] *)
Definition currentSong (st : PlayerState) : option Song :=
  match currentIndex st with
  | Some i => songAt st i
  | None => None
  end.

(** The test [isMetadataUpdate]: the resolved source is the one last
    played ([===]), or both are [File] objects of equal name and size. *)
Definition isMetadataUpdate (last raw : option Raw) : bool :=
  match last, raw with
  | None, None => true
  | Some (RawPath a), Some (RawPath b) => String.eqb a b
  | Some (RawFile f), Some (RawFile g) =>
      Nat.eqb (fileRef f) (fileRef g)
      || (String.eqb (fileName g) (fileName f) && N.eqb (fileSize g) (fileSize f))
  | _, _ => false
  end.

(** [loadSong] up to its first [await]: [now] is the value of
    [Date.now()].  Without a current song the effect pauses, cleans up and
    ends; otherwise it records its token and starts resolving. *)
Definition loadSong_begin (now : Z) (c : Ctl) : Ctl * option Request :=
  match currentSong (store c) with
  | None =>
      (with_lastPlayed None (cleanupUrl (with_player (pause (player c)) c)),
       None)
  | Some song =>
      (with_token now c,
       Some (mkRequest now song (isPlaying (store c)) (songProgress (store c))))
  end.

(** The resume position [loadSong] picks: the stored time when
    [savedTime && savedTime > 0 && savedTime < (duration || 300) - 10]. *)
Definition resumeTime (r : Request) : option jsnum :=
  match reqProgress r !! id (reqSong r) with
  | Some savedTime =>
      if truthy savedTime && js_gt savedTime (Num 0)
         && js_lt savedTime (js_sub (js_or (duration (reqSong r)) (Num 300)) 10)
      then Some savedTime else None
  | None => None
  end.

(** [loadSong] from the point where [getSourceUrl] has resolved to [res];
    [playOk] tells whether the promise of [audioEngine.play()] fulfils. *)
Definition loadSong_resume (r : Request) (res : SourceResult) (playOk : bool)
  (c : Ctl) : Ctl :=
  if isMetadataUpdate (lastPlayedSourceRef c) (rawSource res)
     && nonempty (src (player c))
  then
    let c1 := updateMetadata (reqSong r) c in
    match rSrc res with
    | Some s => if isBlob s then revoke s c1 else c1
    | None => c1
    end
  else
    let c1 := with_lastPlayed (rawSource res) (cleanupUrl c) in
    match rSrc res with
    | None => with_store (set_playing false (store c1)) c1
    | Some s =>
        if negb (nonempty s) then with_store (set_playing false (store c1)) c1
        else
          let c2 := if isBlob s then with_activeUrl (Some s) c1 else c1 in
          if decide (playRequestRef c2 <> requestId r) then c2
          else
            let c3 := updateMetadata (reqSong r) (addRecentlyPlayed (reqSong r) c2) in
            let c4 := with_player (set_src s (player c3)) c3 in
            let c5 :=
              match resumeTime r with
              | Some savedTime =>
                  with_store (consumeSongProgress (id (reqSong r)) (store c4))
                    (with_player (set_pCurrentTime savedTime (player c4)) c4)
              | None =>
                  with_player (set_pCurrentTime (Num 0) (player c4)) c4
              end in
            if reqIsPlaying r then
              if playOk then with_player (set_paused false (player c5)) c5
              else with_store (set_playing false (store c5)) c5
            else c5
    end.

(** ** Session restore ([initApp], the start-up effect of the root component) *)

(** The parsed [asteroid_session] record: the fields the restore reads.
    [None] stands for a missing or [null] field. *)
Record Session : Type := mkSession {
  queueIds : option (list string);
  sIndex : option Z;
  sIsShuffled : bool;
  sQueueTitle : option string
}.

(** The [asteroid_session] slot of the local storage, as [initApp] sees
    it: [Absent] when [if (savedSession)] fails, that is for no entry
    ([null]) and for the empty string; [Malformed] for a non-empty entry
    on which the [try] block raises; [Parsed] for a parsed record.
    [readSlot] below classifies what [getItem] returns. *)
Inductive SavedSlot : Type :=
  | Absent
  | Malformed
  | Parsed (s : Session).

(** [new Map(initialSongs.map(s => [s.id, s]))]: a later song replaces an
    earlier one of the same id. *)
Definition queueMap (initialSongs : list Song) : gmap string Song :=
  foldl (fun m s => <[id s := s]> m) ∅ initialSongs.

(** [session.queueIds.map(id => queueMap.get(id)).filter(s => !!s)] *)
Definition restoredQueue (initialSongs : list Song) (saved : list string)
  : list Song :=
  omap (fun i => queueMap initialSongs !! i) saved.

(** [session.queueTitle || "Queue"] *)
Definition titleOr (t : option string) : string :=
  match t with
  | Some s => if nonempty s then s else "Queue"
  | None => "Queue"
  end.

(** The session part of [initApp], run on the store [st]. *)
Definition restoreSession (initialSongs : list Song) (slot : SavedSlot)
  (st : PlayerState) : PlayerState :=
  match initialSongs with
  | [] => st
  | _ :: _ =>
      match slot with
      | Absent => setQueue initialSongs "All Songs" st
      | Malformed => st
      | Parsed session =>
          match queueIds session with
          | None | Some [] => st
          | Some saved =>
              let restored := restoredQueue initialSongs saved in
              match restored with
              | [] => st
              | _ :: _ =>
                  let st1 := setQueue restored (titleOr (sQueueTitle session)) st in
                  let st2 := if sIsShuffled session
                             then set_shuffled true st1 else st1 in
                  let st3 := setOriginalQueue restored st2 in
                  match sIndex session with
                  | Some i =>
                      if decide (i < Z.of_nat (length restored))
                      then setCurrentIndex (Some i) st3 else st3
                  | None => st3
                  end
              end
          end
      end
  end.

(** What "clamping an index into a list of [n] elements" denotes. *)
Definition clamp_index (i : Z) (n : nat) : Z :=
  Z.max 0 (Z.min i (Z.of_nat n - 1)).

(** The state [loadSong] is in when it compares its token: the refs are
    already rewritten, the player and the store are not. *)
Definition atTokenCheck (res : SourceResult) (s : string) (c : Ctl) : Ctl :=
  let c1 := with_lastPlayed (rawSource res) (cleanupUrl c) in
  if isBlob s then with_activeUrl (Some s) c1 else c1.

(** ** Further store operations (store/playerStore.ts) *)

Definition set_repeat (m : RepeatMode) (st : PlayerState) : PlayerState :=
  {| queue := queue st; originalQueue := originalQueue st;
     queueTitle := queueTitle st;
     currentIndex := currentIndex st; isPlaying := isPlaying st;
     currentTime := currentTime st; storeDuration := storeDuration st;
     songProgress := songProgress st;
     permissionErrorSong := permissionErrorSong st;
     isShuffled := isShuffled st; repeatMode := m |}.

(** [setCurrentTime(val)] *)
Definition setCurrentTime (t : jsnum) (st : PlayerState) : PlayerState :=
  {| queue := queue st; originalQueue := originalQueue st;
     queueTitle := queueTitle st;
     currentIndex := currentIndex st; isPlaying := isPlaying st;
     currentTime := t; storeDuration := storeDuration st;
     songProgress := songProgress st;
     permissionErrorSong := permissionErrorSong st;
     isShuffled := isShuffled st; repeatMode := repeatMode st |}.

(** [setDuration(val)] *)
Definition setDuration (d : jsnum) (st : PlayerState) : PlayerState :=
  {| queue := queue st; originalQueue := originalQueue st;
     queueTitle := queueTitle st;
     currentIndex := currentIndex st; isPlaying := isPlaying st;
     currentTime := currentTime st; storeDuration := d;
     songProgress := songProgress st;
     permissionErrorSong := permissionErrorSong st;
     isShuffled := isShuffled st; repeatMode := repeatMode st |}.

(** [setIsPlaying(val)] *)
Definition setIsPlaying (b : bool) (st : PlayerState) : PlayerState :=
  set_playing b st.

#[global] Instance RepeatMode_eq_dec : EqDecision RepeatMode.
Proof. solve_decision. Defined.

(** [arr.indexOf(x)]: the first index holding [x], or [-1]. *)
Definition js_indexOf {A} `{EqDecision A} (x : A) (arr : list A) : Z :=
  js_findIndex (fun y => bool_decide (y = x)) arr.

(** The local array [modes] of [toggleRepeat]. *)
Definition modes : list RepeatMode := [OFF; ALL; ONE].

(** [toggleRepeat()]: [modes[(modes.indexOf(repeatMode) + 1) % modes.length]];
    an [undefined] entry cannot come out of that lookup and is mapped to
    no change. *)
Definition toggleRepeat (st : PlayerState) : PlayerState :=
  let nextIndex :=
    (js_indexOf (repeatMode st) modes + 1) `mod` Z.of_nat (length modes) in
  match js_get modes nextIndex with
  | Some m => set_repeat m st
  | None => st
  end.

(** The library store: a playlist keeps its id, its name and its song
    ids (its other fields are carried along unchanged). *)
Record Playlist : Type := mkPlaylist {
  plId : string;
  plName : string;
  plSongIds : list string
}.

Record LibraryState : Type := mkLibrary {
  library : list Song;
  playlists : list Playlist;
  libRecentlyPlayed : list Song
}.

(** [deleteSongFromLibrary(songId)] *)
Definition deleteSongFromLibrary (songId : string) (ls : LibraryState)
  : LibraryState :=
  {| library := without_id songId (library ls);
     playlists :=
       (fun p => mkPlaylist (plId p) (plName p)
                   (filter (fun i => i ≠ songId) (plSongIds p)))
         <$> playlists ls;
     libRecentlyPlayed := without_id songId (libRecentlyPlayed ls) |}.

(** [updateSongInLibrary(originalId, newSong)] *)
Definition updateSongInLibrary (originalId : string) (newSong : Song)
  (ls : LibraryState) : LibraryState :=
  {| library := updateList originalId newSong (library ls);
     playlists := playlists ls;
     libRecentlyPlayed := libRecentlyPlayed ls |}.

(** ** Transport handlers (hooks/useAudioPlayer, components/MusicPlayer.tsx) *)

(** [seek(time)] of [useAudioPlayer]: the element and the store get the
    same time. *)
Definition hookSeek (time : jsnum) (c : Ctl) : Ctl :=
  if isFinite time then
    with_store (setCurrentTime time (store c))
      (with_player (set_pCurrentTime time (player c)) c)
  else c.

(** [handleNext()] *)
Definition handleNext (c : Ctl) : Ctl :=
  let st := store c in
  match currentIndex st with
  | Some i =>
      if decide (i < Z.of_nat (length (queue st)) - 1)
      then with_store (setCurrentIndex (Some (i + 1)) st) c
      else match repeatMode st with
           | ALL => with_store (setCurrentIndex (Some 0) st) c
           | _ => c
           end
  | None =>
      match repeatMode st with
      | ALL => with_store (setCurrentIndex (Some 0) st) c
      | _ => c
      end
  end.

(** [handlePrev()] *)
Definition handlePrev (c : Ctl) : Ctl :=
  let st := store c in
  if js_gt (currentTime st) (Num 3) then hookSeek (Num 0) c
  else
    let wrap :=
      match repeatMode st with
      | ALL =>
          with_store
            (setCurrentIndex (Some (Z.of_nat (length (queue st)) - 1)) st) c
      | _ => hookSeek (Num 0) c
      end in
    match currentIndex st with
    | Some i =>
        if decide (i > 0)
        then with_store (setCurrentIndex (Some (i - 1)) st) c
        else wrap
    | None => wrap
    end.

(** [togglePlayPause()] of the player bar *)
Definition togglePlayPause (c : Ctl) : Ctl :=
  let st := store c in
  match currentSong st with
  | Some _ => with_store (setIsPlaying (negb (isPlaying st)) st) c
  | None =>
      match queue st with
      | [] => c
      | _ :: _ =>
          with_store (setIsPlaying true (setCurrentIndex (Some 0) st)) c
      end
  end.

(** [handleSongUpdate(originalId, updatedSong)] of the root component:
    [success] is what [updateSongMetadata] resolves to; both stores are
    updated only when the storage accepted the edit. *)
Definition handleSongUpdate (success : bool) (originalId : string)
  (updatedSong : Song) (ls : LibraryState) (st : PlayerState)
  : LibraryState * PlayerState :=
  if success
  then (updateSongInLibrary originalId updatedSong ls,
        updateSongInQueue originalId updatedSong st)
  else (ls, st).

(** ** The time-sync loop (components/AudioController.tsx, effect 5) *)

(** [isNaN(x)] *)
Definition isNaN (x : jsnum) : bool :=
  match x with NaN => true | _ => false end.

(** The first half of [loop]: while the element is not paused, its time
    and, when it is a positive number, its duration go to the store. *)
Definition syncTime (c : Ctl) : Ctl :=
  let p := player c in
  if negb (paused p) then
    let st1 := setCurrentTime (pCurrentTime p) (store c) in
    let st2 := if negb (isNaN (pDuration p)) && js_gt (pDuration p) (Num 0)
               then setDuration (pDuration p) st1 else st1 in
    with_store st2 c
  else c.

(** The branch [if (player.ended)] of [loop]; [playOk] tells whether the
    [play()] of the repeat-one case starts playback. *)
Definition atEnd (playOk : bool) (c : Ctl) : Ctl :=
  let st := store c in
  match repeatMode st with
  | ONE =>
      let p1 := set_pCurrentTime (Num 0) (player c) in
      with_player (if playOk then set_paused false p1 else p1) c
  | mode =>
      let stop :=
        match mode with
        | ALL => with_store (setCurrentIndex (Some 0) st) c
        | _ => with_store (setIsPlaying false st) c
        end in
      match currentIndex st with
      | Some i =>
          if decide (i < Z.of_nat (length (queue st)) - 1)
          then with_store (setCurrentIndex (Some (i + 1)) st) c
          else stop
      | None => stop
      end
  end.

(** One run of [loop]: [ended] is the element's [ended] flag. *)
Definition loopTick (ended playOk : bool) (c : Ctl) : Ctl :=
  let c1 := syncTime c in
  if ended then atEnd playOk c1 else c1.

(** ** The play/pause effect (components/AudioController.tsx, effect 2) *)

(** How the promise of [audioEngine.play()] settles: playback starts, or
    the promise is rejected with a [NotAllowedError], or with another
    error. *)
Inductive PlayResult : Type := playStarts | playNotAllowed | playFails.

(** The body of the effect.  [initAudioContext] and [setAnalyser] build
    and publish the audio graph and write neither the element nor the
    fields of the store kept here. *)
Definition playPauseEffect (pr : PlayResult) (c : Ctl) : Ctl :=
  if isPlaying (store c) then
    match pr with
    | playStarts => with_player (set_paused false (player c)) c
    | playNotAllowed => with_store (setIsPlaying false (store c)) c
    | playFails => c
    end
  else with_player (pause (player c)) c.

(** The effect depends on [isPlaying]: React runs it after a render in
    which [isPlaying] differs from [was], its value at the render before.
    When the run itself clears [isPlaying] (the [NotAllowedError] branch)
    the effect runs once more, and pauses. *)
Definition onIsPlayingChange (was : bool) (pr : PlayResult) (c : Ctl) : Ctl :=
  if Bool.eqb was (isPlaying (store c)) then c
  else
    let c1 := playPauseEffect pr c in
    if Bool.eqb (isPlaying (store c)) (isPlaying (store c1)) then c1
    else playPauseEffect pr c1.

(** The arrival of one resolved source: the rest of [loadSong], then the
    effects React runs for what it wrote to the store.  ([loadSong]
    itself is not started again: it writes neither the queue nor the
    index, so [currentSong?.id] stays.) *)
Definition deliver (r : Request) (res : SourceResult) (playOk : bool)
  (pr : PlayResult) (c : Ctl) : Ctl :=
  onIsPlayingChange (isPlaying (store c)) pr (loadSong_resume r res playOk c).

(** ** The writes of [updateMetadata] (components/AudioController.tsx) *)

(** What the lookups of one call [updateMetadata(song)] come back with.
    [merged] is the object [{ ...fullData, ...song }], present when
    [song.description] is [undefined] and [getSongById] finds the track;
    [song] has an [id], so [merged.id] is [song.id].  [lyricsFound] tells
    whether [song] has no lyrics and [loadLyricsFromStorage] finds some. *)
Record Hydration : Type := mkHydration {
  merged : option Song;
  lyricsFound : bool
}.

(** The two writes, in the order of the source.  The second one stores
    [{ ...song, lyrics }], built from the [song] the call was handed and
    not from [merged]; on the fields of [Song] kept here that object is
    [song]. *)
Definition updateMetadata_settle (song : Song) (h : Hydration)
  (ls : LibraryState) (c : Ctl) : LibraryState * Ctl :=
  let '(ls1, c1) :=
    match merged h with
    | Some m =>
        (updateSongInLibrary (id song) m ls,
         with_store (updateSongInQueue (id song) m (store c)) c)
    | None => (ls, c)
    end in
  if lyricsFound h
  then (ls1, with_store (updateSongInQueue (id song) song (store c1)) c1)
  else (ls1, c1).

(** ** The session saver (root component) *)

(** What the saver writes once its timer fires, reduced to the fields
    the restore reads ([currentTime] and [repeatMode] are written too and
    never read back); nothing is written during the initial load or for
    an empty queue. *)
Definition saveSession (isInitialLoad : bool) (st : PlayerState)
  : option Session :=
  match isInitialLoad, queue st with
  | false, _ :: _ =>
      Some (mkSession (Some (id <$> queue st)) (currentIndex st)
              (isShuffled st) (Some (queueTitle st)))
  | _, _ => None
  end.

(** What [initApp] makes of [localStorage.getItem('asteroid_session')]:
    [null] and the empty string are falsy, so both take the [else]
    branch; [parse] is [JSON.parse] followed by the reads of the four
    fields, [None] when the [try] block raises (the entry is no JSON, or
    it is the JSON [null], whose field cannot be read). *)
Definition readSlot (parse : string -> option Session) (entry : option string)
  : SavedSlot :=
  match entry with
  | None => Absent
  | Some text =>
      if nonempty text then
        match parse text with
        | Some session => Parsed session
        | None => Malformed
        end
      else Absent
  end.

(** The session part of [initApp], from the raw entry. *)
Definition restoreEntry (parse : string -> option Session)
  (initialSongs : list Song) (entry : option string) (st : PlayerState)
  : PlayerState :=
  restoreSession initialSongs (readSlot parse entry) st.

(** ** The audio graph (services/audioBase.ts) *)

Inductive CtxState : Type := running | suspended.

(** The nodes of the graph; the filters are told apart by their position
    in [eqFilters]. *)
Inductive AudioNode : Type :=
  | NSource
  | NFilter (i : nat)
  | NAnalyser
  | NDestination.

#[global] Instance AudioNode_eq_dec : EqDecision AudioNode.
Proof. solve_decision. Defined.

Record BiquadFilter : Type := mkFilter {
  fType : string;
  frequency : Z;
  fQ : Q;
  gain : jsnum
}.

(** The module-level variables [audioContext], [analyser] (by its
    [fftSize]), [sourceNode], [eqFilters], and the connections between
    the nodes. *)
Record Graph : Type := mkGraph {
  audioContext : option CtxState;
  analyser : option Z;
  sourceNode : bool;
  eqFilters : list BiquadFilter;
  connections : list (AudioNode * AudioNode)
}.

Definition noGraph : Graph := mkGraph None None false [] [].

Definition EQ_FREQUENCIES : list Z :=
  [32; 63; 125; 250; 500; 1000; 2000; 4000; 8000; 16000].

(** The filter [init] creates for one frequency. *)
Definition newFilter (freq : Z) : BiquadFilter :=
  mkFilter "peaking" freq (14 # 10) (Num 0).

(** [node.disconnect()] on the source, the analyser and every filter:
    their outgoing connections go. *)
Definition disconnected (filters : list BiquadFilter) (e : AudioNode * AudioNode)
  : bool :=
  match fst e with
  | NSource | NAnalyser => true
  | NFilter i => bool_decide (i < length filters)%nat
  | NDestination => false
  end.

(** The loop [for (const filter of eqFilters)] that connects the chain,
    started at node [cur] with the filter of position [i]: the
    connections made and the node the chain ends in. *)
Fixpoint connectFilters (cur : AudioNode) (i : nat) (filters : list BiquadFilter)
  : list (AudioNode * AudioNode) * AudioNode :=
  match filters with
  | [] => ([], cur)
  | _ :: rest =>
      let '(es, last) := connectFilters (NFilter i) (S i) rest in
      ((cur, NFilter i) :: es, last)
  end.

(** [AudioEngine.init()]: [platform] is the state of a context the
    platform would create, [None] when it has no Web Audio API.  [None]
    is the early return without a value; [resume()] on a suspended
    context only asks the platform and changes nothing here. *)
Definition init (platform : option CtxState) (g : Graph) : option Graph :=
  let ctx :=
    match audioContext g with
    | Some s => Some s
    | None => platform
    end in
  match ctx with
  | None => None
  | Some s =>
      let an := match analyser g with Some n => n | None => 256 end in
      let filters :=
        match eqFilters g with
        | [] => newFilter <$> EQ_FREQUENCIES
        | fs => fs
        end in
      let kept := filter (fun e => negb (disconnected filters e)) (connections g) in
      let '(es, last) := connectFilters NSource 0 filters in
      Some (mkGraph (Some s) (Some an) true filters
              (kept ++ es ++ [(last, NAnalyser); (NAnalyser, NDestination)]))
  end.

(** [setFilterGain(index, value)] *)
Definition setFilterGain (platform : option CtxState) (index : Z)
  (value : jsnum) (g : Graph) : Graph :=
  let g1 :=
    match eqFilters g with
    | [] => match init platform g with Some g' => g' | None => g end
    | _ :: _ => g
    end in
  match js_get (eqFilters g1) index with
  | Some f =>
      mkGraph (audioContext g1) (analyser g1) (sourceNode g1)
        (<[Z.to_nat index := mkFilter (fType f) (frequency f) (fQ f) value]>
           (eqFilters g1))
        (connections g1)
  | None => g1
  end.

(** The gains of the chain, band by band. *)
Definition gains (g : Graph) : list jsnum := gain <$> eqFilters g.

(** [Math.max(a, b)] *)
Definition js_max (a b : jsnum) : jsnum :=
  match a, b with
  | NaN, _ | _, NaN => NaN
  | _, _ => if js_lt a b then b else a
  end.

(** What assigning to [HTMLMediaElement.volume] does: a number that is
    not finite is refused with a [TypeError], a finite one outside
    [[0, 1]] with an [IndexSizeError], and any other is stored. *)
Inductive VolumeSet : Type :=
  | VolumeIs (x : Q)
  | RaisesTypeError
  | RaisesIndexSizeError.

Definition assignVolume (v : jsnum) : VolumeSet :=
  match v with
  | Num x =>
      if Qle_bool 0 x && Qle_bool x 1 then VolumeIs x
      else RaisesIndexSizeError
  | _ => RaisesTypeError
  end.

(** [AudioEngine.setVolume(val)].  [Math.pow] is implementation-
    approximated and rounds to a double, so its result is not computed
    here: [pow3] is the platform's [x => Math.pow(x, 3)].  [Math.min] and
    [Math.max] return one of their arguments and do not round. *)
Definition setVolume (pow3 : jsnum -> jsnum) (val : jsnum) : VolumeSet :=
  let logVol := js_max (Num 0) (js_min (Num 1) (pow3 val)) in
  assignVolume logVol.

(** ** The equalizer slice of the store (store/playerStore.ts) *)

(** [eqBands] together with the graph its setters drive. *)
Record EqStore : Type := mkEqStore {
  eqBands : list jsnum;
  engine : Graph
}.

Definition EQ_PRESETS : list (string * list Z) :=
  [("Flat", [0; 0; 0; 0; 0; 0; 0; 0; 0; 0]);
   ("Bass Boost", [5; 4; 3; 2; 0; 0; 0; 0; 0; 0]);
   ("Classical", [0; 0; 0; 0; 0; 0; -2; -3; -3; -4]);
   ("Dance", [4; 6; 2; 0; 0; 0; 2; 3; 4; 5]);
   ("Pop", [-2; -1; 0; 2; 3; 3; 1; -1; -1; -1]);
   ("Rock", [4; 3; 1; 0; -1; -1; 1; 3; 4; 5]);
   ("Vocal", [-2; -3; -2; 1; 4; 5; 4; 2; 0; -1])]%string.

(** The property names every object literal inherits from
    [Object.prototype]. *)
Definition inheritedKeys : list string :=
  ["constructor"; "__defineGetter__"; "__defineSetter__"; "hasOwnProperty";
   "__lookupGetter__"; "__lookupSetter__"; "isPrototypeOf";
   "propertyIsEnumerable"; "toString"; "valueOf"; "__proto__";
   "toLocaleString"]%string.

(** An own entry of [EQ_PRESETS]. *)
Fixpoint ownPreset (name : string) (table : list (string * list Z))
  : option (list Z) :=
  match table with
  | [] => None
  | (k, v) :: rest => if String.eqb k name then Some v else ownPreset name rest
  end.

(** [EQ_PRESETS[presetName] || EQ_PRESETS['Flat']]: [None] stands for an
    inherited member, a truthy value that is no array. *)
Definition presetValues (name : string) : option (list Z) :=
  match ownPreset name EQ_PRESETS with
  | Some v => Some v
  | None =>
      if bool_decide (name ∈ inheritedKeys) then None
      else ownPreset "Flat" EQ_PRESETS
  end.

Definition ofInt (k : Z) : jsnum := Num (inject_Z k).

(** [values.forEach((val, idx) => setFilterGain(idx, val))], from
    position [idx] on. *)
Fixpoint applyGains (platform : option CtxState) (idx : Z)
  (values : list jsnum) (g : Graph) : Graph :=
  match values with
  | [] => g
  | v :: rest =>
      applyGains platform (idx + 1) rest (setFilterGain platform idx v g)
  end.

(** [setEqBands(bands)] *)
Definition setEqBands (platform : option CtxState) (bands : list jsnum)
  (s : EqStore) : EqStore :=
  mkEqStore bands (applyGains platform 0 bands (engine s)).

(** [setEqPreset(presetName)]: [None] when [values.forEach] is no
    function and the call raises. *)
Definition setEqPreset (platform : option CtxState) (name : string)
  (s : EqStore) : option EqStore :=
  match presetValues name with
  | Some values => Some (setEqBands platform (ofInt <$> values) s)
  | None => None
  end.

(** [setEqBand(index, value)]: [newBands[index] = value] replaces an
    element or appends one; [None] when the index lies beyond the end or
    is negative, where the array gets a hole or a plain property and is
    no [number[]] any more. *)
Definition setEqBand (platform : option CtxState) (index : Z) (value : jsnum)
  (s : EqStore) : option EqStore :=
  let len := Z.of_nat (length (eqBands s)) in
  if decide (0 <= index < len) then
    Some (mkEqStore (<[Z.to_nat index := value]> (eqBands s))
            (setFilterGain platform index value (engine s)))
  else if decide (index = len) then
    Some (mkEqStore (eqBands s ++ [value])
            (setFilterGain platform index value (engine s)))
  else None.

(** The pairs of neighbours of a list: the connections of a chain that
    visits the nodes in this order. *)
Fixpoint consecutive {A} (l : list A) : list (A * A) :=
  match l with
  | x :: ((y :: _) as rest) => (x, y) :: consecutive rest
  | _ => []
  end.

(** The chain over [n] filters: source, the filters in order, analyser,
    destination. *)
Definition chainNodes (n : nat) : list AudioNode :=
  NSource :: (NFilter <$> seq 0 n) ++ [NAnalyser; NDestination].

(** The store's bands and the chain's gains agree, over ten bands. *)
Definition eq_synced (s : EqStore) : Prop :=
  gains (engine s) = eqBands s /\ length (eqFilters (engine s)) = 10%nat.

(** ** Sample data for the examples *)

(** A track with nothing but an identifier, a title and a duration of
    three minutes. *)
Definition song (i : string) : Song :=
  mkSong i i (Num 180) None None None.

(** A track whose duration is not known yet (0, as the native import
    records it), played from a path. *)
Definition untimed : Song :=
  mkSong "A" "A" (Num 0) (Some "/music/a.mp3"%string) None None.

Definition idlePlayer : Player := mkPlayer "" (Num 0) NaN true.

(** A controller that has just recorded token 5 for [untimed], with a
    stored position of 100 seconds for it. *)
Definition ctlSample : Ctl :=
  mkCtl idlePlayer 5 None None
        (set_index (Some 0)
           (setQueue [untimed] "Q" (saveLastPosition "A" (Num 100) initialState)))
        [] [] None.

Definition reqSample : Request :=
  mkRequest 5 untimed true {[ "A"%string := Num 100 ]}.

Definition resSample : SourceResult :=
  mkSource (Some "file:///music/a.mp3"%string) (Some (RawPath "/music/a.mp3")).

(** Three loads in a row on the queue [A,B,C]: the stores that select
    each track, the requests the effect records and the sources the
    platform resolves for them. *)
Definition storeAt (i : Z) : PlayerState :=
  set_index (Some i)
    (setQueue [song "A"; song "B"; song "C"] "Q" initialState).

Definition ctlIdle : Ctl := mkCtl idlePlayer 0 None None initialState [] [] None.

Definition req1 : Request := mkRequest 1 (song "A") false ∅.
Definition req2 : Request := mkRequest 2 (song "B") false ∅.
Definition req3 : Request := mkRequest 3 (song "C") false ∅.

Definition res1 : SourceResult :=
  mkSource (Some "blob:a"%string) (Some (RawFile (mkFile 1 "a.mp3" 10))).
Definition res2 : SourceResult :=
  mkSource (Some "blob:b"%string) (Some (RawFile (mkFile 2 "b.mp3" 20))).
Definition res3 : SourceResult :=
  mkSource (Some "blob:c"%string) (Some (RawFile (mkFile 3 "c.mp3" 30))).

(** The browser, with no [electronAPI]. *)
Definition webEnv : Env := mkEnv false false.

(** A handle whose grant has lapsed: the query answers ['prompt'], the
    request made outside a user gesture is answered ['denied']. *)
Definition lapsedHandle : FileHandle :=
  mkHandle (Some (Resolves prompt)) (Some (Resolves denied)) Rejects.

Definition lockedSong : Song :=
  mkSong "L" "Locked" (Num 200) None None (Some lapsedHandle).

(** The controller, playing, with [lockedSong] as the current track and
    its load just started with token 9. *)
Definition lockedStore : PlayerState :=
  set_playing true (set_index (Some 0) (setQueue [lockedSong] "Q" initialState)).

Definition ctlLocked : Ctl := mkCtl idlePlayer 9 None None lockedStore [] [] None.

Definition reqLocked : Request := mkRequest 9 lockedSong true ∅.

(** The same load after an earlier track was played from a blob and a
    first locked track has already failed: the player still holds the
    earlier source and the last played source is [null]. *)
Definition ctlLockedAgain : Ctl :=
  mkCtl (mkPlayer "blob:x" (Num 12) (Num 200) true) 9 None None lockedStore
        [] [] None.

(** A queue played in the browser: a locked track followed by two tracks
    that carry their [File]; playback is on and the first track is
    selected.  The user then selects the second and the third track
    before any source has resolved. *)
Definition fileB : File := mkFile 2 "b.mp3" 20.
Definition fileC : File := mkFile 3 "c.mp3" 30.

Definition songB : Song := mkSong "B" "B" (Num 180) None (Some fileB) None.
Definition songC : Song := mkSong "C" "C" (Num 180) None (Some fileC) None.

Definition raceStart : Ctl :=
  mkCtl idlePlayer 0 None None
        (set_playing true
           (set_index (Some 0) (setQueue [lockedSong; songB; songC] "Q" initialState)))
        [] [] None.

(** The user selecting the track at [i]. *)
Definition select (i : Z) (c : Ctl) : Ctl :=
  with_store (setCurrentIndex (Some i) (store c)) c.

(** A start-up where track B is gone from the loaded songs while the
    saved session lists A, B and C. *)
Definition loadedSample : list Song := [song "A"; song "C"].

Definition sessionAt (i : Z) : Session :=
  mkSession (Some ["A"; "B"; "C"]%string) (Some i) false (Some "Mix"%string).

(** A shuffled store whose canonical ordering was emptied by
    [setOriginalQueue]: its index addresses the active ordering. *)
Definition strayStore : PlayerState :=
  setOriginalQueue []
    (set_shuffled true (set_index (Some 0) (setQueue [song "A"] "Q" initialState))).

Definition evenDraws : nat -> draw := fun _ => mkDraw 1 1.

(** The graph after a first [init] on a platform whose new context
    runs, and the equalizer store as it starts, all bands flat. *)
Definition wiredGraph : Graph :=
  match init (Some running) noGraph with Some g => g | None => noGraph end.

Definition flatStore : EqStore :=
  mkEqStore [Num 0; Num 0; Num 0; Num 0; Num 0; Num 0; Num 0; Num 0; Num 0; Num 0]
            wiredGraph.

(** A controller on the last of three tracks, with repeat ALL. *)
Definition ctlAtLast : Ctl :=
  mkCtl idlePlayer 0 None None (set_repeat ALL (storeAt 2)) [] [] None.

(** * Properties *)

(** ** Shuffle toggle *)

(** C10: with no current index, or with an empty queue, [toggleShuffle]
    returns the empty update: the whole store state stays as it is,
    whatever the random draws. *)
Theorem toggleShuffle_inert (rnd : nat -> draw) (st : PlayerState) :
  currentIndex st = None \/ queue st = [] ->
  toggleShuffle rnd st = Updated st.
Proof.
  intros [H | H]; unfold toggleShuffle; rewrite H.
  - reflexivity.
  - destruct (currentIndex st); reflexivity.
Qed.

Lemma toggleShuffle_inert_witness :
  toggleShuffle (fun _ => mkDraw 1 1) initialState = Updated initialState.
Proof.
  apply (toggleShuffle_inert (fun _ => mkDraw 1 1) initialState).
  left. reflexivity.
Defined.

(** C9: on the queue [A,B,C] at index 0, one toggle gives an active
    ordering that starts with [A] at index 0, and a second toggle gives
    back [A,B,C] at index 0, for all random draws of both toggles. *)
Theorem toggleShuffle_twice (rnd rnd' : nat -> draw) (a b c : Song)
    (st : PlayerState) :
  queue st = [a; b; c] ->
  originalQueue st = [a; b; c] ->
  isShuffled st = false ->
  currentIndex st = Some 0 ->
  exists st1 st2,
    toggleShuffle rnd st = Updated st1 /\
    js_get (queue st1) 0 = Some a /\ currentIndex st1 = Some 0 /\
    toggleShuffle rnd' st1 = Updated st2 /\
    queue st2 = [a; b; c] /\ currentIndex st2 = Some 0.
Proof.
  intros Hq Ho Hs Hi.
  set (st1 := set_index (Some 0)
                (set_queues (a :: shuffle rnd (without_id (id a) [a; b; c]))
                   [a; b; c] (set_shuffled true st))).
  assert (Hfirst : toggleShuffle rnd st = Updated st1).
  { unfold toggleShuffle, songAt. rewrite Hi, Hq, Hs, Ho. reflexivity. }
  assert (Hcur : findIndex_of (songAt st1 0) (originalQueue st1) = Some 0).
  { change (songAt st1 0) with (Some a).
    change (originalQueue st1) with [a; b; c].
    unfold findIndex_of, js_findIndex, same_id.
    rewrite bool_decide_eq_true_2 by reflexivity. reflexivity. }
  exists st1, (set_index (Some 0)
                 (set_queues [a; b; c] [a; b; c] (set_shuffled false st1))).
  split; [exact Hfirst |]. split; [reflexivity |]. split; [reflexivity |].
  split; [| split; reflexivity].
  unfold toggleShuffle.
  change (currentIndex st1) with (Some 0).
  change (queue st1) with (a :: shuffle rnd (without_id (id a) [a; b; c])).
  change (isShuffled st1) with true. cbv iota beta.
  rewrite Hcur. reflexivity.
Qed.

Lemma toggleShuffle_twice_witness :
  exists st1 st2,
    toggleShuffle (fun _ => mkDraw 1 1)
      (set_index (Some 0) (setQueue [song "A"; song "B"; song "C"] "Q" initialState))
      = Updated st1 /\
    js_get (queue st1) 0 = Some (song "A") /\ currentIndex st1 = Some 0 /\
    toggleShuffle (fun _ => mkDraw 0 0) st1 = Updated st2 /\
    queue st2 = [song "A"; song "B"; song "C"] /\ currentIndex st2 = Some 0.
Proof.
  apply (toggleShuffle_twice _ _ (song "A") (song "B") (song "C"));
    reflexivity.
Defined.

(** ** Setting the index *)

(** C7, as the code has it: [setCurrentIndex] stores the index it is given,
    in range or not, and changes nothing else. *)
Theorem setCurrentIndex_stores (i : option Z) (st : PlayerState) :
  currentIndex (setCurrentIndex i st) = i /\
  queue (setCurrentIndex i st) = queue st /\
  originalQueue (setCurrentIndex i st) = originalQueue st /\
  isShuffled (setCurrentIndex i st) = isShuffled st /\
  isPlaying (setCurrentIndex i st) = isPlaying st /\
  queueTitle (setCurrentIndex i st) = queueTitle st /\
  currentTime (setCurrentIndex i st) = currentTime st /\
  storeDuration (setCurrentIndex i st) = storeDuration st /\
  songProgress (setCurrentIndex i st) = songProgress st /\
  permissionErrorSong (setCurrentIndex i st) = permissionErrorSong st /\
  repeatMode (setCurrentIndex i st) = repeatMode st.
Proof. repeat split. Qed.

(** C7, counterexample: index 7 on the empty queue is out of range and is
    stored, not turned into [null]. *)
Lemma setCurrentIndex_out_of_range :
  ~ (0 <= 7 < Z.of_nat (length (queue initialState))) /\
  currentIndex (setCurrentIndex (Some 7) initialState) = Some 7 /\
  currentIndex (setCurrentIndex (Some 7) initialState) <> None.
Proof. split; [simpl; lia | split; [reflexivity | discriminate]]. Qed.

(** ** Numbers *)

Lemma Qltb_lt (a b : Q) : Qltb a b = true <-> (a < b)%Q.
Proof.
  unfold Qltb. rewrite negb_true_iff.
  split.
  - intros H. apply Qnot_le_lt. intros Hle.
    apply Qle_bool_iff in Hle. congruence.
  - intros H. destruct (Qle_bool b a) eqn:E; [| reflexivity].
    apply Qle_bool_iff in E. exfalso. exact (Qlt_not_le _ _ H E).
Qed.

Lemma Qltb_ge (a b : Q) : Qltb a b = false <-> (b <= a)%Q.
Proof.
  unfold Qltb. rewrite negb_false_iff. apply Qle_bool_iff.
Qed.

Lemma truthy_Num (q : Q) : truthy (Num q) = true <-> ~ (q == 0)%Q.
Proof.
  simpl. rewrite negb_true_iff. split.
  - intros H E. apply Qeq_bool_iff in E. congruence.
  - intros H. destruct (Qeq_bool q 0) eqn:E; [| reflexivity].
    apply Qeq_bool_iff in E. contradiction.
Qed.

Lemma falsy_Num (q : Q) : truthy (Num q) = false <-> (q == 0)%Q.
Proof.
  simpl. rewrite negb_false_iff. apply Qeq_bool_iff.
Qed.

(** ** Seeking *)

(** C6, as the code has it: a time that is not finite is ignored; with a
    known, non-zero duration [d] the position applied is the smaller of
    the time and [d], with no lower bound at 0; with a duration that is
    [NaN] or 0 the time is applied as given.  Nothing but the position
    changes. *)
Theorem seek_applies (time : jsnum) (p : Player) :
  (isFinite time = false -> seek time p = p) /\
  (forall t d, time = Num t -> pDuration p = Num d -> ~ (d == 0)%Q ->
     exists x, pCurrentTime (seek time p) = Num x /\
               (x <= t)%Q /\ (x <= d)%Q /\ (x = t \/ x = d)) /\
  (forall t, time = Num t -> truthy (pDuration p) = false ->
     pCurrentTime (seek time p) = Num t) /\
  src (seek time p) = src p /\
  pDuration (seek time p) = pDuration p /\
  paused (seek time p) = paused p.
Proof.
  split; [| split; [| split]].
  - intros H. unfold seek. rewrite H. reflexivity.
  - intros t d -> Hd Hnz. unfold seek. simpl isFinite. cbv iota.
    rewrite Hd. unfold js_or.
    rewrite (proj2 (truthy_Num d) Hnz). simpl.
    destruct (Qltb d t) eqn:E.
    + apply Qltb_lt in E. exists d. repeat split; auto.
      * apply Qlt_le_weak; exact E.
      * apply Qle_refl.
    + apply Qltb_ge in E. exists t. repeat split; auto. apply Qle_refl.
  - intros t -> Hf. unfold seek, js_or. simpl isFinite. cbv iota.
    rewrite Hf. simpl.
    assert (Qltb t t = false) as -> by (apply Qltb_ge, Qle_refl).
    reflexivity.
  - unfold seek. destruct (isFinite time); repeat split.
Qed.

Example seek_inside :
  pCurrentTime (seek (Num 30) (mkPlayer "a.mp3" (Num 5) (Num 100) false))
  = Num 30.
Proof. reflexivity. Qed.

Example seek_beyond :
  pCurrentTime (seek (Num 130) (mkPlayer "a.mp3" (Num 5) (Num 100) false))
  = Num 100.
Proof. reflexivity. Qed.

(** C6, counterexample: a negative time is applied as it is, below 0, and
    with an unknown duration a seek does move the position. *)
Lemma seek_not_clamped :
  pCurrentTime (seek (Num (-5)) (mkPlayer "a.mp3" (Num 20) (Num 100) false))
    = Num (-5) /\
  ~ (0 <= -5)%Q /\
  seek (Num 50) (mkPlayer "a.mp3" (Num 20) NaN false)
    = mkPlayer "a.mp3" (Num 50) NaN false /\
  seek (Num 50) (mkPlayer "a.mp3" (Num 20) NaN false)
    <> mkPlayer "a.mp3" (Num 20) NaN false.
Proof.
  split; [reflexivity |].
  split; [intros H; apply Qle_bool_iff in H; discriminate H |].
  split; [reflexivity | discriminate].
Qed.

(** ** The load effect *)

Lemma cleanupUrl_frame (c : Ctl) :
  player (cleanupUrl c) = player c /\
  playRequestRef (cleanupUrl c) = playRequestRef c /\
  store (cleanupUrl c) = store c.
Proof.
  unfold cleanupUrl.
  destruct (activeObjectUrlRef c) as [u |]; [destruct (nonempty u) |];
    repeat split.
Qed.

Lemma atTokenCheck_frame (res : SourceResult) (s : string) (c : Ctl) :
  player (atTokenCheck res s c) = player c /\
  playRequestRef (atTokenCheck res s c) = playRequestRef c /\
  store (atTokenCheck res s c) = store c.
Proof.
  destruct (cleanupUrl_frame c) as (Hp & Ht & Hs).
  unfold atTokenCheck. destruct (isBlob s); simpl; auto.
Qed.

Lemma loadSong_resume_full (r : Request) (res : SourceResult) (playOk : bool)
    (c : Ctl) (s : string) :
  isMetadataUpdate (lastPlayedSourceRef c) (rawSource res)
    && nonempty (src (player c)) = false ->
  rSrc res = Some s -> nonempty s = true ->
  loadSong_resume r res playOk c =
    let c2 := atTokenCheck res s c in
    if decide (playRequestRef c2 <> requestId r) then c2
    else
      let c3 := updateMetadata (reqSong r) (addRecentlyPlayed (reqSong r) c2) in
      let c4 := with_player (set_src s (player c3)) c3 in
      let c5 :=
        match resumeTime r with
        | Some savedTime =>
            with_store (consumeSongProgress (id (reqSong r)) (store c4))
              (with_player (set_pCurrentTime savedTime (player c4)) c4)
        | None => with_player (set_pCurrentTime (Num 0) (player c4)) c4
        end in
      if reqIsPlaying r then
        if playOk then with_player (set_paused false (player c5)) c5
        else with_store (set_playing false (store c5)) c5
      else c5.
Proof.
  intros H1 H2 H3. unfold loadSong_resume. rewrite H1, H2, H3.
  reflexivity.
Qed.

Lemma resumeTime_stored (r : Request) (t : jsnum) :
  resumeTime r = Some t -> reqProgress r !! id (reqSong r) = Some t.
Proof.
  unfold resumeTime.
  destruct (reqProgress r !! id (reqSong r)) as [v |]; [| discriminate].
  destruct (_ && _); [| discriminate]. congruence.
Qed.

Lemma js_gt_zero (t : Q) : js_gt (Num t) (Num 0) = true <-> (0 < t)%Q.
Proof. unfold js_gt. simpl. apply Qltb_lt. Qed.

(** The window of [resumeTime] on finite numbers: the track's duration
    counts as 300 seconds when it is 0. *)
Lemma resumeTime_window (r : Request) (t d : Q) :
  reqProgress r !! id (reqSong r) = Some (Num t) ->
  duration (reqSong r) = Num d ->
  resumeTime r = Some (Num t) <->
  (0 < t)%Q /\ ((~ (d == 0)%Q /\ (t < d - 10)%Q) \/ ((d == 0)%Q /\ (t < 290)%Q)).
Proof.
  intros Hs Hd. unfold resumeTime. rewrite Hs, Hd. unfold js_or.
  destruct (truthy (Num d)) eqn:Ed.
  - apply truthy_Num in Ed.
    change (js_lt (Num t) (js_sub (Num d) 10)) with (Qltb t (d - 10)).
    split.
    + intros H.
      destruct (truthy (Num t) && js_gt (Num t) (Num 0) && Qltb t (d - 10)) eqn:E;
        [| discriminate].
      apply andb_prop in E as [E E3]. apply andb_prop in E as [E1 E2].
      apply js_gt_zero in E2. apply Qltb_lt in E3. tauto.
    + intros [Hpos [[_ Hlt] | [Hz _]]]; [| contradiction].
      assert (truthy (Num t) = true) as ->.
      { apply truthy_Num. intros E. rewrite E in Hpos.
        exact (Qlt_irrefl _ Hpos). }
      rewrite (proj2 (js_gt_zero t) Hpos), (proj2 (Qltb_lt _ _) Hlt).
      reflexivity.
  - apply falsy_Num in Ed.
    change (js_lt (Num t) (js_sub (Num 300) 10)) with (Qltb t (300 - 10)).
    split.
    + intros H.
      destruct (truthy (Num t) && js_gt (Num t) (Num 0) && Qltb t (300 - 10)) eqn:E;
        [| discriminate].
      apply andb_prop in E as [E E3]. apply andb_prop in E as [E1 E2].
      apply js_gt_zero in E2. apply Qltb_lt in E3.
      split; [exact E2 |]. right. split; [exact Ed |]. lra.
    + intros [Hpos [[Hnz _] | [_ Hlt]]]; [contradiction |].
      assert (truthy (Num t) = true) as ->.
      { apply truthy_Num. intros E. rewrite E in Hpos.
        exact (Qlt_irrefl _ Hpos). }
      rewrite (proj2 (js_gt_zero t) Hpos).
      assert (Qltb t (300 - 10) = true) as -> by (apply Qltb_lt; lra).
      reflexivity.
Qed.

(** C8, as the code has it: after a successful, current, full load the
    player holds the resolved source; the stored time of the track is the
    start position, and its entry is deleted, exactly when
    [0 < stored < D - 10], where [D] is the track's duration, or 300 when
    that duration is 0; otherwise the start position is 0 and the entry
    stays.  A later load of the same track then starts at 0. *)
Theorem resume_position (r : Request) (res : SourceResult) (playOk : bool)
    (c : Ctl) (s : string) :
  isMetadataUpdate (lastPlayedSourceRef c) (rawSource res)
    && nonempty (src (player c)) = false ->
  rSrc res = Some s -> nonempty s = true ->
  playRequestRef c = requestId r ->
  let c' := loadSong_resume r res playOk c in
  src (player c') = s /\
  (forall t, resumeTime r = Some t ->
     reqProgress r !! id (reqSong r) = Some t /\
     pCurrentTime (player c') = t /\
     songProgress (store c') = delete (id (reqSong r)) (songProgress (store c))) /\
  (resumeTime r = None ->
     pCurrentTime (player c') = Num 0 /\
     songProgress (store c') = songProgress (store c)) /\
  (forall t d,
     reqProgress r !! id (reqSong r) = Some (Num t) ->
     duration (reqSong r) = Num d ->
     resumeTime r = Some (Num t) <->
     (0 < t)%Q /\
     ((~ (d == 0)%Q /\ (t < d - 10)%Q) \/ ((d == 0)%Q /\ (t < 290)%Q))) /\
  (reqProgress r !! id (reqSong r) = None -> resumeTime r = None) /\
  (forall r', reqSong r' = reqSong r ->
     reqProgress r = songProgress (store c) ->
     reqProgress r' = songProgress (store c') ->
     resumeTime r' = None).
Proof.
  intros H1 H2 H3 Htok c'.
  assert (Hc' : c' = loadSong_resume r res playOk c) by reflexivity.
  rewrite (loadSong_resume_full r res playOk c s H1 H2 H3) in Hc'.
  destruct (atTokenCheck_frame res s c) as (Hp & Ht & Hs).
  cbv zeta in Hc'.
  destruct (decide (playRequestRef (atTokenCheck res s c) <> requestId r))
    as [Hne | _]; [rewrite Ht in Hne; contradiction |].
  assert (Hsrc : src (player c') = s).
  { rewrite Hc'. destruct (resumeTime r), (reqIsPlaying r), playOk; reflexivity. }
  assert (Hsome : forall t, resumeTime r = Some t ->
            pCurrentTime (player c') = t /\
            songProgress (store c')
              = delete (id (reqSong r)) (songProgress (store c))).
  { intros t E. rewrite Hc', E, <- Hs.
    destruct (reqIsPlaying r), playOk; split; reflexivity. }
  assert (Hnone : resumeTime r = None ->
            pCurrentTime (player c') = Num 0 /\
            songProgress (store c') = songProgress (store c)).
  { intros E. rewrite Hc', E, <- Hs.
    destruct (reqIsPlaying r), playOk; split; reflexivity. }
  split; [exact Hsrc |].
  split; [intros t E; split; [exact (resumeTime_stored r t E) | exact (Hsome t E)] |].
  split; [exact Hnone |].
  split; [intros t d; apply resumeTime_window |].
  split.
  - intros E. unfold resumeTime. rewrite E. reflexivity.
  - intros r' Hsong Hsnap Hsnap'.
    destruct (resumeTime r) as [t |] eqn:E.
    + destruct (Hsome t eq_refl) as [_ Hdel].
      unfold resumeTime. rewrite Hsnap', Hdel, Hsong, lookup_delete_eq.
      reflexivity.
    + destruct (Hnone eq_refl) as [_ Hkeep].
      unfold resumeTime in *. rewrite Hsnap', Hkeep, <- Hsnap, Hsong. exact E.
Qed.

Lemma resume_position_witness :
  let c' := loadSong_resume reqSample resSample true ctlSample in
  src (player c') = "file:///music/a.mp3"%string /\
  pCurrentTime (player c') = Num 100 /\
  songProgress (store c') = delete "A"%string (songProgress (store ctlSample)).
Proof.
  assert (E : resumeTime reqSample = Some (Num 100)) by reflexivity.
  destruct (resume_position reqSample resSample true ctlSample
              "file:///music/a.mp3" eq_refl eq_refl eq_refl eq_refl)
    as (Hsrc & Hsome & _).
  destruct (Hsome (Num 100) E) as (_ & Ht & Hd).
  split; [exact Hsrc | split; [exact Ht | exact Hd]].
Defined.

(** C8, counterexample: the track's duration is 0, so the stored 100
    seconds are not below [duration - 10]; the load still resumes at 100
    and deletes the entry. *)
Lemma resume_with_unknown_duration :
  duration (reqSong reqSample) = Num 0 /\
  reqProgress reqSample !! id (reqSong reqSample) = Some (Num 100) /\
  ~ (100 < 0 - 10)%Q /\
  pCurrentTime (player (loadSong_resume reqSample resSample true ctlSample))
    = Num 100 /\
  songProgress (store (loadSong_resume reqSample resSample true ctlSample))
    !! "A"%string = None.
Proof.
  split; [reflexivity |]. split; [reflexivity |].
  split; [intros H; apply Qltb_lt in H; discriminate H |].
  split; [reflexivity |]. vm_compute. reflexivity.
Qed.

(** ** Superseded loads *)

Lemma loadSong_begin_request (now : Z) (c c' : Ctl) (r : Request) :
  loadSong_begin now c = (c', Some r) ->
  requestId r = now /\ playRequestRef c' = now /\ player c' = player c.
Proof.
  unfold loadSong_begin. destruct (currentSong (store c)); [| discriminate].
  intros H. injection H as <- <-. repeat split.
Qed.

(** Resuming a load never writes the token. *)
Lemma loadSong_resume_token (r : Request) (res : SourceResult)
    (playOk : bool) (c : Ctl) :
  playRequestRef (loadSong_resume r res playOk c) = playRequestRef c.
Proof.
  unfold loadSong_resume.
  destruct (cleanupUrl_frame c) as (_ & Ht & _).
  destruct (isMetadataUpdate _ _ && nonempty _).
  - destruct (rSrc res) as [s |]; [destruct (isBlob s) |]; reflexivity.
  - destruct (rSrc res) as [s |]; [| exact Ht].
    destruct (nonempty s); [| exact Ht]. cbv [negb].
    fold (atTokenCheck res s c).
    destruct (atTokenCheck_frame res s c) as (_ & Ht' & _).
    destruct (decide _); [exact Ht' |].
    destruct (resumeTime r), (reqIsPlaying r), playOk; exact Ht'.
Qed.

(** A result whose token is not the latest one leaves the player and the
    latest token as they are. *)
Lemma stale_result_discarded (r : Request) (res : SourceResult)
    (playOk : bool) (c : Ctl) :
  requestId r <> playRequestRef c ->
  player (loadSong_resume r res playOk c) = player c /\
  playRequestRef (loadSong_resume r res playOk c) = playRequestRef c.
Proof.
  intros Hne. unfold loadSong_resume.
  destruct (cleanupUrl_frame c) as (Hp & Ht & Hs).
  destruct (isMetadataUpdate _ _ && nonempty _).
  - destruct (rSrc res) as [s |]; [destruct (isBlob s) |]; split; reflexivity.
  - destruct (rSrc res) as [s |]; [| split; simpl; assumption].
    destruct (nonempty s); simpl; [| split; assumption].
    fold (atTokenCheck res s c).
    destruct (atTokenCheck_frame res s c) as (Hp' & Ht' & _).
    destruct (decide (playRequestRef (atTokenCheck res s c) <> requestId r))
      as [_ | Heq]; [split; assumption |].
    exfalso. apply Heq. rewrite Ht'. auto.
Qed.

(** What a superseded load still does before it compares its token: it
    runs [cleanupUrl], overwrites [lastPlayedSourceRef], and, when its
    resolution brought no source, clears [isPlaying] in the store. *)
Remark stale_result_traces (r : Request) (res : SourceResult)
    (playOk : bool) (c : Ctl) :
  isMetadataUpdate (lastPlayedSourceRef c) (rawSource res)
    && nonempty (src (player c)) = false ->
  lastPlayedSourceRef (loadSong_resume r res playOk c) = rawSource res /\
  (rSrc res = None -> isPlaying (store (loadSong_resume r res playOk c)) = false).
Proof.
  intros H. unfold loadSong_resume. rewrite H. split.
  - destruct (rSrc res) as [s |]; [| reflexivity].
    destruct (nonempty s); [| reflexivity]. cbv [negb].
    fold (atTokenCheck res s c).
    assert (Hl : lastPlayedSourceRef (atTokenCheck res s c) = rawSource res)
      by (unfold atTokenCheck; destruct (isBlob s); reflexivity).
    destruct (decide _); [exact Hl |].
    destruct (resumeTime r), (reqIsPlaying r), playOk; exact Hl.
  - intros ->. reflexivity.
Qed.

(** The result of the latest request either is not applied or is the
    source the player holds afterwards. *)
Lemma current_result_applied (r : Request) (res : SourceResult)
    (playOk : bool) (c : Ctl) :
  player (loadSong_resume r res playOk c) = player c \/
  rSrc res = Some (src (player (loadSong_resume r res playOk c))).
Proof.
  unfold loadSong_resume.
  destruct (cleanupUrl_frame c) as (Hp & Ht & Hs).
  destruct (isMetadataUpdate _ _ && nonempty _).
  - left. destruct (rSrc res) as [s |]; [destruct (isBlob s) |]; reflexivity.
  - destruct (rSrc res) as [s |]; [| left; simpl; assumption].
    destruct (nonempty s); simpl; [| left; assumption].
    fold (atTokenCheck res s c).
    destruct (atTokenCheck_frame res s c) as (Hp' & _ & _).
    destruct (decide (playRequestRef (atTokenCheck res s c) <> requestId r));
      [left; assumption |].
    right. destruct (resumeTime r), (reqIsPlaying r), playOk; reflexivity.
Qed.

(** What [loadSong] itself writes to the element: three loads are
    started with tokens [t1 < t2 < t3] (the store may change before each)
    and their sources resolve in the order t3, t1, t2.  Starting a load
    does not touch the element; the statements of [loadSong] run for t1
    and t2 leave it as those run for t3 left it; and the source it ends
    with is the one it had or the one resolved for t3.  The effects that
    answer the store writes of a superseded load are not part of this:
    see [deliver]. *)
Lemma loadSong_writes_only_latest (c0 c1 c2 c3 : Ctl) (st1 st2 st3 : PlayerState)
    (t1 t2 t3 : Z) (r1 r2 r3 : Request) (res1 res2 res3 : SourceResult)
    (ok1 ok2 ok3 : bool) :
  t1 < t2 < t3 ->
  loadSong_begin t1 (with_store st1 c0) = (c1, Some r1) ->
  loadSong_begin t2 (with_store st2 c1) = (c2, Some r2) ->
  loadSong_begin t3 (with_store st3 c2) = (c3, Some r3) ->
  let after3 := loadSong_resume r3 res3 ok3 c3 in
  let after1 := loadSong_resume r1 res1 ok1 after3 in
  let after2 := loadSong_resume r2 res2 ok2 after1 in
  player c3 = player c0 /\
  player after1 = player after3 /\
  player after2 = player after3 /\
  (player after2 = player c0 \/ rSrc res3 = Some (src (player after2))).
Proof.
  intros Hlt B1 B2 B3 after3 after1 after2.
  apply loadSong_begin_request in B1 as (Hr1 & Hk1 & Hp1).
  apply loadSong_begin_request in B2 as (Hr2 & Hk2 & Hp2).
  apply loadSong_begin_request in B3 as (Hr3 & Hk3 & Hp3).
  simpl in Hp1, Hp2, Hp3.
  assert (Hk : playRequestRef after3 = t3)
    by (subst after3; rewrite loadSong_resume_token; exact Hk3).
  assert (S1 : requestId r1 <> playRequestRef after3) by lia.
  destruct (stale_result_discarded r1 res1 ok1 after3 S1) as (P1 & K1).
  fold after1 in P1, K1.
  assert (S2 : requestId r2 <> playRequestRef after1) by lia.
  destruct (stale_result_discarded r2 res2 ok2 after1 S2) as (P2 & _).
  fold after2 in P2.
  split; [congruence |]. split; [exact P1 |]. split; [congruence |].
  destruct (current_result_applied r3 res3 ok3 c3) as [Hsame | Hnew];
    fold after3 in Hsame || fold after3 in Hnew.
  - left. congruence.
  - right. rewrite P2, P1. exact Hnew.
Qed.

Lemma loadSong_writes_only_latest_example :
  let after3 := loadSong_resume req3 res3 true
                  (with_token 3 (with_store (storeAt 2)
                     (with_token 2 (with_store (storeAt 1)
                        (with_token 1 (with_store (storeAt 0) ctlIdle)))))) in
  let after1 := loadSong_resume req1 res1 true after3 in
  let after2 := loadSong_resume req2 res2 true after1 in
  player after1 = player after3 /\
  player after2 = player after3 /\
  src (player after2) = "blob:c"%string.
Proof.
  intros after3 after1 after2.
  destruct (loadSong_writes_only_latest ctlIdle
              (with_token 1 (with_store (storeAt 0) ctlIdle))
              (with_token 2 (with_store (storeAt 1)
                 (with_token 1 (with_store (storeAt 0) ctlIdle))))
              (with_token 3 (with_store (storeAt 2)
                 (with_token 2 (with_store (storeAt 1)
                    (with_token 1 (with_store (storeAt 0) ctlIdle))))))
              (storeAt 0) (storeAt 1) (storeAt 2) 1 2 3 req1 req2 req3
              res1 res2 res3 true true true
              ltac:(lia) eq_refl eq_refl eq_refl)
    as (_ & P1 & P2 & _).
  split; [exact P1 |]. split; [exact P2 |]. reflexivity.
Defined.

(** ** Superseded loads and the play/pause effect *)

Lemma onIsPlayingChange_frame (was : bool) (pr : PlayResult) (c : Ctl) :
  let c' := onIsPlayingChange was pr c in
  src (player c') = src (player c) /\
  pCurrentTime (player c') = pCurrentTime (player c) /\
  pDuration (player c') = pDuration (player c) /\
  playRequestRef c' = playRequestRef c /\
  lastPlayedSourceRef c' = lastPlayedSourceRef c /\
  activeObjectUrlRef c' = activeObjectUrlRef c /\
  revoked c' = revoked c.
Proof.
  cbv zeta. unfold onIsPlayingChange, playPauseEffect.
  destruct was, (isPlaying (store c)) eqn:E, pr; cbn; rewrite ?E; cbn;
    repeat split.
Qed.

(** When [isPlaying] goes from [true] to [false] the effect pauses the
    element. *)
Lemma onIsPlayingChange_pauses (pr : PlayResult) (c : Ctl) :
  isPlaying (store c) = false ->
  player (onIsPlayingChange true pr c) = pause (player c) /\
  store (onIsPlayingChange true pr c) = store c.
Proof.
  intros E. unfold onIsPlayingChange, playPauseEffect. rewrite E. cbn.
  rewrite E. cbn. split; reflexivity.
Qed.

(** The part of race safety the code keeps: a superseded result is never
    assigned as the element's source, and never moves its position. *)
Lemma stale_delivery_keeps_source (r : Request) (res : SourceResult)
    (playOk : bool) (pr : PlayResult) (c : Ctl) :
  requestId r <> playRequestRef c ->
  src (player (deliver r res playOk pr c)) = src (player c) /\
  pCurrentTime (player (deliver r res playOk pr c)) = pCurrentTime (player c) /\
  playRequestRef (deliver r res playOk pr c) = playRequestRef c.
Proof.
  intros Hne. unfold deliver.
  destruct (onIsPlayingChange_frame (isPlaying (store c)) pr
              (loadSong_resume r res playOk c)) as (H1 & H2 & _ & H4 & _).
  cbv zeta in H1, H2, H4.
  destruct (stale_result_discarded r res playOk c Hne) as (Hp & Ht).
  rewrite H1, H2, H4, Hp, Ht. repeat split.
Qed.

(** The part it does not keep: a superseded result that brought no source,
    arriving during playback, clears [isPlaying] before it compares its
    token, and the play/pause effect then pauses the element, whatever
    the token is. *)
Lemma stale_missing_source_pauses (r : Request) (res : SourceResult)
    (playOk : bool) (pr : PlayResult) (c : Ctl) :
  isMetadataUpdate (lastPlayedSourceRef c) (rawSource res)
    && nonempty (src (player c)) = false ->
  rSrc res = None ->
  isPlaying (store c) = true ->
  paused (player (deliver r res playOk pr c)) = true /\
  isPlaying (store (deliver r res playOk pr c)) = false.
Proof.
  intros Hm Hs Hplay. unfold deliver. rewrite Hplay.
  assert (E : isPlaying (store (loadSong_resume r res playOk c)) = false)
    by (apply (stale_result_traces r res playOk c Hm); exact Hs).
  destruct (onIsPlayingChange_pauses pr _ E) as (Hp & Hst).
  rewrite Hp, Hst. split; [reflexivity | exact E].
Qed.

(** C1, the code on three loads that resolve out of order.  Playback is
    on; the loads for the locked track, for B and for C are started with
    tokens 1, 2 and 3, and the sources resolve in the order 3, 1, 2.  The
    result for token 3 is applied and C plays from "blob:c".  The
    superseded result for token 1 brings no source: before its token is
    compared it revokes "blob:c", the URL the element plays, and clears
    [isPlaying], and the play/pause effect pauses the element, so the
    element is no longer as the result for token 3 left it.  The
    superseded result for token 2 then overwrites both refs with the
    source of B.  When the user selects B afterwards, that load, the
    latest one, is taken for a metadata update and its result is never
    applied: the element still holds "blob:c" while B is current. *)
Theorem stale_result_reaches_player :
  exists c1 r1 c2 r2 c3 r3,
    loadSong_begin 1 raceStart = (c1, Some r1) /\
    loadSong_begin 2 (select 1 c1) = (c2, Some r2) /\
    loadSong_begin 3 (select 2 c2) = (c3, Some r3) /\
    let after3 :=
      deliver r3 (getSourceUrl webEnv "blob:c" songC) true playStarts c3 in
    let after1 :=
      deliver r1 (getSourceUrl webEnv "blob:l" lockedSong) true playStarts
        after3 in
    let after2 :=
      deliver r2 (getSourceUrl webEnv "blob:b" songB) true playStarts after1 in
    (requestId r1, requestId r2, requestId r3) = (1, 2, 3) /\
    playRequestRef after3 = 3 /\
    player after3 = mkPlayer "blob:c" (Num 0) NaN false /\
    isPlaying (store after3) = true /\
    getSourceUrl webEnv "blob:l" lockedSong = mkSource None None /\
    player after1 = mkPlayer "blob:c" (Num 0) NaN true /\
    player after1 <> player after3 /\
    isPlaying (store after1) = false /\
    revoked after1 = ["blob:c"%string] /\
    player after2 = player after1 /\
    lastPlayedSourceRef after2 = Some (RawFile fileB) /\
    activeObjectUrlRef after2 = Some "blob:b"%string /\
    exists c4 r4,
      loadSong_begin 4 (select 1 after2) = (c4, Some r4) /\
      requestId r4 = playRequestRef c4 /\
      let after4 :=
        deliver r4 (getSourceUrl webEnv "blob:b2" songB) true playStarts c4 in
      currentSong (store after4) = Some songB /\
      src (player after4) = "blob:c"%string.
Proof.
  exists (with_token 1 raceStart), (mkRequest 1 lockedSong true ∅),
         (with_token 2 (select 1 (with_token 1 raceStart))),
         (mkRequest 2 songB true ∅),
         (with_token 3 (select 2 (with_token 2 (select 1 (with_token 1 raceStart))))),
         (mkRequest 3 songC true ∅).
  split; [vm_compute; reflexivity |].
  split; [vm_compute; reflexivity |].
  split; [vm_compute; reflexivity |].
  cbv zeta.
  split; [vm_compute; reflexivity |].
  split; [vm_compute; reflexivity |].
  split; [vm_compute; reflexivity |].
  split; [vm_compute; reflexivity |].
  split; [vm_compute; reflexivity |].
  split; [vm_compute; reflexivity |].
  split; [vm_compute; intros H; discriminate H |].
  split; [vm_compute; reflexivity |].
  split; [vm_compute; reflexivity |].
  split; [vm_compute; reflexivity |].
  split; [vm_compute; reflexivity |].
  split; [vm_compute; reflexivity |].
  eexists. eexists.
  split; [vm_compute; reflexivity |].
  split; [vm_compute; reflexivity |].
  split; vm_compute; reflexivity.
Qed.

(** ** Permission errors *)

(** The load effect never writes [permissionErrorSong]. *)
Lemma loadSong_resume_permission (r : Request) (res : SourceResult)
    (playOk : bool) (c : Ctl) :
  permissionErrorSong (store (loadSong_resume r res playOk c))
  = permissionErrorSong (store c).
Proof.
  unfold loadSong_resume.
  destruct (cleanupUrl_frame c) as (_ & _ & Hs).
  destruct (isMetadataUpdate _ _ && nonempty _).
  - destruct (rSrc res) as [s |]; [destruct (isBlob s) |]; reflexivity.
  - assert (Hnull : permissionErrorSong (store (cleanupUrl c))
                    = permissionErrorSong (store c)) by (rewrite Hs; reflexivity).
    destruct (rSrc res) as [s |]; [| exact Hnull].
    destruct (nonempty s); [| exact Hnull]. cbv [negb].
    fold (atTokenCheck res s c).
    destruct (atTokenCheck_frame res s c) as (_ & _ & Hs').
    destruct (decide _); [rewrite Hs'; reflexivity |].
    destruct (resumeTime r), (reqIsPlaying r), playOk; simpl;
      rewrite Hs'; reflexivity.
Qed.

(** C4, the code at a track whose permission has lapsed: [getSongFile]
    rejects, [getSourceUrl] turns that into a missing source, and the load
    only sets [isPlaying] to false: the index stays on the track, and
    [permissionErrorSong] stays [null], so the track is not surfaced for
    re-authorization.  When the player still holds an earlier source and
    the last played source is [null], the same failure does not even
    pause. *)
Theorem permission_error_not_surfaced :
  getSongFile webEnv lockedSong = Rejects /\
  getSourceUrl webEnv "blob:new" lockedSong = mkSource None None /\
  (let c' := loadSong_resume reqLocked
               (getSourceUrl webEnv "blob:new" lockedSong) true ctlLocked in
   isPlaying (store c') = false /\
   currentIndex (store c') = Some 0 /\
   player c' = player ctlLocked /\
   permissionErrorSong (store c') = None) /\
  (let c' := loadSong_resume reqLocked
               (getSourceUrl webEnv "blob:new" lockedSong) true ctlLockedAgain in
   isPlaying (store c') = true /\
   permissionErrorSong (store c') = None).
Proof. repeat split. Qed.

(** ** Session restore *)

Lemma queueMap_from (l : list Song) (m : gmap string Song) (x : string)
    (s : Song) :
  foldl (fun m s => <[id s := s]> m) m l !! x = Some s ->
  (s ∈ l /\ id s = x) \/ m !! x = Some s.
Proof.
  revert m. induction l as [| a l IH]; intros m; simpl.
  - auto.
  - intros H. apply IH in H as [[Hin Hid] | H].
    + left. split; [right; exact Hin | exact Hid].
    + destruct (decide (id a = x)) as [E | E].
      * rewrite <- E, lookup_insert_eq in H. injection H as <-.
        left. split; [left | exact E].
      * rewrite lookup_insert_ne in H by exact E. right. exact H.
Qed.

Lemma queueMap_known (l : list Song) (m : gmap string Song) (x : string) :
  is_Some (foldl (fun m s => <[id s := s]> m) m l !! x) <->
  x ∈ id <$> l \/ is_Some (m !! x).
Proof.
  revert m. induction l as [| a l IH]; intros m; simpl.
  - split; [auto | intros [H | H]; [inversion H | exact H]].
  - rewrite IH, elem_of_cons. split.
    + intros [H | H]; [tauto |].
      destruct (decide (id a = x)) as [E | E]; [auto |].
      rewrite lookup_insert_ne in H by exact E. auto.
    + intros [[-> | H] | H]; [| tauto |].
      * right. rewrite lookup_insert_eq. eauto.
      * right. destruct (decide (id a = x)) as [<- | E].
        -- rewrite lookup_insert_eq. eauto.
        -- rewrite lookup_insert_ne by exact E. exact H.
Qed.

Lemma queueMap_lookup (l : list Song) (x : string) (s : Song) :
  queueMap l !! x = Some s -> s ∈ l /\ id s = x.
Proof.
  intros H. apply queueMap_from in H as [H | H]; [exact H |].
  rewrite lookup_empty in H. discriminate.
Qed.

Lemma queueMap_is_Some (l : list Song) (x : string) :
  is_Some (queueMap l !! x) <-> x ∈ id <$> l.
Proof.
  unfold queueMap. rewrite queueMap_known, lookup_empty.
  split; [intros [H | [? H]]; [exact H | discriminate] | auto].
Qed.

(** The identifiers restored are the saved ones that some loaded song
    carries, in the saved order. *)
Lemma restoredQueue_ids (init : list Song) (saved : list string) :
  id <$> restoredQueue init saved = filter (fun x => x ∈ id <$> init) saved.
Proof.
  unfold restoredQueue. induction saved as [| x saved IH]; [reflexivity |].
  change (omap (fun i => queueMap init !! i) (x :: saved))
    with (match queueMap init !! x with
          | Some y => y :: omap (fun i => queueMap init !! i) saved
          | None => omap (fun i => queueMap init !! i) saved
          end).
  destruct (queueMap init !! x) as [s |] eqn:E.
  - apply queueMap_lookup in E as HE. destruct HE as [_ Hid].
    rewrite filter_cons_True
      by (apply queueMap_is_Some; rewrite E; eauto).
    rewrite fmap_cons, IH, Hid. reflexivity.
  - rewrite filter_cons_False; [exact IH |].
    intros H. apply queueMap_is_Some in H. rewrite E in H.
    destruct H; discriminate.
Qed.

Lemma restoredQueue_known (init : list Song) (saved : list string) (s : Song) :
  s ∈ restoredQueue init saved -> s ∈ init /\ id s ∈ saved.
Proof.
  unfold restoredQueue. rewrite list_elem_of_omap.
  intros (x & Hx & E). apply queueMap_lookup in E as [Hin Hid].
  subst x. auto.
Qed.

(** C5, as the code has it: with songs loaded and a parsed session whose
    ids resolve to at least one of them, the restore makes both orderings
    the saved ids that resolve, in the saved order; it sets the saved
    index when it is below the length of that list and otherwise leaves
    the index as it was (it does not clamp it); it does not touch
    [isPlaying].  From a [null] index and a saved index that is not
    negative the result addresses the list. *)
Theorem restore_session (init : list Song) (session : Session)
    (saved : list string) (st : PlayerState) :
  init <> [] ->
  queueIds session = Some saved ->
  restoredQueue init saved <> [] ->
  let st' := restoreSession init (Parsed session) st in
  let n := Z.of_nat (length (restoredQueue init saved)) in
  queue st' = restoredQueue init saved /\
  originalQueue st' = restoredQueue init saved /\
  id <$> queue st' = filter (fun x => x ∈ id <$> init) saved /\
  (forall s, s ∈ queue st' -> s ∈ init) /\
  (forall i, sIndex session = Some i -> i < n -> currentIndex st' = Some i) /\
  (forall i, sIndex session = Some i -> n <= i ->
     currentIndex st' = currentIndex st) /\
  (sIndex session = None -> currentIndex st' = currentIndex st) /\
  isPlaying st' = isPlaying st /\
  (currentIndex st = None ->
   (forall i, sIndex session = Some i -> 0 <= i) -> index_ok st').
Proof.
  intros Hinit Hids Hres st' n.
  assert (Hst' : st' = restoreSession init (Parsed session) st) by reflexivity.
  unfold restoreSession in Hst'.
  destruct init as [| s0 init0]; [contradiction |].
  rewrite Hids in Hst'.
  destruct saved as [| x0 saved0]; [contradiction |].
  remember (restoredQueue (s0 :: init0) (x0 :: saved0)) as restored eqn:Hr.
  destruct restored as [| q0 restored0]; [contradiction |].
  assert (Hq : queue st' = q0 :: restored0).
  { rewrite Hst'. destruct (sIndex session) as [i |];
      [destruct (decide _) |]; destruct (sIsShuffled session); reflexivity. }
  assert (Ho : originalQueue st' = q0 :: restored0).
  { rewrite Hst'. destruct (sIndex session) as [i |];
      [destruct (decide _) |]; destruct (sIsShuffled session); reflexivity. }
  assert (Hp : isPlaying st' = isPlaying st).
  { rewrite Hst'. destruct (sIndex session) as [i |];
      [destruct (decide _) |]; destruct (sIsShuffled session); reflexivity. }
  assert (Hset : forall i, sIndex session = Some i -> i < n ->
                   currentIndex st' = Some i).
  { intros i E Hlt. rewrite Hst', E.
    destruct (decide _) as [_ | Hge]; [| contradiction].
    destruct (sIsShuffled session); reflexivity. }
  assert (Hkeep : forall i, sIndex session = Some i -> n <= i ->
                    currentIndex st' = currentIndex st).
  { intros i E Hge. rewrite Hst', E.
    destruct (decide _) as [Hlt | _]; [subst n; lia |].
    destruct (sIsShuffled session); reflexivity. }
  assert (Hnull : sIndex session = None -> currentIndex st' = currentIndex st).
  { intros E. rewrite Hst', E. destruct (sIsShuffled session); reflexivity. }
  repeat split; try assumption.
  - rewrite Hq, Hr. apply restoredQueue_ids.
  - intros s Hs. rewrite Hq, Hr in Hs.
    apply restoredQueue_known in Hs. tauto.
  - intros Hnone Hpos. unfold index_ok.
    destruct (sIndex session) as [i |] eqn:E.
    + destruct (Z_lt_le_dec i n) as [Hlt | Hge].
      * rewrite (Hset i eq_refl Hlt), Hq.
        specialize (Hpos i eq_refl). subst n. lia.
      * rewrite (Hkeep i eq_refl Hge), Hnone. exact I.
    + rewrite (Hnull eq_refl), Hnone. exact I.
Qed.

Lemma restore_session_witness :
  let st' := restoreSession loadedSample (Parsed (sessionAt 1)) initialState in
  queue st' = [song "A"; song "C"] /\
  originalQueue st' = [song "A"; song "C"] /\
  currentIndex st' = Some 1 /\
  isPlaying st' = false.
Proof.
  assert (Hres : restoredQueue loadedSample ["A"; "B"; "C"]%string
                 = [song "A"; song "C"]) by (vm_compute; reflexivity).
  assert (Hne : restoredQueue loadedSample ["A"; "B"; "C"]%string <> [])
    by (rewrite Hres; discriminate).
  destruct (restore_session loadedSample (sessionAt 1) ["A"; "B"; "C"]%string
              initialState ltac:(discriminate) eq_refl Hne)
    as (Hq & Ho & _ & _ & Hset & _ & _ & Hp & _).
  rewrite Hres in Hq, Ho, Hset.
  split; [exact Hq |]. split; [exact Ho |].
  split; [apply (Hset 1 eq_refl); simpl; lia | exact Hp].
Defined.

(** C5, counterexample: the session saved index 2 on [A,B,C]; B no longer
    resolves, the restored list is [A,C], and the index is left [null]
    where clamping it into the list would give 1. *)
Lemma restore_does_not_clamp :
  queue (restoreSession loadedSample (Parsed (sessionAt 2)) initialState)
    = [song "A"; song "C"] /\
  currentIndex (restoreSession loadedSample (Parsed (sessionAt 2)) initialState)
    = None /\
  clamp_index 2 (length [song "A"; song "C"]) = 1 /\
  currentIndex (restoreSession loadedSample (Parsed (sessionAt 2)) initialState)
    <> Some (clamp_index 2 (length [song "A"; song "C"])).
Proof.
  assert (E : restoreSession loadedSample (Parsed (sessionAt 2)) initialState
              = set_queues [song "A"; song "C"] [song "A"; song "C"]
                  (set_title "Mix" initialState))
    by (vm_compute; reflexivity).
  rewrite E. repeat split. discriminate.
Qed.

(** ** Identifier sets of the orderings *)

Lemma elem_of_ids (x : string) (l : list Song) :
  x ∈ ids l <-> exists s, s ∈ l /\ id s = x.
Proof.
  unfold ids. rewrite elem_of_list_to_set, list_elem_of_fmap.
  split; intros (s & H1 & H2); exists s; auto.
Qed.

Lemma ids_nil : ids [] = ∅.
Proof. reflexivity. Qed.

Lemma ids_cons (s : Song) (l : list Song) : ids (s :: l) = {[id s]} ∪ ids l.
Proof. reflexivity. Qed.

Lemma ids_app (l1 l2 : list Song) : ids (l1 ++ l2) = ids l1 ∪ ids l2.
Proof.
  unfold ids. rewrite fmap_app. apply leibniz_equiv, list_to_set_app.
Qed.

Lemma ids_take_drop (k : nat) (l : list Song) :
  ids (take k l) ∪ ids (drop k l) = ids l.
Proof. rewrite <- ids_app, take_drop. reflexivity. Qed.

Lemma ids_splice_insert (start : Z) (items l : list Song) :
  ids (splice_insert start items l) = ids items ∪ ids l.
Proof.
  unfold splice_insert. rewrite !ids_app.
  rewrite <- (ids_take_drop (splice_start start l) l) at 1.
  apply set_eq. intros x. rewrite !elem_of_union. tauto.
Qed.

Lemma ids_without (x : string) (l : list Song) :
  ids (without_id x l) = ids l ∖ {[x]}.
Proof.
  apply set_eq. intros y. rewrite elem_of_difference, !elem_of_ids.
  unfold without_id. split.
  - intros (s & Hs & <-). apply list_elem_of_filter in Hs as [Hne Hs].
    split; [eauto | set_solver].
  - intros [(s & Hs & <-) Hne]. exists s. split; [| reflexivity].
    apply list_elem_of_filter. split; [set_solver | exact Hs].
Qed.

Lemma ids_updateList (x : string) (new : Song) (l : list Song) :
  ids (updateList x new l) =
  if decide (x ∈ ids l) then {[id new]} ∪ (ids l ∖ {[x]}) else ids l.
Proof.
  induction l as [| a l IH].
  - simpl. rewrite ids_nil. destruct (decide _) as [H | _]; [| reflexivity].
    set_solver.
  - unfold updateList in *. rewrite fmap_cons, !ids_cons, IH.
    destruct (decide (id a = x)) as [E | E];
      destruct (decide (x ∈ ids l)); destruct (decide (x ∈ {[id a]} ∪ ids l));
      set_solver.
Qed.

Lemma ids_permutation (l1 l2 : list Song) : l1 ≡ₚ l2 -> ids l1 = ids l2.
Proof.
  intros H. apply set_eq. intros x. rewrite !elem_of_ids.
  split; intros (s & Hs & E); exists s; split; auto.
  - rewrite <- H. exact Hs.
  - rewrite H. exact Hs.
Qed.

(** ** The shuffle loop *)

Lemma pick_le (r : draw) (i : nat) : (pick r i <= i)%nat.
Proof.
  unfold pick. apply Nat.lt_succ_r.
  apply Nat.Div0.div_lt_upper_bound. nia.
Qed.

Lemma js_swap_length {A} (i j : nat) (l : list A) :
  length (js_swap i j l) = length l.
Proof.
  unfold js_swap. destruct (l !! i), (l !! j); try reflexivity.
  rewrite !length_insert. reflexivity.
Qed.

Lemma js_swap_elem {A} (i j : nat) (l : list A) (x : A) :
  x ∈ js_swap i j l <-> x ∈ l.
Proof.
  unfold js_swap.
  destruct (l !! i) as [a |] eqn:Ei; [| reflexivity].
  destruct (l !! j) as [b |] eqn:Ej; [| reflexivity].
  assert (Hi : (i < length l)%nat) by (eapply lookup_lt_Some; eauto).
  assert (Hj : (j < length l)%nat) by (eapply lookup_lt_Some; eauto).
  rewrite !list_elem_of_lookup. split; intros [k Hk].
  - destruct (decide (k = j)) as [-> | Hkj].
    + rewrite list_lookup_insert_eq in Hk by (rewrite length_insert; lia).
      injection Hk as <-. eauto.
    + rewrite list_lookup_insert_ne in Hk by auto.
      destruct (decide (k = i)) as [-> | Hki].
      * rewrite list_lookup_insert_eq in Hk by lia. injection Hk as <-. eauto.
      * rewrite list_lookup_insert_ne in Hk by auto. eauto.
  - destruct (decide (k = i)) as [-> | Hki].
    + exists j. rewrite list_lookup_insert_eq by (rewrite length_insert; lia).
      congruence.
    + destruct (decide (k = j)) as [-> | Hkj].
      * exists i. rewrite list_lookup_insert_ne by auto.
        rewrite list_lookup_insert_eq by lia. congruence.
      * exists k. rewrite !list_lookup_insert_ne by auto. exact Hk.
Qed.

Lemma shuffle_from_elem (rnd : nat -> draw) (i : nat) (l : list Song)
    (x : Song) :
  x ∈ shuffle_from rnd i l <-> x ∈ l.
Proof.
  revert l. induction i as [| i IH]; intros l; simpl; [reflexivity |].
  rewrite IH. apply js_swap_elem.
Qed.

Lemma shuffle_from_length (rnd : nat -> draw) (i : nat) (l : list Song) :
  length (shuffle_from rnd i l) = length l.
Proof.
  revert l. induction i as [| i IH]; intros l; simpl; [reflexivity |].
  rewrite IH. apply js_swap_length.
Qed.

Lemma ids_shuffle (rnd : nat -> draw) (l : list Song) :
  ids (shuffle rnd l) = ids l.
Proof.
  apply set_eq. intros x. rewrite !elem_of_ids. unfold shuffle.
  split; intros (s & Hs & E); exists s; split; auto;
    apply (shuffle_from_elem rnd (length l - 1) l s); exact Hs.
Qed.

(** ** Array primitives *)

Lemma js_get_Some {A} (l : list A) (i : Z) (x : A) :
  js_get l i = Some x <-> 0 <= i /\ l !! Z.to_nat i = Some x.
Proof.
  unfold js_get. destruct (decide (0 <= i)); [tauto |].
  split; [discriminate | tauto].
Qed.

Lemma js_get_in_range {A} (l : list A) (i : Z) :
  0 <= i < Z.of_nat (length l) -> exists x, js_get l i = Some x /\ x ∈ l.
Proof.
  intros H. destruct (lookup_lt_is_Some_2 l (Z.to_nat i)) as [x Hx]; [lia |].
  exists x. split; [apply js_get_Some; split; [lia | exact Hx] |].
  apply list_elem_of_lookup. eauto.
Qed.

Lemma js_findIndex_range {A} (p : A -> bool) (l : list A) :
  -1 <= js_findIndex p l < Z.of_nat (length l) \/
  (l = [] /\ js_findIndex p l = -1).
Proof.
  induction l as [| a l IH]; [right; auto |].
  left. simpl js_findIndex. simpl length.
  destruct (p a); [lia |].
  destruct (decide (js_findIndex p l = -1)); [lia |].
  destruct IH as [IH | [-> IH]]; [lia | simpl in *; lia].
Qed.

Lemma js_findIndex_found {A} (p : A -> bool) (l : list A) (x : A) :
  x ∈ l -> p x = true -> 0 <= js_findIndex p l < Z.of_nat (length l).
Proof.
  induction l as [| a l IH]; intros Hin Hp; [inversion Hin |].
  simpl js_findIndex. simpl length.
  destruct (p a) eqn:Ea; [lia |].
  apply elem_of_cons in Hin as [-> | Hin]; [congruence |].
  specialize (IH Hin Hp).
  destruct (decide (js_findIndex p l = -1)); lia.
Qed.

Lemma splice_start_le {A} (start : Z) (l : list A) :
  (splice_start start l <= length l)%nat.
Proof. unfold splice_start. destruct (decide (start < 0)); lia. Qed.

Lemma splice_start_in_range {A} (start : Z) (l : list A) :
  0 <= start <= Z.of_nat (length l) -> splice_start start l = Z.to_nat start.
Proof. intros H. unfold splice_start. destruct (decide (start < 0)); lia. Qed.

Lemma splice_insert_length {A} (start : Z) (items l : list A) :
  length (splice_insert start items l) = (length items + length l)%nat.
Proof.
  unfold splice_insert. pose proof (splice_start_le start l).
  rewrite !length_app, length_take, length_drop. lia.
Qed.

(** [splice(start, 1)] on a position that holds an element: the element
    comes out, and with the rest it makes up the array. *)
Lemma splice_remove1_addressed {A} (start : Z) (l : list A) :
  (splice_start start l < length l)%nat ->
  exists x rest,
    splice_remove1 start l = ([x], rest) /\
    l !! splice_start start l = Some x /\
    x :: rest ≡ₚ l /\
    S (length rest) = length l.
Proof.
  intros Hlt. unfold splice_remove1.
  set (k := splice_start start l) in *.
  destruct (lookup_lt_is_Some_2 l k Hlt) as [x Hx].
  exists x, (take k l ++ drop (S k) l).
  assert (Hd : drop k l = x :: drop (S k) l)
    by (apply drop_S; exact Hx).
  split; [rewrite Hd; reflexivity |].
  split; [exact Hx |].
  split.
  - rewrite <- (take_drop k l) at 3. rewrite Hd.
    apply Permutation_middle.
  - rewrite length_app, length_take, length_drop. lia.
Qed.

Lemma splice_remove1_unaddressed {A} (start : Z) (l : list A) :
  (length l <= splice_start start l)%nat ->
  fst (splice_remove1 start l) = [].
Proof.
  intros H. unfold splice_remove1. simpl.
  rewrite drop_ge by exact H. reflexivity.
Qed.

Lemma splice_insert_permutation {A} (start : Z) (items l : list A) :
  splice_insert start items l ≡ₚ items ++ l.
Proof.
  unfold splice_insert. generalize (splice_start start l) as k. intros k.
  transitivity (items ++ take k l ++ drop k l).
  - rewrite !app_assoc. apply Permutation_app_tail, Permutation_app_comm.
  - rewrite take_drop. reflexivity.
Qed.

(** ** What each queue operation returns *)

Lemma songAt_elem (st : PlayerState) (c : Z) (cur : Song) :
  songAt st c = Some cur -> cur ∈ queue st.
Proof.
  unfold songAt. intros H. apply js_get_Some in H as [_ H].
  apply list_elem_of_lookup. eauto.
Qed.

Lemma songAt_in_range (st : PlayerState) (c : Z) :
  0 <= c < Z.of_nat (length (queue st)) -> exists cur, songAt st c = Some cur.
Proof.
  intros H. destruct (js_get_in_range (queue st) c H) as (x & Hx & _). eauto.
Qed.

Lemma same_id_true (s : Song) : same_id (id s) s = true.
Proof. unfold same_id. apply bool_decide_eq_true_2. reflexivity. Qed.

(** Looking a track of known identifier up in an ordering. *)
Lemma findIndex_of_known (cur : Song) (l : list Song) :
  id cur ∈ ids l ->
  exists i, findIndex_of (Some cur) l = Some i /\
            0 <= i < Z.of_nat (length l).
Proof.
  intros H. apply elem_of_ids in H as (s & Hs & E).
  destruct l as [| a l]; [inversion Hs |].
  exists (js_findIndex (same_id (id cur)) (a :: l)). split; [reflexivity |].
  apply (js_findIndex_found _ _ s Hs). rewrite <- E. apply same_id_true.
Qed.

Lemma findIndex_of_Some (cur : Song) (l : list Song) :
  exists i, findIndex_of (Some cur) l = Some i.
Proof. destruct l; simpl; eauto. Qed.

Lemma reorderQueue_updated (a b : Z) (st : PlayerState) :
  addresses a (queue st) ->
  exists result,
    result ≡ₚ queue st /\
    reorderQueue a b st =
      Updated
        (set_index
           (match currentIndex st with
            | None => None
            | Some c =>
                if decide (c = a) then Some b
                else if decide (a < c /\ b >= c) then Some (c - 1)
                else if decide (a > c /\ b <= c) then Some (c + 1)
                else Some c
            end)
           (set_queues result
              (if isShuffled st then originalQueue st else result) st)).
Proof.
  intros Ha.
  destruct (splice_remove1_addressed a (queue st) Ha)
    as (x & rest & E & _ & Hperm & _).
  exists (splice_insert b [x] rest). split.
  - rewrite splice_insert_permutation. exact Hperm.
  - unfold reorderQueue. rewrite E. reflexivity.
Qed.

Lemma reorderQueue_untyped (a b : Z) (st : PlayerState) :
  ~ addresses a (queue st) -> reorderQueue a b st = Untyped.
Proof.
  intros Ha. unfold reorderQueue.
  pose proof (splice_remove1_unaddressed a (queue st)) as H.
  destruct (splice_remove1 a (queue st)) as [removedL result0].
  simpl in H. rewrite H; [reflexivity |]. unfold addresses in Ha. lia.
Qed.

Lemma insert_after_current_cases (c : Z) (songs : list Song)
    (st : PlayerState) :
  insert_after_current c songs st = Threw \/
  exists newQueue newOriginal,
    insert_after_current c songs st
      = Updated (set_queues newQueue newOriginal st) /\
    newQueue ≡ₚ songs ++ queue st /\
    newOriginal ≡ₚ songs ++ originalQueue st.
Proof.
  unfold insert_after_current.
  destruct (findIndex_of (songAt st c) (originalQueue st)) as [oi |];
    [| left; reflexivity].
  right. eexists. eexists. split; [reflexivity |].
  split; [apply splice_insert_permutation |].
  destruct (decide (oi <> -1)); [apply splice_insert_permutation |].
  apply Permutation_app_comm.
Qed.

Lemma insert_after_current_defined (c : Z) (songs : list Song)
    (st : PlayerState) :
  0 <= c < Z.of_nat (length (queue st)) ->
  insert_after_current c songs st <> Threw.
Proof.
  intros H. destruct (songAt_in_range st c H) as [cur Hcur].
  unfold insert_after_current. rewrite Hcur.
  destruct (findIndex_of_Some cur (originalQueue st)) as [i ->].
  discriminate.
Qed.

(** ** The two orderings hold the same identifiers *)

Lemma same_ids_set_queues (q o : list Song) (st : PlayerState) :
  ids q = ids o -> same_ids (set_queues q o st).
Proof. intros H. exact H. Qed.

Lemma same_ids_insert_after_current (c : Z) (songs : list Song)
    (st st' : PlayerState) :
  same_ids st -> insert_after_current c songs st = Updated st' -> same_ids st'.
Proof.
  intros H E.
  destruct (insert_after_current_cases c songs st)
    as [T | (q & o & E' & Hq & Ho)]; [congruence |].
  rewrite E' in E. injection E as <-. apply same_ids_set_queues.
  rewrite (ids_permutation _ _ Hq), (ids_permutation _ _ Ho), !ids_app.
  unfold same_ids in H. rewrite H. reflexivity.
Qed.

Lemma same_ids_delete (x : string) (st st' : PlayerState) :
  same_ids st -> deleteSongFromQueue x st = Updated st' -> same_ids st'.
Proof.
  intros H E.
  assert (Hw : ids (without_id x (queue st))
               = ids (without_id x (originalQueue st))).
  { rewrite !ids_without. unfold same_ids in H. rewrite H. reflexivity. }
  unfold deleteSongFromQueue in E.
  destruct (currentIndex st) as [c |].
  - destruct (songAt st c) as [cur |]; [| discriminate].
    destruct (decide (id cur = x)); injection E as <-; exact Hw.
  - injection E as <-. exact Hw.
Qed.

Lemma same_ids_toggleShuffle (rnd : nat -> draw) (st st' : PlayerState) :
  same_ids st -> toggleShuffle rnd st = Updated st' -> same_ids st'.
Proof.
  intros H E. unfold toggleShuffle in E.
  destruct (currentIndex st) as [c |]; [| injection E as <-; exact H].
  destruct (queue st) as [| q0 qs] eqn:Hq; [injection E as <-; exact H |].
  destruct (isShuffled st).
  - destruct (findIndex_of (songAt st c) (originalQueue st)); [| discriminate].
    injection E as <-. reflexivity.
  - destruct (songAt st c) as [cur |] eqn:Hc; [| discriminate].
    injection E as <-. apply same_ids_set_queues.
    rewrite ids_cons, ids_shuffle, ids_without.
    unfold same_ids in H. rewrite <- H, Hq.
    apply songAt_elem in Hc. rewrite Hq in Hc.
    assert (Hin : id cur ∈ ids (q0 :: qs)) by (apply elem_of_ids; eauto).
    apply set_eq. intros y.
    rewrite elem_of_union, elem_of_difference, elem_of_singleton.
    split; [intros [-> | [Hy _]]; assumption |].
    intros Hy. destruct (decide (y = id cur)); [left | right]; auto.
Qed.

(** What a call returns on a state whose orderings agree: a state whose
    orderings agree, an exception, or, for a reorder that takes no element
    out, an array that is no [Song[]]. *)
Lemma outcome_same_ids (o : op) (st : PlayerState) :
  same_ids st ->
  match run_op o st with
  | Updated st' => same_ids st'
  | Threw => True
  | Untyped => ~ typed_op o st
  end.
Proof.
  intros H. destruct o as [songs ttl | i | a b | s | s | | songs mode | x | x s | rnd];
    simpl run_op.
  - reflexivity.
  - exact H.
  - destruct (decide (splice_start a (queue st) < length (queue st))%nat)
      as [Ha | Ha].
    + destruct (reorderQueue_updated a b st Ha) as (result & Hperm & ->).
      apply same_ids_set_queues. destruct (isShuffled st); [| reflexivity].
      rewrite (ids_permutation _ _ Hperm). exact H.
    + rewrite (reorderQueue_untyped a b st Ha). exact Ha.
  - apply same_ids_set_queues. rewrite !ids_app. unfold same_ids in H.
    rewrite H. reflexivity.
  - destruct (playNext s st) as [st' | |] eqn:E; [| exact I |].
    + unfold playNext in E. destruct (currentIndex st) as [c |].
      * eapply same_ids_insert_after_current; eauto.
      * injection E as <-. reflexivity.
    + exfalso. unfold playNext in E. destruct (currentIndex st) as [c |];
        [| discriminate].
      destruct (insert_after_current_cases c [s] st)
        as [T | (q & oq & E' & _)]; congruence.
  - unfold clearQueue. destruct (currentIndex st) as [c |]; [| exact H].
    destruct (songAt st c); [reflexivity | exact H].
  - destruct (bulkAddToQueue songs mode st) as [st' | |] eqn:E; [| exact I |].
    + unfold bulkAddToQueue in E. destruct mode.
      * destruct (currentIndex st) as [c |].
        -- eapply same_ids_insert_after_current; eauto.
        -- injection E as <-. reflexivity.
      * injection E as <-. apply same_ids_set_queues. rewrite !ids_app.
        unfold same_ids in H. rewrite H. reflexivity.
    + exfalso. unfold bulkAddToQueue in E. destruct mode; [| discriminate].
      destruct (currentIndex st) as [c |]; [| discriminate].
      destruct (insert_after_current_cases c songs st)
        as [T | (q & oq & E' & _)]; congruence.
  - destruct (deleteSongFromQueue x st) as [st' | |] eqn:E; [| exact I |].
    + eapply same_ids_delete; eauto.
    + exfalso. unfold deleteSongFromQueue in E.
      destruct (currentIndex st) as [c |]; [| discriminate].
      destruct (songAt st c) as [cur |]; [| discriminate].
      destruct (decide (id cur = x)); discriminate.
  - apply same_ids_set_queues. rewrite !ids_updateList.
    unfold same_ids in H. rewrite H. reflexivity.
  - destruct (toggleShuffle rnd st) as [st' | |] eqn:E; [| exact I |].
    + eapply same_ids_toggleShuffle; eauto.
    + exfalso. unfold toggleShuffle in E.
      destruct (currentIndex st) as [c |]; [| discriminate].
      destruct (queue st); [discriminate |].
      destruct (isShuffled st).
      * destruct (findIndex_of _ _); discriminate.
      * destruct (songAt st c); discriminate.
Qed.

(** C2: on a state whose active and canonical orderings hold the same
    set of identifiers, every store operation on the queue (replace, set
    index, reorder, single and bulk insertion, clear, remove, in-place
    update, shuffle toggle) whose result is a [Song[]] leaves a state whose
    orderings hold the same set of identifiers. *)
Theorem same_ids_step (o : op) (st : PlayerState) :
  same_ids st -> typed_op o st ->
  exists st', step o st = Some st' /\ same_ids st'.
Proof.
  intros H Ht. pose proof (outcome_same_ids o st H) as Ho.
  unfold step. destruct (run_op o st) as [st' | |].
  - exists st'. split; [reflexivity | exact Ho].
  - exists st. split; [reflexivity | exact H].
  - contradiction.
Qed.

(** Every state reached from the initial store by these operations has
    orderings that agree. *)
Lemma reachable_same_ids (ops : list op) (st st' : PlayerState) :
  same_ids st -> run ops st = Some st' -> same_ids st'.
Proof.
  revert st. induction ops as [| o ops IH]; intros st H E; simpl in E.
  - injection E as <-. exact H.
  - destruct (step o st) as [st1 |] eqn:E1; [| discriminate].
    apply (IH st1); [| exact E].
    pose proof (outcome_same_ids o st H) as Ho. unfold step in E1.
    destruct (run_op o st); simpl in E1; [| | discriminate];
      injection E1 as <-; assumption.
Qed.

Lemma same_ids_step_witness :
  exists st', step (OpReorder 0 2) (storeAt 0) = Some st' /\ same_ids st'.
Proof.
  apply (same_ids_step (OpReorder 0 2) (storeAt 0)).
  - reflexivity.
  - unfold typed_op, addresses. vm_compute. lia.
Defined.

(** ** The current index addresses the active ordering *)

Lemma index_ok_grow (q o : list Song) (st : PlayerState) :
  index_ok st -> (length (queue st) <= length q)%nat ->
  index_ok (set_queues q o st).
Proof.
  unfold index_ok. simpl. intros H L. destruct (currentIndex st); [lia | exact I].
Qed.

Lemma index_ok_insert_after_current (c : Z) (songs : list Song)
    (st : PlayerState) :
  index_ok st -> currentIndex st = Some c ->
  exists st', insert_after_current c songs st = Updated st' /\ index_ok st'.
Proof.
  intros H Hc.
  assert (Hr : 0 <= c < Z.of_nat (length (queue st)))
    by (unfold index_ok in H; rewrite Hc in H; exact H).
  pose proof (insert_after_current_defined c songs st Hr) as Hd.
  destruct (insert_after_current_cases c songs st)
    as [T | (q & o & E & Hq & _)]; [contradiction |].
  eexists. split; [exact E |]. apply index_ok_grow; [exact H |].
  rewrite Hq, length_app. lia.
Qed.

Lemma index_ok_reorder (a b : Z) (st : PlayerState) :
  index_ok st ->
  0 <= a < Z.of_nat (length (queue st)) ->
  0 <= b < Z.of_nat (length (queue st)) ->
  exists st', reorderQueue a b st = Updated st' /\ index_ok st'.
Proof.
  intros H Ha Hb.
  assert (Haddr : addresses a (queue st)).
  { unfold addresses. rewrite splice_start_in_range by lia. lia. }
  destruct (reorderQueue_updated a b st Haddr) as (result & Hperm & E).
  eexists. split; [exact E |].
  pose proof (Permutation_length Hperm) as Hl.
  unfold index_ok in *. simpl.
  destruct (currentIndex st) as [c |]; [| exact I].
  repeat case_decide; lia.
Qed.

Lemma index_ok_delete (x : string) (st : PlayerState) :
  index_ok st ->
  exists st', deleteSongFromQueue x st = Updated st' /\ index_ok st'.
Proof.
  intros H. unfold deleteSongFromQueue.
  destruct (currentIndex st) as [c |] eqn:Hc;
    [| eexists; split; [reflexivity | exact I]].
  unfold index_ok in H. rewrite Hc in H.
  destruct (songAt_in_range st c H) as [cur Hcur]. rewrite Hcur.
  destruct (decide (id cur = x)) as [E | E];
    eexists; (split; [reflexivity |]); [exact I |].
  unfold index_ok. simpl.
  apply (js_findIndex_found _ _ cur); [| apply same_id_true].
  unfold without_id. apply list_elem_of_filter.
  split; [exact E | eapply songAt_elem; eauto].
Qed.

Lemma index_ok_toggleShuffle (rnd : nat -> draw) (st : PlayerState) :
  queue_inv st ->
  exists st', toggleShuffle rnd st = Updated st' /\ index_ok st'.
Proof.
  intros [Hids H]. unfold toggleShuffle.
  destruct (currentIndex st) as [c |] eqn:Hc;
    [| eexists; split; [reflexivity |]; unfold index_ok; rewrite Hc; exact I].
  destruct (queue st) as [| q0 qs] eqn:Hq.
  { eexists. split; [reflexivity |]. unfold index_ok in *.
    rewrite Hc, Hq in *. exact H. }
  unfold index_ok in H. rewrite Hc, Hq in H.
  destruct (songAt_in_range st c) as [cur Hcur]; [rewrite Hq; exact H |].
  rewrite Hcur. destruct (isShuffled st).
  - assert (Hin : id cur ∈ ids (originalQueue st)).
    { rewrite <- Hids. apply elem_of_ids. exists cur.
      split; [eapply songAt_elem; eauto | reflexivity]. }
    destruct (findIndex_of_known cur (originalQueue st) Hin) as (i & -> & Hi).
    eexists. split; [reflexivity |]. unfold index_ok. simpl.
    destruct (decide (i <> -1)); lia.
  - eexists. split; [reflexivity |]. unfold index_ok. simpl. lia.
Qed.

(** One call of the kind [edit_ok] admits, on a state with both
    invariants: it returns a state with both. *)
Lemma queue_inv_step (o : op) (st : PlayerState) :
  queue_inv st -> edit_ok o st ->
  exists st', run_op o st = Updated st' /\ queue_inv st'.
Proof.
  intros Hinv Hok.
  assert (Hidx : exists st', run_op o st = Updated st' /\ index_ok st').
  { destruct Hinv as [Hids H].
    destruct o as [songs ttl | i | a b | s | s | | songs mode | x | x s | rnd];
      simpl in Hok; simpl run_op.
    - contradiction.
    - contradiction.
    - destruct Hok. apply index_ok_reorder; assumption.
    - eexists. split; [reflexivity |]. apply index_ok_grow; [exact H |].
      rewrite length_app. lia.
    - unfold playNext. destruct (currentIndex st) as [c |] eqn:Hc.
      + apply index_ok_insert_after_current; assumption.
      + eexists. split; [reflexivity |]. unfold index_ok. simpl. lia.
    - eexists. split; [reflexivity |]. unfold clearQueue.
      destruct (currentIndex st) as [c |]; [| exact H].
      destruct (songAt st c); [| exact H]. unfold index_ok. simpl. lia.
    - unfold bulkAddToQueue. destruct mode.
      + destruct (currentIndex st) as [c |] eqn:Hc.
        * apply index_ok_insert_after_current; assumption.
        * eexists. split; [reflexivity |]. unfold index_ok. simpl.
          specialize (Hok eq_refl). destruct songs; [contradiction |].
          simpl. lia.
      + eexists. split; [reflexivity |]. apply index_ok_grow; [exact H |].
        rewrite length_app. lia.
    - apply index_ok_delete. exact H.
    - eexists. split; [reflexivity |]. apply index_ok_grow; [exact H |].
      unfold updateList. rewrite length_fmap. lia.
    - apply index_ok_toggleShuffle. split; assumption. }
  destruct Hidx as (st' & E & Hi). exists st'. split; [exact E |].
  split; [| exact Hi].
  pose proof (outcome_same_ids o st (proj1 Hinv)) as Ho.
  rewrite E in Ho. exact Ho.
Qed.

(** C3, as the code has it: from a state whose orderings hold the same
    identifiers and whose index is [null] or in range, every sequence of
    reorders between two positions of the queue, single and bulk
    insertions (with songs to insert when a ['NEXT'] bulk insertion finds
    no current index), removals and shuffle toggles runs to a state whose
    index is [null] or satisfies [0 <= currentIndex < active.length]. *)
Theorem index_in_range (ops : list op) (st : PlayerState) :
  same_ids st -> index_ok st -> edits_ok ops st ->
  exists st', run ops st = Some st' /\ index_ok st' /\ same_ids st'.
Proof.
  revert st. induction ops as [| o ops IH]; intros st Hids Hidx Hok.
  - exists st. auto.
  - destruct Hok as [Ho Hrest].
    destruct (queue_inv_step o st (conj Hids Hidx) Ho) as (st1 & E & H1 & H2).
    assert (Es : step o st = Some st1) by (unfold step; rewrite E; reflexivity).
    destruct (IH st1 H1 H2 (Hrest st1 Es)) as (st' & Er & Hr).
    exists st'. split; [| exact Hr]. simpl. rewrite Es. exact Er.
Qed.

Lemma index_in_range_witness :
  exists st',
    run [OpReorder 0 2; OpPlayNext (song "D"); OpDelete "B";
         OpToggleShuffle evenDraws] (storeAt 0) = Some st' /\
    index_ok st' /\ same_ids st'.
Proof.
  apply (index_in_range
           [OpReorder 0 2; OpPlayNext (song "D"); OpDelete "B";
            OpToggleShuffle evenDraws] (storeAt 0)).
  - reflexivity.
  - unfold index_ok. simpl. lia.
  - simpl edits_ok. split; [simpl; lia |].
    intros st1 _. split; [exact I |].
    intros st2 _. split; [exact I |].
    intros st3 _. split; [exact I |].
    intros st4 _. exact I.
Defined.

(** C3, counterexamples.  A reorder whose target lies beyond the queue
    moves the current track and stores the target as the index.  A
    ['NEXT'] bulk insertion of no songs, with no current index, sets the
    index to 0 on an empty queue.  A shuffle toggle on a state that
    satisfies the bound but whose canonical ordering is empty leaves
    index 0 on an empty queue. *)
Lemma index_bound_broken :
  (index_ok (storeAt 0) /\
   exists st', reorderQueue 0 5 (storeAt 0) = Updated st' /\
               currentIndex st' = Some 5 /\ length (queue st') = 3%nat /\
               ~ index_ok st') /\
  (index_ok initialState /\
   exists st', bulkAddToQueue [] NEXT initialState = Updated st' /\
               currentIndex st' = Some 0 /\ queue st' = [] /\
               ~ index_ok st') /\
  (index_ok strayStore /\
   exists st', toggleShuffle evenDraws strayStore = Updated st' /\
               currentIndex st' = Some 0 /\ queue st' = [] /\
               ~ index_ok st').
Proof.
  split; [| split].
  - split; [unfold index_ok; simpl; lia |].
    eexists. split; [reflexivity |]. split; [reflexivity |].
    split; [reflexivity |]. unfold index_ok. simpl. lia.
  - split; [exact I |].
    eexists. split; [reflexivity |]. split; [reflexivity |].
    split; [reflexivity |]. unfold index_ok. simpl. lia.
  - split; [unfold index_ok; simpl; lia |].
    eexists. split; [reflexivity |]. split; [reflexivity |].
    split; [reflexivity |]. unfold index_ok. simpl. lia.
Qed.

(** ** The operations on concrete queues *)

Example reorder_first_to_last :
  exists st', reorderQueue 0 2 (storeAt 0) = Updated st' /\
              queue st' = [song "B"; song "C"; song "A"] /\
              originalQueue st' = [song "B"; song "C"; song "A"] /\
              currentIndex st' = Some 2.
Proof. eexists. repeat split. Qed.

Example playNext_after_current :
  exists st', playNext (song "D") (storeAt 1) = Updated st' /\
              queue st' = [song "A"; song "B"; song "D"; song "C"] /\
              currentIndex st' = Some 1.
Proof. eexists. repeat split. Qed.

Example delete_before_current :
  exists st', deleteSongFromQueue "A" (storeAt 1) = Updated st' /\
              queue st' = [song "B"; song "C"] /\
              currentIndex st' = Some 0.
Proof. eexists. repeat split. Qed.

Example delete_current :
  exists st', deleteSongFromQueue "B" (set_playing true (storeAt 1))
                = Updated st' /\
              queue st' = [song "A"; song "C"] /\
              currentIndex st' = None /\ isPlaying st' = false.
Proof. eexists. repeat split. Qed.

Example shuffle_draws :
  shuffle evenDraws [song "B"; song "C"; song "D"]
  = [song "D"; song "B"; song "C"].
Proof. reflexivity. Qed.

Example reorder_beyond_the_end :
  reorderQueue 3 0 (storeAt 0) = Untyped.
Proof. reflexivity. Qed.

Example playNext_on_stale_index :
  playNext (song "D") (set_index (Some 7) (storeAt 0)) = Threw.
Proof. reflexivity. Qed.

(** * Further properties *)

(** ** Moving an element *)

Lemma lookup_without {A} (l : list A) (k m : nat) :
  (k < length l)%nat ->
  (take k l ++ drop (S k) l) !! m
  = if decide (m < k)%nat then l !! m else l !! S m.
Proof.
  intros Hk. destruct (decide (m < k)%nat) as [Hm | Hm].
  - rewrite lookup_app_l by (rewrite length_take; lia).
    apply lookup_take_lt. exact Hm.
  - rewrite lookup_app_r by (rewrite length_take; lia).
    rewrite length_take, lookup_drop. f_equal. lia.
Qed.

Lemma lookup_with {A} (l : list A) (x : A) (k m : nat) :
  (k <= length l)%nat ->
  (take k l ++ [x] ++ drop k l) !! m
  = if decide (m < k)%nat then l !! m
    else if decide (m = k) then Some x else l !! (m - 1)%nat.
Proof.
  intros Hk. destruct (decide (m < k)%nat) as [Hm | Hm].
  - rewrite lookup_app_l by (rewrite length_take; lia).
    apply lookup_take_lt. exact Hm.
  - rewrite lookup_app_r by (rewrite length_take; lia).
    rewrite length_take, Nat.min_l by lia.
    destruct (decide (m = k)) as [-> | Hne].
    + rewrite Nat.sub_diag. reflexivity.
    + replace (m - k)%nat with (S (m - k - 1)) by lia.
      simpl. rewrite lookup_drop. f_equal. lia.
Qed.

(** Taking the element of position [ka] out and putting it back at
    position [kb]: where every element ends up. *)
Lemma move_lookup {A} (l : list A) (x : A) (ka kb n : nat) :
  l !! ka = Some x -> (kb < length l)%nat -> (n < length l)%nat ->
  let rest := take ka l ++ drop (S ka) l in
  (take kb rest ++ [x] ++ drop kb rest)
    !! (if decide (n = ka) then kb
        else if decide (ka < n /\ n <= kb)%nat then (n - 1)%nat
        else if decide (kb <= n /\ n < ka)%nat then S n
        else n)
  = l !! n.
Proof.
  intros Hx Hkb Hn rest.
  assert (Hka : (ka < length l)%nat) by (eapply lookup_lt_Some; eauto).
  assert (Hlen : length rest = (length l - 1)%nat).
  { unfold rest. rewrite length_app, length_take, length_drop. lia. }
  rewrite lookup_with by lia.
  unfold rest. repeat case_decide; try lia; subst;
    rewrite ?lookup_without by lia; repeat case_decide; try lia;
    try congruence; f_equal; lia.
Qed.

(** X1: a reorder between two positions of the queue keeps the current
    track current: the index it computes addresses the very track that was
    current before, the moved track sits at [endIndex], and the queue is a
    rearrangement of the old one. *)
Theorem reorder_keeps_current (a b c : Z) (st : PlayerState) :
  0 <= a < Z.of_nat (length (queue st)) ->
  0 <= b < Z.of_nat (length (queue st)) ->
  currentIndex st = Some c ->
  0 <= c < Z.of_nat (length (queue st)) ->
  exists st',
    reorderQueue a b st = Updated st' /\
    currentSong st' = currentSong st /\
    songAt st' b = songAt st a /\
    queue st' ≡ₚ queue st.
Proof.
  intros Ha Hb Hc Hcr.
  assert (Haddr : (splice_start a (queue st) < length (queue st))%nat)
    by (rewrite splice_start_in_range by lia; lia).
  destruct (splice_remove1_addressed a (queue st) Haddr)
    as (x & rest & E & Hx & Hperm & Hlen).
  rewrite splice_start_in_range in Hx by lia.
  assert (Hrest : rest = take (Z.to_nat a) (queue st)
                         ++ drop (S (Z.to_nat a)) (queue st)).
  { unfold splice_remove1 in E. rewrite splice_start_in_range in E by lia.
    congruence. }
  assert (Hres : splice_insert b [x] rest
                 = take (Z.to_nat b) rest ++ [x] ++ drop (Z.to_nat b) rest).
  { unfold splice_insert. rewrite splice_start_in_range by lia. reflexivity. }
  eexists. split; [unfold reorderQueue; rewrite E; reflexivity |].
  assert (Hmove : forall n : nat, (n < length (queue st))%nat ->
            splice_insert b [x] rest
              !! (if decide (n = Z.to_nat a) then Z.to_nat b
                  else if decide (Z.to_nat a < n /\ n <= Z.to_nat b)%nat
                       then (n - 1)%nat
                  else if decide (Z.to_nat b <= n /\ n < Z.to_nat a)%nat
                       then S n
                  else n)
            = queue st !! n).
  { intros n Hn. rewrite Hres, Hrest.
    apply (move_lookup (queue st) x (Z.to_nat a) (Z.to_nat b) n Hx); lia. }
  split; [| split].
  - unfold currentSong, songAt. simpl. rewrite Hc.
    specialize (Hmove (Z.to_nat c) ltac:(lia)).
    unfold js_get.
    destruct (decide (c = a)) as [-> | Hne].
    + rewrite decide_True in Hmove by reflexivity.
      rewrite !decide_True by lia. exact Hmove.
    + rewrite decide_False in Hmove by lia.
      destruct (decide (a < c /\ b >= c)) as [H1 | H1].
      * rewrite decide_True in Hmove by lia.
        rewrite !decide_True by lia.
        rewrite <- Hmove. f_equal. lia.
      * rewrite decide_False in Hmove by lia.
        destruct (decide (a > c /\ b <= c)) as [H2 | H2].
        -- rewrite decide_True in Hmove by lia.
           rewrite !decide_True by lia.
           rewrite <- Hmove. f_equal. lia.
        -- rewrite decide_False in Hmove by lia.
           rewrite !decide_True by lia. exact Hmove.
  - unfold songAt. simpl.
    specialize (Hmove (Z.to_nat a) ltac:(lia)).
    rewrite decide_True in Hmove by reflexivity.
    unfold js_get. rewrite !decide_True by lia. exact Hmove.
  - simpl. rewrite splice_insert_permutation. exact Hperm.
Qed.

Lemma reorder_keeps_current_witness :
  exists st',
    reorderQueue 0 2 (storeAt 1) = Updated st' /\
    currentSong st' = Some (song "B") /\
    songAt st' 2 = Some (song "A").
Proof.
  destruct (reorder_keeps_current 0 2 1 (storeAt 1)) as (st' & E & H1 & H2 & _);
    [simpl; lia | simpl; lia | reflexivity | simpl; lia |].
  exists st'. split; [exact E |]. split; [exact H1 | exact H2].
Defined.

(** ** Searching by identifier *)

Lemma js_findIndex_lookup {A} (p : A -> bool) (l : list A) (x : A) :
  x ∈ l -> p x = true ->
  exists y, js_get l (js_findIndex p l) = Some y /\ p y = true.
Proof.
  induction l as [| a l IH]; intros Hin Hp; [inversion Hin |].
  simpl js_findIndex. destruct (p a) eqn:Ea.
  - exists a. split; [reflexivity | exact Ea].
  - apply elem_of_cons in Hin as [-> | Hin]; [congruence |].
    destruct (IH Hin Hp) as (y & Hy & Hpy).
    pose proof (js_findIndex_found p l x Hin Hp) as Hr.
    destruct (decide (js_findIndex p l = -1)); [lia |].
    exists y. split; [| exact Hpy].
    apply js_get_Some in Hy as [_ Hy]. apply js_get_Some.
    split; [lia |].
    replace (Z.to_nat (js_findIndex p l + 1))
      with (S (Z.to_nat (js_findIndex p l))) by lia.
    exact Hy.
Qed.

Lemma js_findIndex_first {A} (p : A -> bool) (l : list A) (n : nat) (x : A) :
  l !! n = Some x -> p x = true ->
  (forall m y, (m < n)%nat -> l !! m = Some y -> p y = false) ->
  js_findIndex p l = Z.of_nat n.
Proof.
  revert n. induction l as [| a l IH]; intros n Hn Hp Hbefore;
    [discriminate |].
  simpl js_findIndex. destruct n as [| n].
  - injection Hn as ->. rewrite Hp. reflexivity.
  - rewrite (Hbefore 0%nat a) by (reflexivity || lia).
    rewrite (IH n Hn Hp)
      by (intros m y Hm Hy; apply (Hbefore (S m) y); [lia | exact Hy]).
    destruct (decide _); lia.
Qed.

(** With identifiers that do not repeat, a track is found where it is. *)
Lemma js_findIndex_NoDup (l : list Song) (n : nat) (s : Song) :
  NoDup (id <$> l) -> l !! n = Some s ->
  js_findIndex (same_id (id s)) l = Z.of_nat n.
Proof.
  intros Hnd Hn. apply (js_findIndex_first _ l n s Hn (same_id_true s)).
  intros m y Hm Hy. unfold same_id. apply bool_decide_eq_false_2.
  intros E. assert (m = n); [| lia].
  apply (NoDup_lookup (id <$> l) m n (id s)); [exact Hnd | |];
    rewrite list_lookup_fmap.
  - rewrite Hy. simpl. rewrite E. reflexivity.
  - rewrite Hn. reflexivity.
Qed.

(** ** Inserting after the current track *)

(** X2: a ['NEXT'] bulk insertion with a current track keeps that track
    current and puts the songs, in order, right after it in the active
    ordering; [playNext] is the case of one song, and the next skip
    plays the first song inserted. *)
Theorem insert_next_follows_current (songs : list Song) (c : Z)
    (st : PlayerState) :
  currentIndex st = Some c ->
  0 <= c < Z.of_nat (length (queue st)) ->
  exists st',
    bulkAddToQueue songs NEXT st = Updated st' /\
    currentSong st' = currentSong st /\
    (forall (k : nat) (s : Song), songs !! k = Some s ->
       songAt st' (c + 1 + Z.of_nat k) = Some s) /\
    length (queue st') = (length songs + length (queue st))%nat /\
    (forall s, playNext s st = bulkAddToQueue [s] NEXT st) /\
    (forall s rest ctl, songs = s :: rest -> store ctl = st' ->
       currentSong (store (handleNext ctl)) = Some s).
Proof.
  intros Hc Hr.
  destruct (songAt_in_range st c Hr) as [cur Hcur].
  destruct (findIndex_of_Some cur (originalQueue st)) as [oi Hoi].
  assert (Hk : splice_start (c + 1) (queue st) = Z.to_nat (c + 1))
    by (apply splice_start_in_range; lia).
  set (newQueue := splice_insert (c + 1) songs (queue st)).
  assert (Hlook : forall m : nat,
            newQueue !! m
            = if decide (m < Z.to_nat (c + 1))%nat then queue st !! m
              else if decide (m < Z.to_nat (c + 1) + length songs)%nat
                   then songs !! (m - Z.to_nat (c + 1))%nat
              else queue st !! (m - length songs)%nat).
  { intros m. unfold newQueue, splice_insert. rewrite Hk.
    destruct (decide (m < Z.to_nat (c + 1))%nat).
    - rewrite lookup_app_l by (rewrite length_take; lia).
      apply lookup_take_lt. assumption.
    - rewrite lookup_app_r by (rewrite length_take; lia).
      rewrite length_take, Nat.min_l by lia.
      destruct (decide (m < Z.to_nat (c + 1) + length songs)%nat).
      + rewrite lookup_app_l by lia. reflexivity.
      + rewrite lookup_app_r by lia. rewrite lookup_drop. f_equal. lia. }
  assert (E : bulkAddToQueue songs NEXT st
              = Updated (set_queues newQueue
                           (if decide (oi <> -1)
                            then splice_insert (oi + 1) songs (originalQueue st)
                            else originalQueue st ++ songs) st)).
  { unfold bulkAddToQueue, insert_after_current. rewrite Hc, Hcur, Hoi.
    reflexivity. }
  eexists. split; [exact E |].
  assert (Hcur' : songAt (set_queues newQueue
                            (if decide (oi <> -1)
                             then splice_insert (oi + 1) songs (originalQueue st)
                             else originalQueue st ++ songs) st) c = Some cur).
  { unfold songAt. simpl. apply js_get_Some. split; [lia |].
    rewrite Hlook, decide_True by lia.
    unfold songAt in Hcur. apply js_get_Some in Hcur. tauto. }
  assert (Hins : forall (k : nat) (s : Song), songs !! k = Some s ->
            songAt (set_queues newQueue
                      (if decide (oi <> -1)
                       then splice_insert (oi + 1) songs (originalQueue st)
                       else originalQueue st ++ songs) st)
              (c + 1 + Z.of_nat k) = Some s).
  { intros k s Hs. unfold songAt. simpl. apply js_get_Some. split; [lia |].
    assert (Hkl : (k < length songs)%nat) by (eapply lookup_lt_Some; eauto).
    rewrite Hlook, decide_False, decide_True by lia.
    rewrite <- Hs. f_equal. lia. }
  split; [| split; [| split; [| split]]].
  - unfold currentSong. simpl. rewrite Hc. rewrite Hcur'. symmetry. exact Hcur.
  - exact Hins.
  - simpl. unfold newQueue. apply splice_insert_length.
  - intros s. unfold playNext, bulkAddToQueue. rewrite Hc. reflexivity.
  - intros s rest ctl -> Hst. unfold handleNext. rewrite Hst. simpl.
    rewrite Hc. unfold newQueue. rewrite splice_insert_length. simpl length.
    rewrite decide_True by lia.
    change (currentSong _) with
      (songAt (set_queues newQueue
                 (if decide (oi <> -1)
                  then splice_insert (oi + 1) (s :: rest) (originalQueue st)
                  else originalQueue st ++ s :: rest) st) (c + 1)).
    replace (c + 1) with (c + 1 + Z.of_nat 0) by lia.
    apply Hins. reflexivity.
Qed.

Lemma insert_next_follows_current_witness :
  exists st',
    bulkAddToQueue [song "D"; song "E"] NEXT (storeAt 1) = Updated st' /\
    currentSong st' = Some (song "B") /\
    songAt st' 2 = Some (song "D") /\ songAt st' 3 = Some (song "E").
Proof.
  destruct (insert_next_follows_current [song "D"; song "E"] 1 (storeAt 1))
    as (st' & E & Hcur & Hins & _); [reflexivity | simpl; lia |].
  exists st'. split; [exact E |]. split; [exact Hcur |].
  split; [apply (Hins 0%nat) | apply (Hins 1%nat)]; reflexivity.
Defined.

(** ** Removing a track *)

(** X3: a removal takes the identifier out of both orderings and keeps
    every other track; when the current track had that identifier the
    index becomes [null] and playback stops, otherwise the recomputed
    index addresses a track with the identifier of the old current track
    and [isPlaying] stays as it was. *)
Theorem delete_keeps_current (x : string) (c : Z) (cur : Song)
    (st : PlayerState) :
  currentIndex st = Some c ->
  songAt st c = Some cur ->
  exists st',
    deleteSongFromQueue x st = Updated st' /\
    (x ∉ ids (queue st')) /\ (x ∉ ids (originalQueue st')) /\
    (forall s, s ∈ queue st -> id s <> x -> s ∈ queue st') /\
    (forall s, s ∈ originalQueue st -> id s <> x -> s ∈ originalQueue st') /\
    (id cur = x -> currentIndex st' = None /\ isPlaying st' = false) /\
    (id cur <> x ->
       isPlaying st' = isPlaying st /\
       exists cur', currentSong st' = Some cur' /\ id cur' = id cur).
Proof.
  intros Hc Hcur.
  assert (Hout : forall l, x ∉ ids (without_id x l)).
  { intros l. rewrite ids_without. set_solver. }
  assert (Hkeep : forall l s, s ∈ l -> id s <> x -> s ∈ without_id x l).
  { intros l s Hs Hne. unfold without_id. apply list_elem_of_filter. auto. }
  unfold deleteSongFromQueue. rewrite Hc, Hcur.
  destruct (decide (id cur = x)) as [E | E]; eexists;
    (split; [reflexivity |]); simpl;
    (split; [apply Hout |]); (split; [apply Hout |]);
    (split; [exact (Hkeep _) |]); (split; [exact (Hkeep _) |]);
    split; try (intros; contradiction).
  - auto.
  - intros _. split; [reflexivity |].
    assert (Hin : cur ∈ without_id x (queue st))
      by (apply Hkeep; [eapply songAt_elem; eauto | exact E]).
    destruct (js_findIndex_lookup (same_id (id cur)) _ cur Hin
                (same_id_true cur)) as (y & Hy & Hpy).
    exists y. split.
    + unfold currentSong, songAt. simpl. exact Hy.
    + unfold same_id in Hpy. apply bool_decide_eq_true_1 in Hpy. exact Hpy.
Qed.

Lemma delete_keeps_current_witness :
  exists st',
    deleteSongFromQueue "A" (storeAt 1) = Updated st' /\
    ("A"%string ∉ ids (queue st')) /\
    exists cur', currentSong st' = Some cur' /\ id cur' = "B"%string.
Proof.
  destruct (delete_keeps_current "A" 1 (song "B") (storeAt 1))
    as (st' & E & Hq & _ & _ & _ & _ & Hother); [reflexivity | reflexivity |].
  exists st'. split; [exact E |]. split; [exact Hq |].
  apply Hother. discriminate.
Defined.

(** ** Shuffling *)

Lemma js_swap_perm {A} (i j : nat) (l : list A) : js_swap i j l ≡ₚ l.
Proof.
  unfold js_swap.
  destruct (l !! i) as [a |] eqn:Ei; [| reflexivity].
  destruct (l !! j) as [b |] eqn:Ej; [| reflexivity].
  assert (Hi : (i < length l)%nat) by (eapply lookup_lt_Some; eauto).
  assert (Hj : (j < length l)%nat) by (eapply lookup_lt_Some; eauto).
  apply Permutation_inj. split; [rewrite !length_insert; reflexivity |].
  exists (fun k => if decide (k = i) then j
                   else if decide (k = j) then i else k).
  split.
  - intros k1 k2 H. repeat case_decide; lia.
  - intros k. destruct (decide (k = j)) as [-> | Hkj].
    + rewrite list_lookup_insert_eq by (rewrite length_insert; lia).
      destruct (decide (j = i)) as [-> | Hji]; congruence.
    + rewrite list_lookup_insert_ne by auto.
      destruct (decide (k = i)) as [-> | Hki].
      * rewrite list_lookup_insert_eq by lia. congruence.
      * rewrite list_lookup_insert_ne by auto. reflexivity.
Qed.

Lemma shuffle_perm (rnd : nat -> draw) (l : list Song) : shuffle rnd l ≡ₚ l.
Proof.
  unfold shuffle. generalize (length l - 1)%nat as i. intros i. revert l.
  induction i as [| i IH]; intros l; simpl; [reflexivity |].
  rewrite IH. apply js_swap_perm.
Qed.

(** Turning shuffle on, spelled out. *)
Lemma toggleShuffle_on (rnd : nat -> draw) (c : Z) (cur : Song)
    (st : PlayerState) :
  currentIndex st = Some c ->
  songAt st c = Some cur ->
  isShuffled st = false ->
  exists st' rest,
    toggleShuffle rnd st = Updated st' /\
    isShuffled st' = true /\
    currentIndex st' = Some 0 /\ currentSong st' = Some cur /\
    queue st' = cur :: rest /\
    rest ≡ₚ without_id (id cur) (queue st) /\
    originalQueue st' = originalQueue st.
Proof.
  intros Hc Hcur Hs.
  assert (Hne : queue st <> []).
  { intros E. unfold songAt in Hcur. rewrite E in Hcur.
    apply js_get_Some in Hcur as [_ Hcur]. discriminate. }
  exists (set_index (Some 0)
            (set_queues (cur :: shuffle rnd (without_id (id cur) (queue st)))
               (originalQueue st) (set_shuffled true st))).
  exists (shuffle rnd (without_id (id cur) (queue st))).
  split.
  - unfold toggleShuffle. rewrite Hc, Hs, Hcur.
    destruct (queue st); [contradiction | reflexivity].
  - repeat split. apply shuffle_perm.
Qed.

(** X4: turning shuffle on with a current track keeps that track
    current, at position 0, and follows it by a rearrangement of the
    tracks that carry another identifier, whatever [Math.random] draws;
    the canonical ordering is not touched. *)
Theorem shuffle_on_permutes (rnd : nat -> draw) (c : Z) (cur : Song)
    (st : PlayerState) :
  currentIndex st = Some c ->
  songAt st c = Some cur ->
  isShuffled st = false ->
  exists st' rest,
    toggleShuffle rnd st = Updated st' /\
    isShuffled st' = true /\
    currentIndex st' = Some 0 /\ currentSong st' = Some cur /\
    queue st' = cur :: rest /\
    rest ≡ₚ without_id (id cur) (queue st) /\
    originalQueue st' = originalQueue st.
Proof. apply toggleShuffle_on. Qed.

Lemma shuffle_on_permutes_witness :
  exists st' rest,
    toggleShuffle evenDraws (storeAt 1) = Updated st' /\
    currentSong st' = Some (song "B") /\
    queue st' = song "B" :: rest /\
    rest ≡ₚ without_id "B" [song "A"; song "B"; song "C"].
Proof.
  destruct (shuffle_on_permutes evenDraws 1 (song "B") (storeAt 1))
    as (st' & rest & E & _ & _ & Hcur & Hq & Hp & _);
    [reflexivity | reflexivity | reflexivity |].
  exists st', rest. split; [exact E |]. split; [exact Hcur |].
  split; [exact Hq | exact Hp].
Defined.

(** X5: on any unshuffled queue whose orderings hold the same
    identifiers, shuffle on followed by shuffle off gives back the
    canonical ordering as the active one and keeps a track with the same
    identifier current; when the two orderings are equal and no
    identifier repeats, the index is the one it was. *)
Theorem shuffle_round_trip (rnd rnd' : nat -> draw) (c : Z) (cur : Song)
    (st : PlayerState) :
  same_ids st ->
  isShuffled st = false ->
  currentIndex st = Some c ->
  songAt st c = Some cur ->
  exists st1 st2,
    toggleShuffle rnd st = Updated st1 /\
    toggleShuffle rnd' st1 = Updated st2 /\
    queue st2 = originalQueue st /\
    originalQueue st2 = originalQueue st /\
    isShuffled st2 = false /\
    (exists cur', currentSong st2 = Some cur' /\ id cur' = id cur) /\
    (queue st = originalQueue st -> NoDup (id <$> queue st) ->
     currentIndex st2 = Some c).
Proof.
  intros Hids Hs Hc Hcur.
  destruct (toggleShuffle_on rnd c cur st Hc Hcur Hs)
    as (st1 & rest & E1 & Hs1 & Hc1 & Hcur1 & Hq1 & _ & Ho1).
  assert (Hin : id cur ∈ ids (originalQueue st)).
  { rewrite <- Hids. apply elem_of_ids. exists cur.
    split; [eapply songAt_elem; eauto | reflexivity]. }
  destruct (elem_of_ids (id cur) (originalQueue st)) as [Hex _].
  destruct (Hex Hin) as (s0 & Hs0 & Hid0).
  assert (Hat1 : songAt st1 0 = Some cur)
    by (unfold currentSong in Hcur1; rewrite Hc1 in Hcur1; exact Hcur1).
  assert (Hfound : 0 <= js_findIndex (same_id (id cur)) (originalQueue st)
                   < Z.of_nat (length (originalQueue st))).
  { apply (js_findIndex_found _ _ s0 Hs0). rewrite <- Hid0.
    apply same_id_true. }
  assert (E2 : toggleShuffle rnd' st1
               = Updated (set_index
                   (Some (js_findIndex (same_id (id cur)) (originalQueue st)))
                   (set_queues (originalQueue st) (originalQueue st)
                      (set_shuffled false st1)))).
  { unfold toggleShuffle. rewrite Hc1, Hq1, Hs1, Hat1, Ho1.
    unfold findIndex_of. destruct (originalQueue st) as [| o os] eqn:Eo;
      [inversion Hs0 |].
    rewrite decide_True by lia. reflexivity. }
  exists st1. eexists. split; [exact E1 |]. split; [exact E2 |].
  split; [reflexivity |]. split; [reflexivity |]. split; [reflexivity |].
  split.
  - destruct (js_findIndex_lookup (same_id (id cur)) (originalQueue st) s0 Hs0)
      as (y & Hy & Hpy); [rewrite <- Hid0; apply same_id_true |].
    exists y. split; [exact Hy |].
    unfold same_id in Hpy. apply bool_decide_eq_true_1 in Hpy. exact Hpy.
  - intros Heq Hnd. simpl. f_equal.
    unfold songAt in Hcur. apply js_get_Some in Hcur as [Hpos Hcur].
    rewrite Heq in Hcur, Hnd.
    rewrite (js_findIndex_NoDup _ (Z.to_nat c) cur Hnd Hcur). lia.
Qed.

Lemma shuffle_round_trip_witness :
  exists st1 st2,
    toggleShuffle evenDraws (storeAt 1) = Updated st1 /\
    toggleShuffle evenDraws st1 = Updated st2 /\
    queue st2 = [song "A"; song "B"; song "C"] /\
    currentIndex st2 = Some 1.
Proof.
  destruct (shuffle_round_trip evenDraws evenDraws 1 (song "B") (storeAt 1))
    as (st1 & st2 & E1 & E2 & Hq & _ & _ & _ & Hidx);
    [reflexivity | reflexivity | reflexivity | reflexivity |].
  exists st1, st2. split; [exact E1 |]. split; [exact E2 |].
  split; [exact Hq |]. apply Hidx; [reflexivity |].
  vm_compute. repeat constructor; set_solver.
Defined.

(** ** Clearing and editing the queue *)

(** X6: [clearQueue] never changes which track is current: with a
    current track the two orderings shrink to that track at index 0, and
    without one (a [null] or stale index) the store is left as it is;
    clearing twice is clearing once. *)
Theorem clearQueue_keeps_current (st : PlayerState) :
  currentSong (clearQueue st) = currentSong st /\
  clearQueue (clearQueue st) = clearQueue st /\
  (forall cur, currentSong st = Some cur ->
     queue (clearQueue st) = [cur] /\ originalQueue (clearQueue st) = [cur] /\
     currentIndex (clearQueue st) = Some 0) /\
  (currentSong st = None -> clearQueue st = st) /\
  isPlaying (clearQueue st) = isPlaying st /\
  isShuffled (clearQueue st) = isShuffled st.
Proof.
  assert (Hcases :
    (exists c cur, currentIndex st = Some c /\ songAt st c = Some cur /\
       currentSong st = Some cur /\
       clearQueue st = set_index (Some 0) (set_queues [cur] [cur] st)) \/
    (currentSong st = None /\ clearQueue st = st)).
  { unfold clearQueue, currentSong.
    destruct (currentIndex st) as [c |]; [| right; auto].
    destruct (songAt st c) as [cur |] eqn:Hcur; [| right; auto].
    left. exists c, cur. auto. }
  destruct Hcases as [(c & cur & Hc & Hat & Hcur & E) | [Hnone E]]; rewrite E.
  - split; [rewrite Hcur; reflexivity |].
    split; [reflexivity |].
    split; [intros cur' H'; rewrite Hcur in H'; injection H' as <-; auto |].
    split; [rewrite Hcur; discriminate |]. split; reflexivity.
  - split; [reflexivity |]. split; [exact E |].
    split; [intros cur H'; rewrite Hnone in H'; discriminate |].
    split; [reflexivity |]. split; reflexivity.
Qed.

Lemma updateList_absent (x : string) (new : Song) (l : list Song) :
  x ∉ ids l -> updateList x new l = l.
Proof.
  intros H. unfold updateList.
  rewrite <- (list_fmap_id l) at 2. apply list_fmap_ext.
  intros i s Hs. destruct (decide (id s = x)) as [E | _]; [| reflexivity].
  exfalso. apply H. apply elem_of_ids. exists s.
  split; [apply list_elem_of_lookup; eauto | exact E].
Qed.

Lemma updateList_same_ids (x : string) (new : Song) (l : list Song) :
  id new = x -> id <$> updateList x new l = id <$> l.
Proof.
  intros H. unfold updateList. rewrite <- list_fmap_compose.
  apply list_fmap_ext. intros i s _. simpl.
  destruct (decide (id s = x)); congruence.
Qed.

(** X7: an in-place update keeps the length of both orderings, the
    index and the play state; the current track is replaced exactly when
    it carries the edited identifier; an identifier that is in neither
    ordering makes the call a no-op on them, and an edit that keeps the
    identifier leaves the identifier sequence of both orderings as it
    was. *)
Theorem update_in_place (x : string) (new : Song) (st : PlayerState) :
  let st' := updateSongInQueue x new st in
  length (queue st') = length (queue st) /\
  length (originalQueue st') = length (originalQueue st) /\
  currentIndex st' = currentIndex st /\
  isPlaying st' = isPlaying st /\
  currentSong st'
    = (fun cur => if decide (id cur = x) then new else cur) <$> currentSong st /\
  ((x ∉ ids (queue st)) -> queue st' = queue st) /\
  ((x ∉ ids (originalQueue st)) -> originalQueue st' = originalQueue st) /\
  (id new = x ->
     id <$> queue st' = id <$> queue st /\
     id <$> originalQueue st' = id <$> originalQueue st).
Proof.
  simpl. unfold updateList at 1 2. rewrite !length_fmap.
  repeat split.
  - unfold currentSong, songAt, js_get. simpl.
    destruct (currentIndex st) as [c |]; [| reflexivity].
    destruct (decide (0 <= c)); [| reflexivity].
    unfold updateList. apply list_lookup_fmap.
  - apply updateList_absent.
  - apply updateList_absent.
  - apply updateList_same_ids. assumption.
  - apply updateList_same_ids. assumption.
Qed.

(** ** Repeat mode *)

(** X8: [toggleRepeat] steps through OFF, ALL, ONE and back to OFF: one
    call always changes the mode, three calls give back the store, and
    nothing but the mode is written. *)
Theorem toggleRepeat_cycle (st : PlayerState) :
  toggleRepeat (toggleRepeat (toggleRepeat st)) = st /\
  repeatMode (toggleRepeat st) <> repeatMode st /\
  repeatMode (toggleRepeat st)
    = match repeatMode st with OFF => ALL | ALL => ONE | ONE => OFF end /\
  toggleRepeat st = set_repeat (repeatMode (toggleRepeat st)) st.
Proof.
  destruct st as [q o t i p ct d sp pe sh []]; repeat split; discriminate.
Qed.

(** ** Stored positions *)

(** X9: the progress store keeps one entry: after [saveLastPosition]
    the saved track has its time and every other track has none, whatever
    was stored before; consuming the saved track empties the store, and
    consuming another track changes nothing. *)
Theorem progress_single_entry (a b : string) (t : jsnum) (st : PlayerState) :
  songProgress (saveLastPosition a t st) !! b
    = (if decide (a = b) then Some t else None) /\
  songProgress (consumeSongProgress a (saveLastPosition a t st)) = ∅ /\
  (a <> b ->
   songProgress (consumeSongProgress b (saveLastPosition a t st))
     = songProgress (saveLastPosition a t st)) /\
  songProgress (saveLastPosition b t (saveLastPosition a t st)) !! a
    = (if decide (a = b) then Some t else None).
Proof.
  simpl. split; [| split; [| split]].
  - destruct (decide (a = b)) as [-> | Hne].
    + apply lookup_singleton_eq.
    + apply lookup_singleton_ne. exact Hne.
  - apply delete_singleton_eq.
  - intros Hne. apply delete_singleton_ne. auto.
  - destruct (decide (a = b)) as [-> | Hne].
    + apply lookup_singleton_eq.
    + apply lookup_singleton_ne. auto.
Qed.

(** X10: a position saved for the current track inside the resume
    window is used by the next full load of that track and is gone
    afterwards: the load starts the element at the saved time, leaves the
    progress store empty, and no later load finds a position to resume. *)
Theorem saved_position_resumed_once (c : Ctl) (s : Song) (t d : Q) (now : Z)
    (res : SourceResult) (u : string) (playOk : bool) :
  currentSong (store c) = Some s ->
  duration s = Num d ->
  (0 < t)%Q ->
  (~ (d == 0)%Q /\ (t < d - 10)%Q) \/ ((d == 0)%Q /\ (t < 290)%Q) ->
  rSrc res = Some u -> nonempty u = true ->
  isMetadataUpdate (lastPlayedSourceRef c) (rawSource res)
    && nonempty (src (player c)) = false ->
  let c0 := with_store (saveLastPosition (id s) (Num t) (store c)) c in
  exists c1 r,
    loadSong_begin now c0 = (c1, Some r) /\
    src (player (loadSong_resume r res playOk c1)) = u /\
    pCurrentTime (player (loadSong_resume r res playOk c1)) = Num t /\
    songProgress (store (loadSong_resume r res playOk c1)) = ∅ /\
    (forall r', reqProgress r' = songProgress (store (loadSong_resume r res playOk c1)) ->
       resumeTime r' = None).
Proof.
  intros Hcur Hd Hpos Hwin Hsrc Hne Hfull c0.
  set (r := mkRequest now s (isPlaying (store c)) {[ id s := Num t ]}).
  exists (with_token now c0), r.
  assert (Hb : loadSong_begin now c0 = (with_token now c0, Some r)).
  { unfold loadSong_begin.
    change (currentSong (store c0)) with (currentSong (store c)).
    rewrite Hcur. reflexivity. }
  assert (Hres : resumeTime r = Some (Num t)).
  { apply (resumeTime_window r t d); [apply lookup_singleton_eq | exact Hd |].
    split; assumption. }
  assert (E : loadSong_resume r res playOk (with_token now c0)
              = loadSong_resume r res playOk (with_token now c0)) by reflexivity.
  rewrite (loadSong_resume_full r res playOk (with_token now c0) u Hfull Hsrc Hne)
    in E at 2.
  destruct (atTokenCheck_frame res u (with_token now c0)) as (Hp & Ht & Hs).
  cbv zeta in E.
  destruct (decide (playRequestRef (atTokenCheck res u (with_token now c0))
                    <> requestId r)) as [Hbad | _];
    [rewrite Ht in Hbad; exfalso; apply Hbad; reflexivity |].
  rewrite Hres in E.
  assert (Hprog : songProgress (store (loadSong_resume r res playOk
                                         (with_token now c0))) = ∅).
  { rewrite E. destruct (reqIsPlaying r), playOk; simpl; rewrite Hs; simpl;
      apply delete_singleton_eq. }
  split; [exact Hb |].
  split; [rewrite E; destruct (reqIsPlaying r), playOk; reflexivity |].
  split; [rewrite E; destruct (reqIsPlaying r), playOk; reflexivity |].
  split; [exact Hprog |].
  intros r' Hr'. unfold resumeTime. rewrite Hr', Hprog, lookup_empty.
  reflexivity.
Qed.

Lemma saved_position_resumed_once_witness :
  exists c1 r,
    loadSong_begin 5
      (with_store (saveLastPosition "A" (Num 100) (store ctlSample)) ctlSample)
      = (c1, Some r) /\
    pCurrentTime (player (loadSong_resume r resSample true c1)) = Num 100 /\
    songProgress (store (loadSong_resume r resSample true c1)) = ∅.
Proof.
  destruct (saved_position_resumed_once ctlSample untimed 100 0 5 resSample
              "file:///music/a.mp3" true)
    as (c1 & r & Hb & _ & Ht & Hp & _);
    [reflexivity | reflexivity | reflexivity
    | right; split; reflexivity | reflexivity | reflexivity | reflexivity |].
  exists c1, r. split; [exact Hb |]. split; [exact Ht | exact Hp].
Defined.

(** ** The library store *)

Lemma without_id_ids (x : string) (l : list Song) :
  id <$> without_id x l = filter (fun i => i ≠ x) (id <$> l).
Proof.
  unfold without_id. induction l as [| a l IH]; [reflexivity |].
  rewrite fmap_cons. destruct (decide (id a = x)) as [E | E].
  - rewrite !filter_cons_False by auto. exact IH.
  - rewrite !filter_cons_True by auto. rewrite fmap_cons, IH. reflexivity.
Qed.

Lemma NoDup_take {A} (n : nat) (l : list A) : NoDup l -> NoDup (take n l).
Proof.
  intros H. rewrite <- (take_drop n l) in H.
  apply NoDup_app in H. tauto.
Qed.

(** X11: [addRecentlyPlayed] puts the track first, keeps at most ten
    entries, adds no track that was not there, keeps identifiers that did
    not repeat from repeating, and touches neither the player nor the
    player store. *)
Theorem recently_played_bounded (s : Song) (c : Ctl) :
  let l := recentlyPlayed (addRecentlyPlayed s c) in
  head l = Some s /\
  (length l <= 10)%nat /\
  (forall y, y ∈ l -> y = s \/ (y ∈ recentlyPlayed c /\ id y <> id s)) /\
  (NoDup (id <$> recentlyPlayed c) -> NoDup (id <$> l)) /\
  player (addRecentlyPlayed s c) = player c /\
  store (addRecentlyPlayed s c) = store c.
Proof.
  unfold addRecentlyPlayed. cbn [recentlyPlayed player store].
  split; [reflexivity |].
  split; [rewrite length_take; lia |].
  split; [| split; [| split; reflexivity]].
  - intros y Hy. apply elem_of_take in Hy as (i & Hi & _).
    destruct i as [| i]; [left; simpl in Hi; congruence |].
    right. simpl in Hi.
    assert (Hin : y ∈ without_id (id s) (recentlyPlayed c))
      by (apply list_elem_of_lookup; eauto).
    unfold without_id in Hin. apply list_elem_of_filter in Hin. tauto.
  - intros Hnd. rewrite fmap_take. apply NoDup_take.
    rewrite fmap_cons, without_id_ids. apply NoDup_cons. split.
    + intros Hin. apply list_elem_of_filter in Hin as [Hne _].
      apply Hne. reflexivity.
    + apply NoDup_filter. exact Hnd.
Qed.

(** X12: [deleteSongFromLibrary] takes the identifier out of the
    library, out of every playlist and out of the recently played list,
    keeps every other library track, and keeps the playlists themselves
    (their number, ids and names). *)
Theorem deleteSongFromLibrary_purges (x : string) (ls : LibraryState) :
  let ls' := deleteSongFromLibrary x ls in
  (x ∉ ids (library ls')) /\
  (x ∉ ids (libRecentlyPlayed ls')) /\
  (forall p, p ∈ playlists ls' -> x ∉ plSongIds p) /\
  (forall s, s ∈ library ls -> id s <> x -> s ∈ library ls') /\
  plId <$> playlists ls' = plId <$> playlists ls /\
  plName <$> playlists ls' = plName <$> playlists ls /\
  (forall p i, p ∈ playlists ls -> i ∈ plSongIds p -> i <> x ->
     exists p', p' ∈ playlists ls' /\ plId p' = plId p /\ i ∈ plSongIds p').
Proof.
  simpl. split; [rewrite ids_without; set_solver |].
  split; [rewrite ids_without; set_solver |].
  split; [| split; [| split; [| split]]].
  - intros p Hp. apply list_elem_of_fmap in Hp as (p0 & -> & _). simpl.
    intros Hin. apply list_elem_of_filter in Hin as [Hne _]. auto.
  - intros s Hs Hne. unfold without_id. apply list_elem_of_filter. auto.
  - rewrite <- list_fmap_compose. apply list_fmap_ext. reflexivity.
  - rewrite <- list_fmap_compose. apply list_fmap_ext. reflexivity.
  - intros p i Hp Hi Hne. eexists. split; [| split].
    + apply list_elem_of_fmap. exists p. split; [reflexivity | exact Hp].
    + reflexivity.
    + simpl. apply list_elem_of_filter. auto.
Qed.

(** ** The audio graph *)

Lemma consecutive_snoc {A} (l : list A) (a b : A) :
  consecutive (l ++ [a; b]) = consecutive (l ++ [a]) ++ [(a, b)].
Proof.
  induction l as [| x l IH]; [reflexivity |].
  destruct l as [| y l]; [reflexivity |].
  change (consecutive ((x :: y :: l) ++ [a; b]))
    with ((x, y) :: consecutive ((y :: l) ++ [a; b])).
  rewrite IH. reflexivity.
Qed.

Lemma consecutive_sources {A} (l : list A) (b : A) :
  Forall (fun e => fst e ∈ l) (consecutive (l ++ [b])).
Proof.
  induction l as [| x l IH]; [constructor |].
  assert (E : consecutive ((x :: l) ++ [b])
              = (x, default b (head (l ++ [b]))) :: consecutive (l ++ [b]))
    by (destruct l; reflexivity).
  rewrite E. constructor; [simpl; left |].
  eapply Forall_impl; [exact IH |]. intros e He. right. exact He.
Qed.

(** The connections the loop makes, closed by a connection to [next]. *)
Lemma connectFilters_chain (cur next : AudioNode) (i : nat)
    (filters : list BiquadFilter) :
  fst (connectFilters cur i filters)
    ++ [(snd (connectFilters cur i filters), next)]
  = consecutive (cur :: (NFilter <$> seq i (length filters)) ++ [next]).
Proof.
  revert cur i. induction filters as [| f rest IH]; intros cur i;
    [reflexivity |].
  simpl connectFilters. specialize (IH (NFilter i) (S i)).
  destruct (connectFilters (NFilter i) (S i) rest) as [es last].
  simpl in *. rewrite IH. reflexivity.
Qed.

Lemma init_connections (filters : list BiquadFilter) :
  fst (connectFilters NSource 0 filters)
    ++ [(snd (connectFilters NSource 0 filters), NAnalyser);
        (NAnalyser, NDestination)]
  = consecutive (chainNodes (length filters)).
Proof.
  unfold chainNodes.
  change (NSource :: (NFilter <$> seq 0 (length filters))
            ++ [NAnalyser; NDestination])
    with ((NSource :: (NFilter <$> seq 0 (length filters)))
            ++ [NAnalyser; NDestination]).
  rewrite consecutive_snoc.
  change ((NSource :: (NFilter <$> seq 0 (length filters))) ++ [NAnalyser])
    with (NSource :: (NFilter <$> seq 0 (length filters)) ++ [NAnalyser]).
  rewrite <- connectFilters_chain, <- app_assoc. reflexivity.
Qed.

(** Every connection of the chain leaves a node that [init] disconnects. *)
Lemma chain_disconnected (filters : list BiquadFilter) :
  Forall (fun e => disconnected filters e = true)
    (consecutive (chainNodes (length filters))).
Proof.
  unfold chainNodes.
  assert (E : NSource :: (NFilter <$> seq 0 (length filters))
                ++ [NAnalyser; NDestination]
              = (NSource :: (NFilter <$> seq 0 (length filters)) ++ [NAnalyser])
                ++ [NDestination])
    by (simpl; rewrite <- app_assoc; reflexivity).
  rewrite E.
  eapply Forall_impl; [apply consecutive_sources |].
  intros [a b] He. simpl in He. unfold disconnected. simpl.
  apply elem_of_cons in He as [-> | He]; [reflexivity |].
  apply elem_of_app in He as [He | He].
  - apply list_elem_of_fmap in He as (j & -> & Hj).
    apply elem_of_seq in Hj. apply bool_decide_eq_true_2. lia.
  - apply list_elem_of_singleton in He as ->. reflexivity.
Qed.

Lemma filter_none {A} (P : A -> bool) (l : list A) :
  Forall (fun e => P e = true) l -> filter (fun e => negb (P e)) l = [].
Proof.
  induction 1 as [| e l He _ IH]; [reflexivity |].
  rewrite filter_cons_False by (rewrite He; simpl; auto). exact IH.
Qed.

(** What [init] builds, spelled out. *)
Lemma init_Some (platform : option CtxState) (g g1 : Graph) :
  init platform g = Some g1 ->
  exists s filters,
    (audioContext g = Some s \/ (audioContext g = None /\ platform = Some s)) /\
    filters = (match eqFilters g with
               | [] => newFilter <$> EQ_FREQUENCIES
               | fs => fs
               end) /\
    filters <> [] /\
    g1 = mkGraph (Some s)
           (Some (match analyser g with Some n => n | None => 256 end))
           true filters
           (filter (fun e => negb (disconnected filters e)) (connections g)
              ++ consecutive (chainNodes (length filters))).
Proof.
  unfold init. intros H.
  set (filters := match eqFilters g with
                  | [] => newFilter <$> EQ_FREQUENCIES
                  | fs => fs
                  end) in *.
  assert (Hne : filters <> [])
    by (unfold filters; destruct (eqFilters g); discriminate).
  pose proof (init_connections filters) as Hc.
  destruct (connectFilters NSource 0 filters) as [es last].
  cbn [fst snd] in Hc.
  destruct (audioContext g) as [s |] eqn:Ha.
  - injection H as <-. exists s, filters. rewrite <- Hc. auto.
  - destruct platform as [s |]; [| discriminate].
    injection H as <-. exists s, filters. rewrite <- Hc. auto.
Qed.

(** X13: [init] is idempotent: once a call has built the graph, a
    further call, on any platform, returns the very same graph. *)
Theorem init_idempotent (platform platform' : option CtxState) (g g1 : Graph) :
  init platform g = Some g1 -> init platform' g1 = Some g1.
Proof.
  intros H. destruct (init_Some platform g g1 H) as (s & filters & _ & _ & Hne & ->).
  assert (Hex : exists g2, init platform' (mkGraph (Some s)
                  (Some (match analyser g with Some n => n | None => 256 end))
                  true filters
                  (filter (fun e => negb (disconnected filters e)) (connections g)
                     ++ consecutive (chainNodes (length filters)))) = Some g2).
  { unfold init. simpl. destruct filters; [contradiction |].
    destruct (connectFilters _ _ _). eauto. }
  destruct Hex as [g2 H2]. rewrite H2. f_equal.
  destruct (init_Some _ _ _ H2) as (s' & filters' & Hs' & Hf' & _ & ->).
  simpl in Hs', Hf'.
  assert (filters' = filters) as -> by (destruct filters; [contradiction | exact Hf']).
  destruct Hs' as [Hs' | [Hs' _]]; [| discriminate]. injection Hs' as <-.
  cbn [connections analyser]. f_equal.
  rewrite filter_app, list_filter_filter.
  rewrite (filter_none _ _ (chain_disconnected filters)), app_nil_r. f_equal.
  apply list_filter_iff. intros e. tauto.
Qed.

Lemma init_idempotent_witness :
  init None wiredGraph = Some wiredGraph.
Proof.
  apply (init_idempotent (Some running) None noGraph wiredGraph).
  reflexivity.
Defined.

(** X14: what a successful [init] leaves: a source, an analyser and a
    context; the filters it found, untouched, or, when there were none, ten
    filters at the ISO frequencies with gain 0; and, besides the
    connections of nodes it does not own, exactly the chain source,
    filters in order, analyser, destination. *)
Theorem init_builds_chain (platform : option CtxState) (g g1 : Graph) :
  init platform g = Some g1 ->
  sourceNode g1 = true /\ is_Some (analyser g1) /\ is_Some (audioContext g1) /\
  (eqFilters g <> [] -> eqFilters g1 = eqFilters g) /\
  (eqFilters g = [] ->
     frequency <$> eqFilters g1 = EQ_FREQUENCIES /\
     gains g1 = replicate 10 (Num 0)) /\
  connections g1
    = filter (fun e => negb (disconnected (eqFilters g1) e)) (connections g)
      ++ consecutive (chainNodes (length (eqFilters g1))) /\
  (connections g = [] ->
     connections g1 = consecutive (chainNodes (length (eqFilters g1)))).
Proof.
  intros H. destruct (init_Some platform g g1 H) as (s & filters & _ & Hf & _ & ->).
  cbn [sourceNode analyser audioContext eqFilters connections gains].
  split; [reflexivity |]. split; [eauto |]. split; [eauto |].
  split; [| split; [| split]].
  - intros Hne. rewrite Hf. destruct (eqFilters g); [contradiction | reflexivity].
  - intros E. rewrite Hf, E. split; reflexivity.
  - reflexivity.
  - intros E. rewrite E. reflexivity.
Qed.

Lemma init_builds_chain_witness :
  frequency <$> eqFilters wiredGraph = EQ_FREQUENCIES /\
  connections wiredGraph = consecutive (chainNodes 10).
Proof.
  destruct (init_builds_chain (Some running) noGraph wiredGraph eq_refl)
    as (_ & _ & _ & _ & Hnew & _ & Hc).
  split; [apply Hnew; reflexivity | apply Hc; reflexivity].
Defined.

(** ** Band gains *)

Lemma setFilterGain_initialised (platform : option CtxState) (index : Z)
    (value : jsnum) (g : Graph) :
  eqFilters g <> [] ->
  (0 <= index < Z.of_nat (length (eqFilters g)) /\
   exists f, eqFilters g !! Z.to_nat index = Some f /\
     setFilterGain platform index value g
     = mkGraph (audioContext g) (analyser g) (sourceNode g)
         (<[Z.to_nat index := mkFilter (fType f) (frequency f) (fQ f) value]>
            (eqFilters g))
         (connections g)) \/
  (~ (0 <= index < Z.of_nat (length (eqFilters g))) /\
   setFilterGain platform index value g = g).
Proof.
  intros Hne. unfold setFilterGain.
  destruct (eqFilters g) as [| f0 fs] eqn:E; [contradiction |].
  rewrite <- E.
  destruct (js_get (eqFilters g) index) as [f |] eqn:Hf.
  - left. apply js_get_Some in Hf as [Hpos Hf].
    apply lookup_lt_Some in Hf as Hlt.
    split; [lia |]. exists f. split; [exact Hf | reflexivity].
  - right. split; [| reflexivity]. intros Hr.
    destruct (js_get_in_range (eqFilters g) index Hr) as (f & Hf' & _).
    congruence.
Qed.

(** X15: on a built graph [setFilterGain] writes one band: an index
    that addresses a filter sets the gain of that filter and no other, an
    index that does not is ignored; frequencies, connections and context
    stay, and a later [init] does not reset the gains. *)
Theorem setFilterGain_band (platform : option CtxState) (index : Z)
    (value : jsnum) (g : Graph) :
  eqFilters g <> [] ->
  let g' := setFilterGain platform index value g in
  gains g'
    = (if decide (0 <= index < Z.of_nat (length (eqFilters g)))
       then <[Z.to_nat index := value]> (gains g) else gains g) /\
  frequency <$> eqFilters g' = frequency <$> eqFilters g /\
  connections g' = connections g /\
  audioContext g' = audioContext g /\
  (forall p g2, init p g' = Some g2 -> gains g2 = gains g').
Proof.
  intros Hne g'.
  assert (Hne' : eqFilters g' <> []).
  { unfold g'.
    destruct (setFilterGain_initialised platform index value g Hne)
      as [(_ & f & _ & ->) | (_ & ->)]; [| exact Hne].
    cbn [eqFilters]. intros E. apply Hne.
    apply (f_equal length) in E. rewrite length_insert in E.
    destruct (eqFilters g); [reflexivity | discriminate]. }
  assert (Hinit : forall p g2, init p g' = Some g2 -> gains g2 = gains g').
  { intros p g2 H2. destruct (init_Some p g' g2 H2) as (s & filters & _ & Hf & _ & ->).
    unfold gains. cbn [eqFilters]. rewrite Hf.
    destruct (eqFilters g'); [contradiction | reflexivity]. }
  unfold g' in *.
  destruct (setFilterGain_initialised platform index value g Hne)
    as [(Hr & f & Hf & E) | (Hr & E)]; rewrite E in *.
  - rewrite decide_True by exact Hr. unfold gains. cbn [eqFilters connections audioContext].
    split; [| split; [| split; [| split]]]; try reflexivity.
    + rewrite list_fmap_insert. reflexivity.
    + rewrite list_fmap_insert. cbn [frequency].
      apply list_insert_id. rewrite list_lookup_fmap, Hf. reflexivity.
    + exact Hinit.
  - rewrite decide_False by exact Hr.
    split; [| split; [| split; [| split]]]; try reflexivity. exact Hinit.
Qed.

Lemma setFilterGain_band_witness :
  gains (setFilterGain None 2 (Num 6) wiredGraph)
    = [Num 0; Num 0; Num 6; Num 0; Num 0; Num 0; Num 0; Num 0; Num 0; Num 0] /\
  gains (setFilterGain None 10 (Num 6) wiredGraph) = gains wiredGraph.
Proof.
  split.
  - destruct (setFilterGain_band None 2 (Num 6) wiredGraph) as (H & _);
      [discriminate | exact H].
  - destruct (setFilterGain_band None 10 (Num 6) wiredGraph) as (H & _);
      [discriminate | exact H].
Defined.

Lemma setFilterGain_gains (platform : option CtxState) (k : nat)
    (value : jsnum) (g : Graph) :
  eqFilters g <> [] ->
  gains (setFilterGain platform (Z.of_nat k) value g) = <[k := value]> (gains g) /\
  length (eqFilters (setFilterGain platform (Z.of_nat k) value g))
    = length (eqFilters g).
Proof.
  intros Hne.
  destruct (setFilterGain_initialised platform (Z.of_nat k) value g Hne)
    as [(Hr & f & Hf & ->) | (Hr & ->)].
  - unfold gains. cbn [eqFilters]. rewrite Nat2Z.id, list_fmap_insert, length_insert.
    split; reflexivity.
  - split; [| reflexivity]. symmetry. apply list_insert_ge.
    unfold gains. rewrite length_fmap. lia.
Qed.

Lemma applyGains_gains (platform : option CtxState) (values : list jsnum) :
  forall (g : Graph) (k : nat),
    eqFilters g <> [] ->
    (k + length values <= length (eqFilters g))%nat ->
    gains (applyGains platform (Z.of_nat k) values g)
      = take k (gains g) ++ values ++ drop (k + length values) (gains g) /\
    length (eqFilters (applyGains platform (Z.of_nat k) values g))
      = length (eqFilters g).
Proof.
  induction values as [| v rest IH]; intros g k Hne Hlen.
  - simpl. rewrite Nat.add_0_r, take_drop. auto.
  - simpl applyGains. simpl length in Hlen.
    destruct (setFilterGain_gains platform k v g Hne) as [Hg Hl].
    assert (Hne' : eqFilters (setFilterGain platform (Z.of_nat k) v g) <> []).
    { intros E. rewrite E in Hl. simpl in Hl. lia. }
    replace (Z.of_nat k + 1) with (Z.of_nat (S k)) by lia.
    destruct (IH (setFilterGain platform (Z.of_nat k) v g) (S k) Hne')
      as [IHg IHl]; [rewrite Hl; lia |].
    split; [| congruence].
    rewrite IHg, Hg.
    assert (Hk : (k < length (gains g))%nat)
      by (unfold gains; rewrite length_fmap; lia).
    rewrite (take_S_r _ k v) by (apply list_lookup_insert_eq; exact Hk).
    rewrite take_insert_ge by lia. rewrite drop_insert_lt by lia.
    rewrite <- app_assoc. simpl.
    replace (k + S (length rest))%nat with (S (k + length rest)) by lia.
    reflexivity.
Qed.

Lemma presetValues_shape (name : string) (values : list Z) :
  presetValues name = Some values ->
  length values = 10%nat /\ Forall (fun v => -12 <= v <= 12) values.
Proof.
  unfold presetValues, ownPreset, EQ_PRESETS.
  repeat (destruct (String.eqb _ name);
          [intros H; injection H as <-;
           split; [reflexivity | repeat constructor; lia] |]).
  destruct (bool_decide _); [discriminate |].
  intros H. injection H as <-. split; [reflexivity | repeat constructor; lia].
Qed.

(** X16: the equalizer store and the filter chain stay in step: from a
    state where the ten bands of the store equal the gains of the chain,
    a bulk update of ten bands, an update of one band at an index from 0
    to 9, and a preset of any name that is not inherited from
    [Object.prototype] all lead to such a state again. *)
Theorem eq_stays_synced (platform : option CtxState) (s : EqStore) :
  eq_synced s ->
  (forall bands, length bands = 10%nat ->
     eq_synced (setEqBands platform bands s) /\
     eqBands (setEqBands platform bands s) = bands) /\
  (forall index value, 0 <= index < 10 ->
     exists s', setEqBand platform index value s = Some s' /\
                eq_synced s' /\
                eqBands s' = <[Z.to_nat index := value]> (eqBands s)) /\
  (forall name, name ∉ inheritedKeys ->
     exists s' values,
       presetValues name = Some values /\
       setEqPreset platform name s = Some s' /\
       eq_synced s' /\ eqBands s' = ofInt <$> values).
Proof.
  intros [Hg Hl].
  assert (Hne : eqFilters (engine s) <> [])
    by (intros E; rewrite E in Hl; discriminate).
  assert (Hbulk : forall bands, length bands = 10%nat ->
            eq_synced (setEqBands platform bands s) /\
            eqBands (setEqBands platform bands s) = bands).
  { intros bands Hb. split; [| reflexivity].
    destruct (applyGains_gains platform bands (engine s) 0 Hne) as [Ha Hal];
      [simpl; lia |].
    split; [| unfold setEqBands; cbn [engine]; change 0 with (Z.of_nat 0);
               rewrite Hal; exact Hl].
    unfold setEqBands. cbn [engine eqBands].
    change 0 with (Z.of_nat 0). rewrite Ha. simpl.
    rewrite drop_ge by (unfold gains; rewrite length_fmap; lia).
    apply app_nil_r. }
  split; [exact Hbulk |]. split.
  - intros index value Hr.
    assert (Hlb : length (eqBands s) = 10%nat)
      by (rewrite <- Hg; unfold gains; rewrite length_fmap; exact Hl).
    unfold setEqBand. rewrite Hlb, decide_True by lia.
    eexists. split; [reflexivity |]. split; [| reflexivity].
    destruct (setFilterGain_gains platform (Z.to_nat index) value (engine s) Hne)
      as [Hsg Hsl].
    rewrite Z2Nat.id in Hsg, Hsl by lia.
    split; cbn [engine eqBands]; [rewrite Hsg, Hg; reflexivity | congruence].
  - intros name Hname. unfold setEqPreset.
    destruct (presetValues name) as [values |] eqn:E.
    + destruct (presetValues_shape name values E) as [Hlen _].
      eexists. exists values. split; [reflexivity |]. split; [reflexivity |].
      apply Hbulk. rewrite length_fmap. exact Hlen.
    + exfalso. unfold presetValues in E.
      destruct (ownPreset name EQ_PRESETS); [discriminate |].
      rewrite bool_decide_eq_false_2 in E by exact Hname. discriminate.
Qed.

Lemma eq_stays_synced_witness :
  exists s' values,
    presetValues "Rock" = Some values /\
    setEqPreset (Some running) "Rock" flatStore = Some s' /\
    eq_synced s' /\ eqBands s' = ofInt <$> values.
Proof.
  assert (Hs : eq_synced flatStore) by (split; reflexivity).
  destruct (eq_stays_synced (Some running) flatStore Hs) as (_ & _ & Hp).
  apply Hp. intros H.
  repeat (apply elem_of_cons in H as [H | H]; [discriminate H |]).
  inversion H.
Defined.

(** X17: looking a preset up: every preset the lookup can return has
    ten gains, each between -12 and 12 dB; a name that is not in the table
    selects the flat preset; and a name inherited from [Object.prototype]
    makes [setEqPreset] raise before anything is written. *)
Theorem preset_lookup (platform : option CtxState) (name : string)
    (s : EqStore) :
  (name ∈ inheritedKeys -> setEqPreset platform name s = None) /\
  (forall values, presetValues name = Some values ->
     length values = 10%nat /\ Forall (fun v => -12 <= v <= 12) values) /\
  (name ∉ inheritedKeys -> ownPreset name EQ_PRESETS = None ->
     setEqPreset platform name s = setEqPreset platform "Flat" s /\
     presetValues name = Some [0; 0; 0; 0; 0; 0; 0; 0; 0; 0]).
Proof.
  split; [| split].
  - intros H. unfold inheritedKeys in H.
    repeat (apply elem_of_cons in H as [-> | H]; [reflexivity |]).
    inversion H.
  - apply presetValues_shape.
  - intros Hn Ho.
    assert (E : presetValues name = Some [0; 0; 0; 0; 0; 0; 0; 0; 0; 0]).
    { unfold presetValues. rewrite Ho, bool_decide_eq_false_2 by exact Hn.
      reflexivity. }
    split; [| exact E]. unfold setEqPreset. rewrite E. reflexivity.
Qed.

(** ** Volume *)

(** The clamp, by cases on what [Math.pow] returned. *)
Lemma setVolume_cases (pow3 : jsnum -> jsnum) (val : jsnum) :
  setVolume pow3 val
  = match pow3 val with
    | Num p =>
        if Qltb p 1 then (if Qltb 0 p then VolumeIs p else VolumeIs 0)
        else VolumeIs 1
    | NaN => RaisesTypeError
    | PosInf => VolumeIs 1
    | NegInf => VolumeIs 0
    end.
Proof.
  unfold setVolume. destruct (pow3 val) as [p | | |]; try reflexivity.
  unfold js_min, js_max, js_lt.
  destruct (Qltb p 1) eqn:E1.
  - destruct (Qltb 0 p) eqn:E0; [| reflexivity].
    apply Qltb_lt in E1. apply Qltb_lt in E0. unfold assignVolume.
    assert (Qle_bool 0 p = true) as -> by (apply Qle_bool_iff; lra).
    assert (Qle_bool p 1 = true) as -> by (apply Qle_bool_iff; lra).
    reflexivity.
  - reflexivity.
Qed.

(** X18: [setVolume] clamps whatever [Math.pow(val, 3)] returns into
    [[0, 1]] and assigns it: the assignment never raises an
    [IndexSizeError]; it raises a [TypeError] exactly when [Math.pow]
    returns [NaN], which the clamp lets through; a result within [[0, 1]]
    is assigned as it is, a result below 0 (or [-Infinity]) gives 0 and
    one above 1 (or [Infinity]) gives 1; and a larger result of
    [Math.pow] never gives a smaller volume. *)
Theorem setVolume_range (pow3 : jsnum -> jsnum) (val : jsnum) :
  setVolume pow3 val <> RaisesIndexSizeError /\
  (setVolume pow3 val = RaisesTypeError <-> pow3 val = NaN) /\
  (forall x, setVolume pow3 val = VolumeIs x -> (0 <= x)%Q /\ (x <= 1)%Q) /\
  (forall p, pow3 val = Num p ->
     ((0 <= p)%Q -> (p <= 1)%Q ->
        exists x, setVolume pow3 val = VolumeIs x /\ (x == p)%Q) /\
     ((p <= 0)%Q -> setVolume pow3 val = VolumeIs 0) /\
     ((1 <= p)%Q -> setVolume pow3 val = VolumeIs 1)) /\
  (pow3 val = PosInf -> setVolume pow3 val = VolumeIs 1) /\
  (pow3 val = NegInf -> setVolume pow3 val = VolumeIs 0) /\
  (forall val' p q x y, pow3 val = Num p -> pow3 val' = Num q -> (p <= q)%Q ->
     setVolume pow3 val = VolumeIs x -> setVolume pow3 val' = VolumeIs y ->
     (x <= y)%Q).
Proof.
  assert (Hnum : forall v p, pow3 v = Num p ->
            ((p < 1)%Q /\ (0 < p)%Q /\ setVolume pow3 v = VolumeIs p) \/
            ((p <= 0)%Q /\ setVolume pow3 v = VolumeIs 0) \/
            ((1 <= p)%Q /\ setVolume pow3 v = VolumeIs 1)).
  { intros v p E. rewrite setVolume_cases, E.
    destruct (Qltb p 1) eqn:E1.
    - apply Qltb_lt in E1. destruct (Qltb 0 p) eqn:E0.
      + apply Qltb_lt in E0. left. auto.
      + apply Qltb_ge in E0. right. left. auto.
    - apply Qltb_ge in E1. right. right. auto. }
  split; [| split; [| split; [| split; [| split; [| split]]]]].
  - destruct (pow3 val) as [p | | |] eqn:E.
    + destruct (Hnum val p E) as [(_ & _ & ->) | [(_ & ->) | (_ & ->)]];
        discriminate.
    + rewrite setVolume_cases, E. discriminate.
    + rewrite setVolume_cases, E. discriminate.
    + rewrite setVolume_cases, E. discriminate.
  - destruct (pow3 val) as [p | | |] eqn:E.
    + destruct (Hnum val p E) as [(_ & _ & ->) | [(_ & ->) | (_ & ->)]];
        split; discriminate.
    + rewrite setVolume_cases, E. split; reflexivity.
    + rewrite setVolume_cases, E. split; discriminate.
    + rewrite setVolume_cases, E. split; discriminate.
  - intros x. destruct (pow3 val) as [p | | |] eqn:E.
    + destruct (Hnum val p E) as [(H1 & H0 & ->) | [(_ & ->) | (_ & ->)]];
        intros H; injection H as <-; split; lra.
    + rewrite setVolume_cases, E. discriminate.
    + rewrite setVolume_cases, E. intros H. injection H as <-. split; lra.
    + rewrite setVolume_cases, E. intros H. injection H as <-. split; lra.
  - intros p E. split; [| split].
    + intros H0 H1.
      destruct (Hnum val p E) as [(_ & _ & ->) | [(Hc & ->) | (Hc & ->)]];
        eexists; (split; [reflexivity |]); lra.
    + intros Hp.
      destruct (Hnum val p E) as [(_ & Hc & _) | [(_ & Ev) | (Hc & _)]];
        [exfalso; lra | exact Ev | exfalso; lra].
    + intros Hp.
      destruct (Hnum val p E) as [(Hc & _ & _) | [(Hc & _) | (_ & Ev)]];
        [exfalso; lra | exfalso; lra | exact Ev].
  - intros E. rewrite setVolume_cases, E. reflexivity.
  - intros E. rewrite setVolume_cases, E. reflexivity.
  - intros val' p q x y Ep Eq Hpq Ex Ey.
    destruct (Hnum val p Ep) as [(V1 & V0 & Ev) | [(V0 & Ev) | (V1 & Ev)]];
      destruct (Hnum val' q Eq) as [(W1 & W0 & Ew) | [(W0 & Ew) | (W1 & Ew)]];
      rewrite Ev in Ex; rewrite Ew in Ey;
      injection Ex as <-; injection Ey as <-; lra.
Qed.

(** ** End of track and skipping *)

(** X19: one run of the time-sync loop.  While the element has not
    ended the loop only copies time and duration into the store.  At the
    end of a track: with repeat ONE the index stays and the element is
    rewound to 0; otherwise a track that is not the last is followed by
    the next one; at the last track (or without an index) repeat ALL goes
    to index 0, and repeat OFF keeps the index and clears [isPlaying].
    The loop never edits the queue, and on a non-empty queue it keeps the
    index in range. *)
Theorem end_of_track (ended playOk : bool) (c : Ctl) :
  let st := store c in
  let st' := store (loopTick ended playOk c) in
  let last := match currentIndex st with
              | Some i => Z.of_nat (length (queue st)) - 1 <= i
              | None => True
              end in
  queue st' = queue st /\ originalQueue st' = originalQueue st /\
  repeatMode st' = repeatMode st /\ isShuffled st' = isShuffled st /\
  (ended = false ->
     player (loopTick ended playOk c) = player c /\
     currentIndex st' = currentIndex st /\ isPlaying st' = isPlaying st) /\
  (ended = true -> repeatMode st = ONE ->
     currentIndex st' = currentIndex st /\ isPlaying st' = isPlaying st /\
     pCurrentTime (player (loopTick ended playOk c)) = Num 0 /\
     src (player (loopTick ended playOk c)) = src (player c)) /\
  (ended = true -> repeatMode st <> ONE ->
     forall i, currentIndex st = Some i ->
       i < Z.of_nat (length (queue st)) - 1 ->
       currentIndex st' = Some (i + 1) /\ isPlaying st' = isPlaying st) /\
  (ended = true -> repeatMode st = OFF -> last ->
     currentIndex st' = currentIndex st /\ isPlaying st' = false) /\
  (ended = true -> repeatMode st = ALL -> last ->
     currentIndex st' = Some 0 /\ isPlaying st' = isPlaying st) /\
  (queue st <> [] -> index_ok st -> index_ok st').
Proof.
  cbv zeta.
  assert (Hsync : player (syncTime c) = player c /\
                  queue (store (syncTime c)) = queue (store c) /\
                  originalQueue (store (syncTime c)) = originalQueue (store c) /\
                  currentIndex (store (syncTime c)) = currentIndex (store c) /\
                  isPlaying (store (syncTime c)) = isPlaying (store c) /\
                  repeatMode (store (syncTime c)) = repeatMode (store c) /\
                  isShuffled (store (syncTime c)) = isShuffled (store c)).
  { unfold syncTime. destruct (negb (paused (player c))); [| repeat split].
    destruct (negb (isNaN (pDuration (player c)))
              && js_gt (pDuration (player c)) (Num 0)); repeat split. }
  destruct Hsync as (Sp & Sq & So & Si & Spl & Sm & Ssh).
  unfold loopTick. destruct ended.
  - unfold atEnd. rewrite Sm, Si, Sq, Sp.
    destruct (repeatMode (store c)) eqn:Hm;
      destruct (currentIndex (store c)) as [i |] eqn:Hi;
      try destruct (decide (i < Z.of_nat (length (queue (store c))) - 1));
      try destruct playOk; cbn; rewrite ?Sq, ?So, ?Sm, ?Ssh, ?Si, ?Spl, ?Hi;
      (split; [reflexivity |]); (split; [reflexivity |]);
      (split; [reflexivity |]); (split; [reflexivity |]);
      (split; [discriminate |]);
      (split; [intros _ Hone; try discriminate Hone; auto |]);
      (split; [intros _ Hnot j Hj Hlt; try (contradiction Hnot; reflexivity);
               try discriminate Hj; injection Hj as <-; try lia; auto |]);
      (split; [intros _ Hoff Hlast; try discriminate Hoff; try lia; auto |]);
      (split; [intros _ Hall Hlast; try discriminate Hall; try lia; auto |]);
      unfold index_ok; cbn; rewrite ?Sq, ?Si, ?Hi;
      intros Hq Hr; try exact Hr; try exact I;
      destruct (queue (store c)); try contradiction; simpl in *; lia.
  - rewrite Sq, So, Sm, Ssh, Si, Spl, Sp.
    repeat split; try discriminate.
    unfold index_ok. rewrite Sq, Si. auto.
Qed.

Lemma hookSeek_zero (c : Ctl) :
  store (hookSeek (Num 0) c) = setCurrentTime (Num 0) (store c) /\
  pCurrentTime (player (hookSeek (Num 0) c)) = Num 0.
Proof. split; reflexivity. Qed.

Lemma handleNext_all (c : Ctl) (j : Z) :
  currentIndex (store c) = Some j -> repeatMode (store c) = ALL ->
  currentIndex (store (handleNext c))
    = Some (if decide (j < Z.of_nat (length (queue (store c))) - 1)
            then j + 1 else 0) /\
  queue (store (handleNext c)) = queue (store c) /\
  repeatMode (store (handleNext c)) = ALL /\
  currentTime (store (handleNext c)) = currentTime (store c).
Proof.
  intros Hj Hm. unfold handleNext. rewrite Hj, Hm.
  destruct (decide _); cbn; rewrite ?Hm; auto.
Qed.

Lemma handlePrev_all' (c : Ctl) (j : Z) :
  currentIndex (store c) = Some j -> repeatMode (store c) = ALL ->
  js_gt (currentTime (store c)) (Num 3) = false ->
  currentIndex (store (handlePrev c))
    = Some (if decide (j > 0) then j - 1
            else Z.of_nat (length (queue (store c))) - 1) /\
  queue (store (handlePrev c)) = queue (store c) /\
  repeatMode (store (handlePrev c)) = ALL.
Proof.
  intros Hj Hm Hgt. unfold handlePrev. rewrite Hj, Hm, Hgt.
  destruct (decide _); cbn; rewrite ?Hm; auto.
Qed.

Lemma handlePrev_all (c : Ctl) (j : Z) :
  currentIndex (store c) = Some j -> repeatMode (store c) = ALL ->
  js_gt (currentTime (store c)) (Num 3) = false ->
  currentIndex (store (handlePrev c))
    = Some (if decide (j > 0) then j - 1
            else Z.of_nat (length (queue (store c))) - 1).
Proof. intros Hj Hm Hgt. apply (handlePrev_all' c j Hj Hm Hgt). Qed.

(** X20: the skip buttons on a non-empty queue with an index in range:
    both keep the index in range and never edit the queue; more than
    three seconds into a track, previous rewinds it (element and store at
    0) and keeps the index; with repeat ALL and at most three seconds
    played, next and previous undo each other; without repeat ALL, next
    on the last track does nothing. *)
Theorem skip_handlers (c : Ctl) (i : Z) :
  queue (store c) <> [] ->
  currentIndex (store c) = Some i ->
  0 <= i < Z.of_nat (length (queue (store c))) ->
  index_ok (store (handleNext c)) /\ index_ok (store (handlePrev c)) /\
  queue (store (handleNext c)) = queue (store c) /\
  queue (store (handlePrev c)) = queue (store c) /\
  (js_gt (currentTime (store c)) (Num 3) = true ->
     currentIndex (store (handlePrev c)) = Some i /\
     pCurrentTime (player (handlePrev c)) = Num 0 /\
     currentTime (store (handlePrev c)) = Num 0) /\
  (js_gt (currentTime (store c)) (Num 3) = false ->
   repeatMode (store c) = ALL ->
     currentIndex (store (handlePrev (handleNext c))) = Some i /\
     currentIndex (store (handleNext (handlePrev c))) = Some i) /\
  (repeatMode (store c) <> ALL ->
   i = Z.of_nat (length (queue (store c))) - 1 -> handleNext c = c).
Proof.
  intros Hq Hi Hr.
  assert (Hlen : 0 < Z.of_nat (length (queue (store c)))) by lia.
  destruct (hookSeek_zero c) as [Hs0 Hp0].
  assert (Hnext : store (handleNext c)
                  = if decide (i < Z.of_nat (length (queue (store c))) - 1)
                    then setCurrentIndex (Some (i + 1)) (store c)
                    else match repeatMode (store c) with
                         | ALL => setCurrentIndex (Some 0) (store c)
                         | _ => store c
                         end).
  { unfold handleNext. rewrite Hi. destruct (decide _); [reflexivity |].
    destruct (repeatMode (store c)); reflexivity. }
  assert (Hprev : store (handlePrev c)
                  = if js_gt (currentTime (store c)) (Num 3)
                    then setCurrentTime (Num 0) (store c)
                    else if decide (i > 0)
                         then setCurrentIndex (Some (i - 1)) (store c)
                         else match repeatMode (store c) with
                              | ALL => setCurrentIndex
                                         (Some (Z.of_nat (length (queue (store c))) - 1))
                                         (store c)
                              | _ => setCurrentTime (Num 0) (store c)
                              end).
  { unfold handlePrev. rewrite Hi.
    destruct (js_gt (currentTime (store c)) (Num 3)); [exact Hs0 |].
    destruct (decide (i > 0)); [reflexivity |].
    destruct (repeatMode (store c)); first [exact Hs0 | reflexivity]. }
  split; [| split; [| split; [| split; [| split; [| split]]]]].
  - rewrite Hnext. clear Hnext Hprev. unfold index_ok.
    destruct (decide (i < Z.of_nat (length (queue (store c))) - 1));
      [simpl; lia |].
    destruct (repeatMode (store c)); simpl; rewrite ?Hi; lia.
  - rewrite Hprev. clear Hnext Hprev. unfold index_ok.
    destruct (js_gt (currentTime (store c)) (Num 3)); [simpl; rewrite Hi; lia |].
    destruct (decide (i > 0)); [simpl; lia |].
    destruct (repeatMode (store c)); simpl; rewrite ?Hi; lia.
  - rewrite Hnext. clear Hnext Hprev.
    destruct (decide (i < Z.of_nat (length (queue (store c))) - 1));
      [reflexivity |].
    destruct (repeatMode (store c)); reflexivity.
  - rewrite Hprev. clear Hnext Hprev.
    destruct (js_gt (currentTime (store c)) (Num 3)); [reflexivity |].
    destruct (decide (i > 0)); [reflexivity |].
    destruct (repeatMode (store c)); reflexivity.
  - intros Hgt. unfold handlePrev. rewrite Hgt.
    split; [rewrite Hs0; exact Hi |]. split; [exact Hp0 |].
    rewrite Hs0. reflexivity.
  - intros Hgt Hall. split.
    + destruct (handleNext_all c i Hi Hall) as (Ni & Nq & Nm & Nt).
      rewrite <- Nt in Hgt.
      rewrite (handlePrev_all _ _ Ni Nm Hgt), Nq.
      f_equal. repeat case_decide; lia.
    + destruct (handlePrev_all' c i Hi Hall Hgt) as (Pi & Pq & Pm).
      destruct (handleNext_all _ _ Pi Pm) as (Ni & _).
      rewrite Ni, Pq. f_equal. repeat case_decide; lia.
  - intros Hnall Hlast. unfold handleNext. rewrite Hi.
    rewrite decide_False by lia.
    destruct (repeatMode (store c)); [reflexivity | contradiction | reflexivity].
Qed.

Lemma skip_handlers_witness :
  currentIndex (store (handleNext ctlAtLast)) = Some 0 /\
  currentIndex (store (handlePrev (handleNext ctlAtLast))) = Some 2 /\
  currentIndex (store (handleNext (handlePrev ctlAtLast))) = Some 2.
Proof.
  destruct (skip_handlers ctlAtLast 2) as (_ & _ & _ & _ & _ & Hundo & _);
    [discriminate | reflexivity | simpl; lia |].
  split; [reflexivity |]. apply Hundo; reflexivity.
Defined.

(** X27: the play button of the player bar: with a current track it
    flips [isPlaying] and nothing else, so two presses cancel; without one
    it starts the first track of a non-empty queue and does nothing on an
    empty one; playback is never switched on without a current track. *)
Theorem togglePlayPause_needs_track (c : Ctl) :
  (forall cur, currentSong (store c) = Some cur ->
     togglePlayPause c
       = with_store (setIsPlaying (negb (isPlaying (store c))) (store c)) c /\
     store (togglePlayPause (togglePlayPause c)) = store c) /\
  (currentSong (store c) = None -> queue (store c) = [] ->
     togglePlayPause c = c) /\
  (forall first rest, currentSong (store c) = None ->
     queue (store c) = first :: rest ->
     currentSong (store (togglePlayPause c)) = Some first /\
     isPlaying (store (togglePlayPause c)) = true) /\
  (isPlaying (store c) = false ->
   isPlaying (store (togglePlayPause c)) = true ->
   is_Some (currentSong (store (togglePlayPause c)))).
Proof.
  unfold togglePlayPause.
  destruct (currentSong (store c)) as [cur |] eqn:Hcur.
  - split; [| split; [| split]]; try discriminate.
    + intros cur' _. split; [reflexivity |].
      change (currentSong (store (with_store
                (setIsPlaying (negb (isPlaying (store c))) (store c)) c)))
        with (currentSong (store c)).
      rewrite Hcur. cbn. rewrite negb_involutive.
      destruct (store c). reflexivity.
    + intros _ _.
      change (currentSong (store (with_store
                (setIsPlaying (negb (isPlaying (store c))) (store c)) c)))
        with (currentSong (store c)).
      rewrite Hcur. eauto.
  - split; [intros cur H; discriminate |].
    split; [intros _ E; rewrite E; reflexivity |].
    split.
    + intros first rest _ E. rewrite E. split; [| reflexivity].
      unfold currentSong, songAt. cbn. rewrite E. reflexivity.
    + intros Hoff Hon. destruct (queue (store c)) as [| first rest] eqn:E.
      * rewrite Hoff in Hon. discriminate.
      * unfold currentSong, songAt. cbn. rewrite E. cbn. eauto.
Qed.

(** ** Resolving a source *)

Lemma truthy_path_nonempty (s : Song) (p : string) :
  truthy_path s = Some p -> nonempty p = true.
Proof.
  unfold truthy_path. destruct (path s) as [q |]; [| discriminate].
  destruct (nonempty q) eqn:E; [| discriminate]. congruence.
Qed.

Lemma getSourceUrl_cases (env : Env) (blobUrl : string) (song : Song) :
  (exists p, truthy_path song = Some p /\ hasElectronAPI env = true /\
     getSourceUrl env blobUrl song
     = mkSource (Some ("file://" ++ p)%string) (Some (RawPath p))) \/
  getSourceUrl env blobUrl song = mkSource None None \/
  (exists p, nonempty p = true /\
     getSourceUrl env blobUrl song = mkSource (Some p) (Some (RawPath p))) \/
  (exists f,
     getSourceUrl env blobUrl song = mkSource (Some blobUrl) (Some (RawFile f))).
Proof.
  unfold getSourceUrl.
  assert (Hrest :
    match getSongFile env song with
    | Resolves (Some (RawFile f)) => mkSource (Some blobUrl) (Some (RawFile f))
    | Resolves (Some (RawPath p)) =>
        if nonempty p then mkSource (Some p) (Some (RawPath p))
        else mkSource None None
    | Resolves None => mkSource None None
    | Rejects => mkSource None None
    end = mkSource None None \/
    (exists p, nonempty p = true /\
       match getSongFile env song with
       | Resolves (Some (RawFile f)) => mkSource (Some blobUrl) (Some (RawFile f))
       | Resolves (Some (RawPath p)) =>
           if nonempty p then mkSource (Some p) (Some (RawPath p))
           else mkSource None None
       | Resolves None => mkSource None None
       | Rejects => mkSource None None
       end = mkSource (Some p) (Some (RawPath p))) \/
    (exists f,
       match getSongFile env song with
       | Resolves (Some (RawFile f)) => mkSource (Some blobUrl) (Some (RawFile f))
       | Resolves (Some (RawPath p)) =>
           if nonempty p then mkSource (Some p) (Some (RawPath p))
           else mkSource None None
       | Resolves None => mkSource None None
       | Rejects => mkSource None None
       end = mkSource (Some blobUrl) (Some (RawFile f)))).
  { destruct (getSongFile env song) as [[[f | q] |] |]; eauto.
    destruct (nonempty q) eqn:Hq; eauto. }
  destruct (hasElectronAPI env), (truthy_path song) as [p |]; eauto 6.
Qed.

(** X21: the object [getSourceUrl] resolves to: its URL and its raw
    source are [null] together; a [File] always comes with the object URL
    made for it and a path with a non-empty URL; and with an
    [electronAPI] a track that has a path is served from that path,
    whatever else it carries. *)
Theorem source_result_shape (env : Env) (blobUrl : string) (song : Song) :
  let r := getSourceUrl env blobUrl song in
  (rSrc r = None <-> rawSource r = None) /\
  (forall f, rawSource r = Some (RawFile f) -> rSrc r = Some blobUrl) /\
  (forall p, rawSource r = Some (RawPath p) ->
     nonempty p = true /\
     (rSrc r = Some p \/ rSrc r = Some ("file://" ++ p)%string)) /\
  (hasElectronAPI env = true -> forall p, truthy_path song = Some p ->
     r = mkSource (Some ("file://" ++ p)%string) (Some (RawPath p))).
Proof.
  cbv zeta.
  destruct (getSourceUrl_cases env blobUrl song)
    as [(p & Hp & He & E) | [E | [(p & Hp & E) | (f & E)]]].
  - rewrite E. cbn. split; [split; discriminate |].
    split; [discriminate |]. split.
    + intros q H. injection H as <-.
      split; [eapply truthy_path_nonempty; eauto | auto].
    + intros _ q Hq. congruence.
  - split; [rewrite E; split; reflexivity |].
    split; [rewrite E; discriminate |]. split; [rewrite E; discriminate |].
    intros He q Hq. exfalso.
    unfold getSourceUrl in E. rewrite He, Hq in E. discriminate.
  - split; [rewrite E; split; discriminate |].
    split; [rewrite E; discriminate |]. split.
    + rewrite E. intros q H. injection H as <-. auto.
    + intros He q Hq. unfold getSourceUrl. rewrite He, Hq. reflexivity.
  - split; [rewrite E; split; discriminate |].
    split; [rewrite E; reflexivity |]. split; [rewrite E; discriminate |].
    intros He q Hq. unfold getSourceUrl. rewrite He, Hq. reflexivity.
Qed.

(** X22: [getSongFile] fails only through a file handle: a track with
    an in-memory file, or with a path under Electron, never raises; a
    raise means there is a handle and the permission protocol on it
    failed.  In that protocol a handle whose query answers ['granted'] is
    read without asking for permission, and a handle whose query and
    request both answer something else raises without reading the file. *)
Theorem getSongFile_rejects (env : Env) (song : Song) :
  (getSongFile env song = Rejects <->
     ~ (isElectron env = true /\ is_Some (truthy_path song)) /\
     file song = None /\
     exists h, fileHandle song = Some h /\ fromHandle h = Rejects) /\
  (forall h, queryPermission h = Some (Resolves granted) ->
     fromHandle h = getFile h) /\
  (forall h, queryPermission h = None -> fromHandle h = getFile h) /\
  (forall h p q, queryPermission h = Some (Resolves p) -> p <> granted ->
     requestPermission h = Some (Resolves q) -> q <> granted ->
     fromHandle h = Rejects).
Proof.
  split; [| split; [| split]].
  - unfold getSongFile, isElectron.
    destruct (truthy_path song) as [p |] eqn:Hp,
      (hasElectronAPI env && electronFlag env) eqn:He,
      (file song) as [f |] eqn:Hf,
      (fileHandle song) as [h |] eqn:Hh;
      try destruct (fromHandle h) eqn:Hfh;
      split; try discriminate;
      try (intros (Hn & Hfile & h' & Hh' & Hr); try discriminate;
           try (exfalso; apply Hn; split; eauto; fail);
           try congruence);
      try (intros _; split; [intros [E _]; discriminate || (destruct E; discriminate) |];
           split; [reflexivity |]; eauto).
    all: try (intros _; split; [intros [_ [? E]]; discriminate |];
              split; [reflexivity |]; eauto).
  - intros h E. unfold fromHandle. rewrite E. reflexivity.
  - intros h E. unfold fromHandle. rewrite E. reflexivity.
  - intros h p q Ep Hp Eq Hq. unfold fromHandle. rewrite Ep, Eq.
    destruct p, q; try contradiction; reflexivity.
Qed.

(** ** Loads that are metadata updates, and object URLs *)

Lemma updateList_lookup_other (x : string) (new : Song) (l : list Song)
    (k : nat) (s : Song) :
  l !! k = Some s -> id s <> x -> updateList x new l !! k = Some s.
Proof.
  intros Hk Hne. unfold updateList. rewrite list_lookup_fmap, Hk. simpl.
  destruct (decide (id s = x)); [contradiction | reflexivity].
Qed.

Lemma js_get_fmap {A B} (f : A -> B) (l : list A) (i : Z) :
  js_get (f <$> l) i = f <$> js_get l i.
Proof.
  unfold js_get. destruct (decide (0 <= i)); [| reflexivity].
  apply list_lookup_fmap.
Qed.

(** The track an index selects has the identifier the identifier
    sequence of the active ordering has there. *)
Lemma currentSong_id (st st' : PlayerState) :
  currentIndex st' = currentIndex st ->
  id <$> queue st' = id <$> queue st ->
  id <$> currentSong st' = id <$> currentSong st.
Proof.
  intros Hi Hq. unfold currentSong, songAt. rewrite Hi.
  destruct (currentIndex st) as [i |]; [| reflexivity].
  rewrite <- !js_get_fmap, Hq. reflexivity.
Qed.

(** The writes [updateMetadata] makes once its lookups have settled
    replace entries of one identifier by tracks of that identifier. *)
Lemma updateMetadata_settle_frame (song : Song) (h : Hydration)
    (ls : LibraryState) (c : Ctl) :
  (forall m, merged h = Some m -> id m = id song) ->
  let out := updateMetadata_settle song h ls c in
  player (snd out) = player c /\
  playRequestRef (snd out) = playRequestRef c /\
  lastPlayedSourceRef (snd out) = lastPlayedSourceRef c /\
  activeObjectUrlRef (snd out) = activeObjectUrlRef c /\
  recentlyPlayed (snd out) = recentlyPlayed c /\
  revoked (snd out) = revoked c /\
  nowPlaying (snd out) = nowPlaying c /\
  currentIndex (store (snd out)) = currentIndex (store c) /\
  isPlaying (store (snd out)) = isPlaying (store c) /\
  songProgress (store (snd out)) = songProgress (store c) /\
  id <$> queue (store (snd out)) = id <$> queue (store c) /\
  id <$> originalQueue (store (snd out)) = id <$> originalQueue (store c) /\
  (forall k s, queue (store c) !! k = Some s -> id s <> id song ->
     queue (store (snd out)) !! k = Some s) /\
  id <$> library (fst out) = id <$> library ls /\
  playlists (fst out) = playlists ls /\
  libRecentlyPlayed (fst out) = libRecentlyPlayed ls.
Proof.
  intros Hid. cbv zeta. unfold updateMetadata_settle.
  destruct (merged h) as [m |] eqn:Em.
  - pose proof (Hid m eq_refl) as Hm.
    destruct (lyricsFound h); cbn [fst snd with_store player playRequestRef
      lastPlayedSourceRef activeObjectUrlRef recentlyPlayed revoked nowPlaying
      store updateSongInQueue set_queues currentIndex isPlaying songProgress
      queue originalQueue updateSongInLibrary library playlists
      libRecentlyPlayed];
      rewrite ?updateList_same_ids by (exact Hm || reflexivity);
      repeat (split; [reflexivity |]);
      (split; [| repeat split; reflexivity]);
      intros k s Hk Hne;
      repeat apply updateList_lookup_other; assumption.
  - destruct (lyricsFound h); cbn [fst snd with_store player playRequestRef
      lastPlayedSourceRef activeObjectUrlRef recentlyPlayed revoked nowPlaying
      store updateSongInQueue set_queues currentIndex isPlaying songProgress
      queue originalQueue];
      rewrite ?updateList_same_ids by reflexivity;
      repeat (split; [reflexivity |]);
      (split; [| repeat split; reflexivity]);
      intros k s Hk Hne;
      repeat apply updateList_lookup_other; assumption.
Qed.

(** X23: when the resolved source is the one last played (the same
    path, the same [File], or a [File] of the same name and size) and the
    element has a source, the load is a metadata update.  [loadSong]
    itself then leaves the element, the store, the token, the refs and
    the recently played list as they are, hands the track to
    [updateMetadata], and revokes the object URL made for this
    resolution.  The writes [updateMetadata] makes once its lookups have
    settled replace the entries of that track in the queue and the
    library and nothing else: the element, the refs, the index,
    [isPlaying], the stored positions, every entry of another identifier
    and the identifier sequences of both orderings and of the library
    stay, so the current track keeps its identifier and no load is
    started; with nothing found, nothing is written. *)
Theorem metadata_update_keeps_player (r : Request) (res : SourceResult)
    (playOk : bool) (h : Hydration) (ls : LibraryState) (c : Ctl) :
  isMetadataUpdate (lastPlayedSourceRef c) (rawSource res)
    && nonempty (src (player c)) = true ->
  (forall m, merged h = Some m -> id m = id (reqSong r)) ->
  let c' := loadSong_resume r res playOk c in
  let out := updateMetadata_settle (reqSong r) h ls c' in
  (player c' = player c /\ store c' = store c /\
   playRequestRef c' = playRequestRef c /\
   lastPlayedSourceRef c' = lastPlayedSourceRef c /\
   activeObjectUrlRef c' = activeObjectUrlRef c /\
   recentlyPlayed c' = recentlyPlayed c /\
   nowPlaying c' = Some (reqSong r) /\
   revoked c'
     = revoked c ++ (match rSrc res with
                     | Some s => if isBlob s then [s] else []
                     | None => []
                     end)) /\
  (player (snd out) = player c /\
   playRequestRef (snd out) = playRequestRef c /\
   lastPlayedSourceRef (snd out) = lastPlayedSourceRef c /\
   activeObjectUrlRef (snd out) = activeObjectUrlRef c /\
   recentlyPlayed (snd out) = recentlyPlayed c /\
   revoked (snd out) = revoked c' /\
   currentIndex (store (snd out)) = currentIndex (store c) /\
   isPlaying (store (snd out)) = isPlaying (store c) /\
   songProgress (store (snd out)) = songProgress (store c)) /\
  (id <$> queue (store (snd out)) = id <$> queue (store c) /\
   id <$> originalQueue (store (snd out)) = id <$> originalQueue (store c) /\
   id <$> currentSong (store (snd out)) = id <$> currentSong (store c) /\
   (forall k s, queue (store c) !! k = Some s -> id s <> id (reqSong r) ->
      queue (store (snd out)) !! k = Some s)) /\
  (id <$> library (fst out) = id <$> library ls /\
   playlists (fst out) = playlists ls /\
   libRecentlyPlayed (fst out) = libRecentlyPlayed ls) /\
  (merged h = None -> lyricsFound h = false -> out = (ls, c')).
Proof.
  intros H Hid c' out.
  assert (Hload : player c' = player c /\ store c' = store c /\
            playRequestRef c' = playRequestRef c /\
            lastPlayedSourceRef c' = lastPlayedSourceRef c /\
            activeObjectUrlRef c' = activeObjectUrlRef c /\
            recentlyPlayed c' = recentlyPlayed c /\
            nowPlaying c' = Some (reqSong r) /\
            revoked c'
              = revoked c ++ (match rSrc res with
                              | Some s => if isBlob s then [s] else []
                              | None => []
                              end)).
  { subst c'. unfold loadSong_resume. rewrite H.
    destruct (rSrc res) as [s |]; [destruct (isBlob s) |];
      cbn; rewrite ?app_nil_r; repeat split. }
  destruct Hload as (L1 & L2 & L3 & L4 & L5 & L6 & L7 & L8).
  destruct (updateMetadata_settle_frame (reqSong r) h ls c' Hid)
    as (S1 & S2 & S3 & S4 & S5 & S6 & S7 & S8 & S9 & S10 & S11 & S12 & S13
        & S14 & S15 & S16).
  fold out in S1, S2, S3, S4, S5, S6, S7, S8, S9, S10, S11, S12, S13, S14,
    S15, S16.
  rewrite L2 in S8, S9, S10, S11, S12, S13.
  split; [repeat split; assumption |].
  split; [repeat split; congruence |].
  split.
  - split; [exact S11 |]. split; [exact S12 |].
    split; [apply currentSong_id; assumption | exact S13].
  - split; [repeat split; assumption |].
    intros Em El. subst out. unfold updateMetadata_settle.
    rewrite Em, El. reflexivity.
Qed.

Lemma metadata_update_keeps_player_witness :
  let playing := mkCtl (mkPlayer "blob:a" (Num 42) (Num 180) false) 1 (Some "blob:a"%string)
                   (Some (RawFile (mkFile 1 "a.mp3" 10))) (storeAt 0) [] [] None in
  let again := mkSource (Some "blob:a2"%string) (Some (RawFile (mkFile 7 "a.mp3" 10))) in
  let found := mkHydration
                 (Some (mkSong "A" "A" (Num 180) (Some "/db/a.mp3"%string) None None))
                 true in
  let lib := mkLibrary [song "A"; song "B"] [] [] in
  let c' := loadSong_resume req1 again true playing in
  player c' = player playing /\
  revoked c' = ["blob:a2"%string] /\
  player (snd (updateMetadata_settle (song "A") found lib c')) = player playing /\
  id <$> queue (store (snd (updateMetadata_settle (song "A") found lib c')))
    = ["A"; "B"; "C"]%string.
Proof.
  intros playing again found lib c'.
  assert (Hid : forall m, merged found = Some m -> id m = id (reqSong req1))
    by (intros m E; injection E as <-; reflexivity).
  destruct (metadata_update_keeps_player req1 again true found lib playing
              eq_refl Hid)
    as ((Hp & _ & _ & _ & _ & _ & _ & Hr) & (Hp' & _) & (Hq & _) & _).
  split; [exact Hp |]. split; [exact Hr |]. split; [exact Hp' |]. exact Hq.
Defined.

(** X24: a load that is no metadata update, current or superseded,
    releases the object URL that was active: that URL is revoked, and the
    active URL afterwards is the newly resolved one when it is an object
    URL, and none otherwise. *)
Theorem full_load_releases_url (r : Request) (res : SourceResult)
    (playOk : bool) (c : Ctl) :
  isMetadataUpdate (lastPlayedSourceRef c) (rawSource res)
    && nonempty (src (player c)) = false ->
  let c' := loadSong_resume r res playOk c in
  (forall u, activeObjectUrlRef c = Some u -> nonempty u = true ->
     u ∈ revoked c') /\
  activeObjectUrlRef c'
    = (match rSrc res with
       | Some s => if nonempty s && isBlob s then Some s else None
       | None => None
       end) /\
  lastPlayedSourceRef c' = rawSource res.
Proof.
  intros H. cbv zeta.
  assert (Hclean : activeObjectUrlRef (cleanupUrl c) = None /\
                   (forall u, activeObjectUrlRef c = Some u -> nonempty u = true ->
                      u ∈ revoked (cleanupUrl c))).
  { unfold cleanupUrl. split; [reflexivity |].
    intros u Hu Hne. rewrite Hu, Hne. cbn. apply elem_of_app. right. left. }
  destruct Hclean as [Hnone Hrev].
  unfold loadSong_resume. rewrite H.
  destruct (rSrc res) as [s |]; [| cbn; auto].
  destruct (nonempty s) eqn:Hs; cbn [negb andb]; [| cbn; auto].
  fold (atTokenCheck res s c).
  assert (Hat : activeObjectUrlRef (atTokenCheck res s c)
                = (if isBlob s then Some s else None) /\
                lastPlayedSourceRef (atTokenCheck res s c) = rawSource res /\
                revoked (atTokenCheck res s c) = revoked (cleanupUrl c)).
  { unfold atTokenCheck. destruct (isBlob s); cbn; auto. }
  destruct Hat as (Ha & Hl & Hr).
  destruct (decide _).
  - rewrite Ha, Hl, Hr. auto.
  - destruct (resumeTime r), (reqIsPlaying r), playOk; cbn;
      rewrite Ha, Hl, Hr; auto.
Qed.

Lemma full_load_releases_url_witness :
  let playing := mkCtl (mkPlayer "blob:a" (Num 42) (Num 180) false) 3 (Some "blob:a"%string)
                   (Some (RawFile (mkFile 1 "a.mp3" 10))) (storeAt 2) [] [] None in
  "blob:a"%string ∈ revoked (loadSong_resume req3 res3 true playing) /\
  activeObjectUrlRef (loadSong_resume req3 res3 true playing)
    = Some "blob:c"%string.
Proof.
  intros playing.
  destruct (full_load_releases_url req3 res3 true playing eq_refl)
    as (Hrev & Ha & _).
  split; [apply Hrev; reflexivity | exact Ha].
Defined.

(** ** Saving and restoring the session *)

Lemma restoredQueue_all (init : list Song) (l : list Song) :
  (forall s, s ∈ l -> id s ∈ id <$> init) ->
  id <$> restoredQueue init (id <$> l) = id <$> l.
Proof.
  intros H. rewrite restoredQueue_ids.
  induction l as [| a l IH]; [reflexivity |].
  rewrite fmap_cons, filter_cons_True by (apply H; left).
  rewrite IH by (intros s Hs; apply H; right; exact Hs). reflexivity.
Qed.

(** X25: what the saver writes is read back by the restore: for a
    non-empty queue whose tracks are all among the loaded songs and whose
    index is [null] or in range, restoring the saved session into a store
    without an index gives a queue with the same identifiers in the same
    order, the same index, the same shuffle flag and the same title (or
    "Queue" for an empty title); nothing is saved during the initial load
    or for an empty queue. *)
Theorem session_round_trip (init : list Song) (st st0 : PlayerState) :
  queue st <> [] ->
  (forall s, s ∈ queue st -> id s ∈ id <$> init) ->
  index_ok st ->
  currentIndex st0 = None ->
  exists session,
    saveSession false st = Some session /\
    let st' := restoreSession init (Parsed session) st0 in
    id <$> queue st' = id <$> queue st /\
    originalQueue st' = queue st' /\
    currentIndex st' = currentIndex st /\
    isShuffled st' = isShuffled st /\
    queueTitle st' = titleOr (Some (queueTitle st)) /\
    saveSession true st = None /\
    (forall b, saveSession b (set_queues [] [] st) = None).
Proof.
  intros Hq Hall Hidx H0.
  destruct (queue st) as [| q0 qs] eqn:Eq; [contradiction |].
  exists (mkSession (Some (id <$> q0 :: qs)) (currentIndex st)
            (isShuffled st) (Some (queueTitle st))).
  split; [unfold saveSession; rewrite Eq; reflexivity |].
  cbv zeta.
  pose proof (restoredQueue_all init (q0 :: qs) Hall) as Hids.
  assert (Hinit : init <> []).
  { intros ->. specialize (Hall q0 ltac:(left)). inversion Hall. }
  destruct init as [| s0 init0]; [contradiction |].
  unfold restoreSession. cbn [queueIds sIndex sIsShuffled sQueueTitle].
  rewrite fmap_cons. rewrite fmap_cons in Hids.
  destruct (restoredQueue (s0 :: init0) (id q0 :: (id <$> qs)))
    as [| r0 rs] eqn:Er; [discriminate |].
  assert (Hlen : length (r0 :: rs) = length (q0 :: qs)).
  { apply (f_equal length) in Hids. simpl in *. rewrite !length_fmap in Hids.
    lia. }
  unfold index_ok in Hidx. rewrite Eq in Hidx.
  split; [| split; [| split; [| split; [| split; [| split]]]]].
  - destruct (currentIndex st) as [i |]; [destruct (decide _) |];
      destruct (isShuffled st); exact Hids.
  - destruct (currentIndex st) as [i |]; [destruct (decide _) |];
      destruct (isShuffled st); reflexivity.
  - destruct (currentIndex st) as [i |].
    + cbn [length] in Hidx, Hlen. cbn [length].
      destruct (decide (i < Z.of_nat (S (length rs)))) as [_ | Hn]; [| lia].
      destruct (isShuffled st); reflexivity.
    + destruct (isShuffled st); exact H0.
  - destruct (currentIndex st) as [i |]; [destruct (decide _) |];
      destruct (isShuffled st); reflexivity.
  - destruct (currentIndex st) as [i |]; [destruct (decide _) |];
      destruct (isShuffled st); reflexivity.
  - unfold saveSession. reflexivity.
  - intros b. unfold saveSession. destruct b; reflexivity.
Qed.

Lemma session_round_trip_witness :
  exists session,
    saveSession false (storeAt 1) = Some session /\
    id <$> queue (restoreSession [song "C"; song "B"; song "A"]
                    (Parsed session) initialState)
      = ["A"; "B"; "C"]%string /\
    currentIndex (restoreSession [song "C"; song "B"; song "A"]
                    (Parsed session) initialState) = Some 1.
Proof.
  destruct (session_round_trip [song "C"; song "B"; song "A"] (storeAt 1)
              initialState) as (session & Hs & Hq & _ & Hi & _);
    [discriminate | | unfold index_ok; simpl; lia | reflexivity |].
  - intros s Hs. cbn in Hs. set_solver.
  - exists session. split; [exact Hs |]. split; [exact Hq | exact Hi].
Defined.

(** What the restore leaves alone, by the kind of slot it finds. *)
Lemma restoreSession_frame (init : list Song) (slot : SavedSlot) (st : PlayerState) :
  let st' := restoreSession init slot st in
  isPlaying st' = isPlaying st /\ repeatMode st' = repeatMode st /\
  currentTime st' = currentTime st /\ storeDuration st' = storeDuration st /\
  songProgress st' = songProgress st /\
  permissionErrorSong st' = permissionErrorSong st /\
  (queue st = originalQueue st -> queue st' = originalQueue st') /\
  (init = [] \/ slot = Malformed -> st' = st) /\
  (init <> [] -> slot = Absent ->
     queue st' = init /\ queueTitle st' = "All Songs"%string /\
     currentIndex st' = currentIndex st /\ isShuffled st' = false).
Proof.
  cbv zeta. unfold restoreSession.
  destruct init as [| s0 init0]; [repeat split; auto; congruence |].
  destruct slot as [| | session].
  - repeat split; auto; try congruence.
    intros [E | E]; discriminate.
  - repeat split; auto; congruence.
  - assert (Hno : s0 :: init0 = [] \/ Parsed session = Malformed -> False)
      by (intros [E | E]; discriminate).
    destruct (queueIds session) as [[| x0 saved0] |];
      [repeat split; auto; try congruence; intros E; exfalso; auto | |
       repeat split; auto; try congruence; intros E; exfalso; auto].
    destruct (restoredQueue (s0 :: init0) (x0 :: saved0)) as [| r0 rs];
      [repeat split; auto; try congruence; intros E; exfalso; auto |].
    destruct (sIndex session) as [i |]; [destruct (decide _) |];
      destruct (sIsShuffled session);
      repeat split; auto; try congruence; intros E; exfalso; auto.
Qed.

(** X26: what the restore leaves alone, whatever [getItem] returns: it
    never touches [isPlaying], the repeat mode, the stored time and
    duration, the progress store or the permission slot, and it never
    leaves the two orderings different when they were equal.  With no
    songs loaded, or with a non-empty entry on which the [try] block
    raises, it changes nothing at all.  With songs loaded and no entry,
    or the empty string as entry (which is falsy and so takes the [else]
    branch), it queues every loaded song under "All Songs" without
    choosing an index. *)
Theorem restore_frame (parse : string -> option Session) (init : list Song)
    (entry : option string) (st : PlayerState) :
  let st' := restoreEntry parse init entry st in
  isPlaying st' = isPlaying st /\ repeatMode st' = repeatMode st /\
  currentTime st' = currentTime st /\ storeDuration st' = storeDuration st /\
  songProgress st' = songProgress st /\
  permissionErrorSong st' = permissionErrorSong st /\
  (queue st = originalQueue st -> queue st' = originalQueue st') /\
  (init = [] -> st' = st) /\
  (forall text, entry = Some text -> text <> ""%string -> parse text = None ->
     st' = st) /\
  (init <> [] -> entry = None \/ entry = Some ""%string ->
     queue st' = init /\ originalQueue st' = init /\
     queueTitle st' = "All Songs"%string /\
     currentIndex st' = currentIndex st /\ isShuffled st' = false).
Proof.
  cbv zeta. unfold restoreEntry.
  destruct (restoreSession_frame init (readSlot parse entry) st)
    as (H1 & H2 & H3 & H4 & H5 & H6 & H7 & H8 & H9).
  cbv zeta in H8, H9.
  split; [exact H1 |]. split; [exact H2 |]. split; [exact H3 |].
  split; [exact H4 |]. split; [exact H5 |]. split; [exact H6 |].
  split; [exact H7 |]. split; [| split].
  - intros E. apply H8. left. exact E.
  - intros text -> Hne Hp. apply H8. right. unfold readSlot.
    assert (nonempty text = true) as ->.
    { unfold nonempty. destruct (String.eqb_spec text ""); [contradiction |].
      reflexivity. }
    rewrite Hp. reflexivity.
  - intros Hinit Hentry.
    assert (Habs : readSlot parse entry = Absent)
      by (destruct Hentry as [-> | ->]; reflexivity).
    destruct (H9 Hinit Habs) as (Hq & Ht & Hi & Hs).
    split; [exact Hq |]. split; [| auto].
    rewrite Habs. destruct init as [| s0 init0]; [contradiction |].
    reflexivity.
Qed.

(** ** Editing a track everywhere *)

Lemma updateList_replaced (x : string) (new : Song) (l : list Song) (s : Song) :
  s ∈ updateList x new l ->
  s = new \/ (s ∈ l /\ id s <> x).
Proof.
  unfold updateList. intros H.
  apply list_elem_of_fmap in H as (y & -> & Hy).
  destruct (decide (id y = x)); auto.
Qed.

Lemma updateList_kept (x : string) (new : Song) (l : list Song) (s : Song) :
  s ∈ l -> id s <> x -> s ∈ updateList x new l.
Proof.
  intros Hs Hne. unfold updateList. apply list_elem_of_fmap.
  exists s. split; [| exact Hs]. rewrite decide_False by exact Hne.
  reflexivity.
Qed.

(** X28: an accepted metadata edit replaces the track everywhere at
    once: in the library and in both orderings of the queue every entry
    is the new version or an untouched track with another identifier, so
    no list keeps the old version; tracks with other identifiers stay;
    the lists keep their lengths; the recently played list and the
    playlists are not rewritten; and a rejected edit changes nothing. *)
Theorem edit_replaces_everywhere (success : bool) (x : string) (new : Song)
    (ls : LibraryState) (st : PlayerState) :
  let '(ls', st') := handleSongUpdate success x new ls st in
  (success = false -> ls' = ls /\ st' = st) /\
  (success = true ->
     (forall s, s ∈ library ls' \/ s ∈ queue st' \/ s ∈ originalQueue st' ->
        s = new \/ id s <> x) /\
     (forall s, id s <> x ->
        (s ∈ library ls -> s ∈ library ls') /\
        (s ∈ queue st -> s ∈ queue st') /\
        (s ∈ originalQueue st -> s ∈ originalQueue st')) /\
     length (library ls') = length (library ls) /\
     length (queue st') = length (queue st) /\
     length (originalQueue st') = length (originalQueue st)) /\
  libRecentlyPlayed ls' = libRecentlyPlayed ls /\
  playlists ls' = playlists ls.
Proof.
  unfold handleSongUpdate. destruct success.
  - split; [discriminate |]. split; [| split; reflexivity].
    intros _. cbn. split; [| split; [| split; [| split]]].
    + intros s [H | [H | H]]; apply updateList_replaced in H; tauto.
    + intros s Hne. repeat split; intros H; apply updateList_kept; auto.
    + unfold updateList. apply length_fmap.
    + unfold updateList. apply length_fmap.
    + unfold updateList. apply length_fmap.
  - split; [auto |]. split; [discriminate | split; reflexivity].
Qed.
